(** * cw2 configuration unfolder: a shallow embedding of
      [cw2/cw_config/conf_unfolder.py]

    The Python module turns a list of experiment templates (dictionaries
    read from a YAML file) into the list of concrete runs: [grid] and
    [list] directives are expanded by [params_combine], [ablative]
    directives by [ablative_expand], names are extended by
    [extend_config_name], and [unroll_exp_reps] emits one record per
    repetition.

    The development has two models of the same code.

    - A value model: dictionaries are insertion-ordered association
      lists, every function returns its result (or the Python exception)
      and [deepcopy] is the identity.  The statements about which records
      are produced are proved on it.
    - A store model (module [Store]): dictionaries and lists are objects
      in a heap, [deepcopy] allocates, item assignment overwrites an
      object.  The statement that the caller's objects are left alone
      is proved on it. *)

From Stdlib Require Import ZArith String Ascii List Bool Lia Arith DecimalString.
From stdpp Require Import base list strings.
Import ListNotations.

#[local] Set Warnings "-register-all".
#[local] Open Scope string_scope.
#[local] Open Scope list_scope.

(* ================================================================= *)
(** ** Python values *)

(** The values a parsed YAML document holds.  A [VDict] keeps its items in
    insertion order, as Python's [dict] does; its keys are strings. *)
Inductive value : Type :=
| VNone
| VInt (z : Z)
| VStr (s : string)
| VList (l : list value)
| VDict (d : list (string * value)).

(** A dictionary: its items in insertion order. *)
Abbreviation dict := (list (string * value)) (only parsing).

(** Exceptions the unfolder can raise.  [OutOfFuel] is not a Python
    exception: it is the answer of the work-list loop of the model when its
    step budget is used up, and [expand_loop_fuel] shows that it is never
    returned by [expand_experiments]. *)
Inductive error : Type :=
| KeyError (k : string)
| TypeError
| IndexError
| AttributeError
| OutOfFuel.

Inductive result (A : Type) : Type :=
| OK (a : A)
| Err (e : error).
Arguments OK {A} a.
Arguments Err {A} e.

Definition bind {A B : Type} (m : result A) (f : A -> result B) : result B :=
  match m with
  | OK a => f a
  | Err e => Err e
  end.

Notation "'do' x <- m ; k" := (bind m (fun x => k))
  (at level 10, x name, m at level 100, k at level 200).
Notation "'do' ( x , y ) <- m ; k" :=
  (bind m (fun xy => match xy with (x, y) => k end))
  (at level 10, x name, y name, m at level 100, k at level 200).

(** [for x in l: out.append(f(x))], stopping at the first exception. *)
Fixpoint map_result {A B : Type} (f : A -> result B) (l : list A)
  : result (list B) :=
  match l with
  | [] => OK []
  | x :: l' => do y <- f x; do ys <- map_result f l'; OK (y :: ys)
  end.

(* ----------------------------------------------------------------- *)
(** *** Dictionary operations *)

(** [d.get(k)] *)
Fixpoint dget {V : Type} (k : string) (d : list (string * V)) : option V :=
  match d with
  | [] => None
  | (k', v) :: d' => if String.eqb k k' then Some v else dget k d'
  end.

(** [k in d] *)
Definition dmem {V : Type} (k : string) (d : list (string * V)) : bool :=
  match dget k d with Some _ => true | None => false end.

(** [d[k]], raising [KeyError] *)
Definition dgetE {V : Type} (k : string) (d : list (string * V)) : result V :=
  match dget k d with Some v => OK v | None => Err (KeyError k) end.

(** [d[k] = v]: an existing key keeps its position, a new key goes last. *)
Fixpoint dset {V : Type} (k : string) (v : V) (d : list (string * V))
  : list (string * V) :=
  match d with
  | [] => [(k, v)]
  | (k', v') :: d' =>
      if String.eqb k k' then (k', v) :: d' else (k', v') :: dset k v d'
  end.

(** [del d[k]] for a key that is present *)
Fixpoint ddel {V : Type} (k : string) (d : list (string * V))
  : list (string * V) :=
  match d with
  | [] => []
  | (k', v') :: d' =>
      if String.eqb k k' then ddel k d' else (k', v') :: ddel k d'
  end.

(** A Python [dict] never holds a key twice, at any depth. *)
Fixpoint keys_unique (v : value) : bool :=
  match v with
  | VList l => forallb keys_unique l
  | VDict d =>
      bool_decide (NoDup (map fst d))
      && forallb (fun kv => keys_unique (snd kv)) d
  | _ => true
  end.

(* ----------------------------------------------------------------- *)
(** *** Strings and paths *)

(** [sub in s] for two strings *)
Fixpoint str_contains (sub s : string) : bool :=
  String.prefix sub s
  || match s with
     | EmptyString => false
     | String _ s' => str_contains sub s'
     end.

(** Iterating over a string gives its characters, each a string. *)
Fixpoint string_chars (s : string) : list string :=
  match s with
  | EmptyString => []
  | String c s' => String c EmptyString :: string_chars s'
  end.

(** ['{:02d}'.format(r)] for [r >= 0]: at least two digits. *)
Definition format_02d (r : nat) : string :=
  let s := NilZero.string_of_uint (Nat.to_uint r) in
  if Nat.ltb (String.length s) 2 then "0" +:+ s else s.

Definition ends_with_sep (a : string) : bool :=
  match String.get (String.length a - 1) a with
  | Some c => Ascii.eqb c "/"%char
  | None => false
  end.

(** [os.path.join(a, b)] of [posixpath] *)
Definition path_join (a b : string) : string :=
  if String.prefix "/" b then b
  else if Nat.eqb (String.length a) 0 || ends_with_sep a then a +:+ b
  else a +:+ "/" +:+ b.

(* ----------------------------------------------------------------- *)
(** *** Configuration keys ([cw2.cw_config.cw_conf_keys]) *)

(** Modelled from the spec: the module [cw_conf_keys] is not among the
    sources; the key strings are the ones the specification's data model
    names. *)
Module KEY.
Definition NAME := "name".
Definition PATH := "path".
Definition REPS := "repetitions".
Definition PARAMS := "params".
Definition GRID := "grid".
Definition LIST := "list".
Definition ABLATIVE := "ablative".
Definition LOG_PATH := "log_path".
Definition i_BASIC_PATH := "_base_path".
Definition i_EXP_NAME := "_experiment_name".
Definition i_NEST_DIR := "_nested_dir".
Definition i_REP_IDX := "_rep_idx".
Definition i_REP_LOG_PATH := "_rep_log_path".
End KEY.

(* ----------------------------------------------------------------- *)
(** *** Nested-key helpers ([cw2.util]) *)

(** A key-path, and the flattened mapping from key-paths to candidate
    lists. *)
Abbreviation keypath := (list string) (only parsing).
Abbreviation tuple_dict := (list (list string * list value)) (only parsing).

(** Modelled from the spec: [util.flatten_dict_to_tuple_keys] is not among
    the sources.  "flatten(nested_map) -> mapping<tuple<string>,
    list<value>>.  Leaves of the nested map must be lists; the returned
    tuple key is the path of nested keys from root to that leaf", in stable
    insertion order; a leaf that is no list is a malformed directive, "a
    fatal error to the caller". *)
Fixpoint flatten_value (v : value) : result tuple_dict :=
  match v with
  | VDict d =>
      (fix items (d : dict) : result tuple_dict :=
         match d with
         | [] => OK []
         | (k, v') :: d' =>
             match v' with
             | VDict _ =>
                 do sub <- flatten_value v';
                 do rest <- items d';
                 OK (map (fun kv => (k :: fst kv, snd kv)) sub ++ rest)
             | VList l =>
                 do rest <- items d';
                 OK (([k], l) :: rest)
             | _ => Err TypeError
             end
         end) d
  | _ => Err AttributeError
  end.

Definition flatten_dict_to_tuple_keys (v : value) : result tuple_dict :=
  flatten_value v.

(** Modelled from the spec: [util.insert_deep_dictionary] is not among the
    sources.  "insert(nested_map, key_tuple, value) -> void, creates
    intermediate levels as needed, overwrites existing leaf".  The mapping
    is updated in place; here the updated mapping is returned.  An
    intermediate level that exists and is no mapping cannot be descended
    into. *)
Fixpoint insert_deep_dictionary (d : dict) (t : keypath) (v : value)
  : result dict :=
  match t with
  | [] => Err IndexError
  | k :: t' =>
      match t' with
      | [] => OK (dset k v d)
      | _ :: _ =>
          match dget k d with
          | None =>
              do sub <- insert_deep_dictionary [] t' v;
              OK (dset k (VDict sub) d)
          | Some (VDict sub0) =>
              do sub <- insert_deep_dictionary sub0 t' v;
              OK (dset k (VDict sub) d)
          | Some _ => Err TypeError
          end
      end
  end.

(** Reading a nested mapping along a key-path. *)
Fixpoint get_deep (d : dict) (t : keypath) : option value :=
  match t with
  | [] => None
  | k :: t' =>
      match t' with
      | [] => dget k d
      | _ :: _ =>
          match dget k d with
          | Some (VDict sub) => get_deep sub t'
          | _ => None
          end
      end
  end.

(* ----------------------------------------------------------------- *)
(** *** [zip] and [itertools.product] *)

Inductive iter_func : Type :=
| zip
| product.

Fixpoint zip_cons {V : Type} (l : list V) (rows : list (list V))
  : list (list V) :=
  match l, rows with
  | x :: l', r :: rows' => (x :: r) :: zip_cons l' rows'
  | _, _ => []
  end.

(** [zip] applied to the lists [ls]: stops at the shortest list; no argument, no tuple. *)
Fixpoint py_zip {V : Type} (ls : list (list V)) : list (list V) :=
  match ls with
  | [] => []
  | l :: ls' =>
      match ls' with
      | [] => map (fun x => [x]) l
      | _ :: _ => zip_cons l (py_zip ls')
      end
  end.

(** [itertools.product] applied to the lists [ls]: the last list varies fastest. *)
Fixpoint py_product {V : Type} (ls : list (list V)) : list (list V) :=
  match ls with
  | [] => [[]]
  | l :: ls' => flat_map (fun x => map (cons x) (py_product ls')) l
  end.

Definition iterate {V : Type} (f : iter_func) (ls : list (list V))
  : list (list V) :=
  match f with
  | zip => py_zip ls
  | product => py_product ls
  end.

(** The one message the unfolder logs, with the experiment name it is
    formatted with. *)
Inductive warning : Type :=
| ListParamsNotOfEqualLength (name : value).

(* ================================================================= *)
(** ** The unfolder *)

(** The two helpers of the package the unfolder calls and that are not
    among the sources.

    - [util.convert_param_names(param_names, values)] builds the name
      suffix from the parameter names and the chosen values, and raises
      nothing.
    - Modelled from the spec: [conf_path.normalize_expanded_paths] is
      "normalize(list<JobRecord>) -> list<JobRecord>, pure,
      order-preserving", which "must accept/return the same record shape
      with path/_base_path/_nested_dir reconciled into a final on-disk
      path": one record at a time, by [normalize_record].

    The unfolder is modelled for any such pair. *)
Class Collaborators : Type := {
  convert_param_names : list string -> list value -> string;
  normalize_record : dict -> dict
}.

Section Unfolder.

Context `{Collaborators}.

Definition normalize_expanded_paths (l : list dict) : list dict :=
  map normalize_record l.

(** [extend_config_name(config, param_names, values)].  A name that is no
    string cannot be concatenated with the separator. *)
Definition extend_config_name (config : dict) (param_names : list string)
    (values : list value) : result dict :=
  let _converted_name := convert_param_names param_names values in
  do sep <- match dget KEY.i_EXP_NAME config with
            | Some (VStr s) => OK (if str_contains "__" s then "_" else "__")
            | Some _ => Err TypeError
            | None => OK "__"
            end;
  do old <- dgetE KEY.i_EXP_NAME config;
  match old with
  | VStr s =>
      let config :=
        dset KEY.i_EXP_NAME (VStr (s +:+ sep +:+ _converted_name)) config in
      do name <- dgetE KEY.NAME config;
      OK (dset KEY.i_NEST_DIR name config)
  | _ => Err TypeError
  end.

(** [if KEY.PARAMS not in _config: _config[KEY.PARAMS] = {}] *)
Definition ensure_params (config : dict) : dict :=
  if dmem KEY.PARAMS config then config
  else dset KEY.PARAMS (VDict []) config.

(** [util.insert_deep_dictionary(_config[KEY.PARAMS], t, v)]: the mapping
    under [params] is updated in place. *)
Definition insert_param (config : dict) (t : keypath) (v : value)
  : result dict :=
  do p <- dgetE KEY.PARAMS config;
  match p with
  | VDict pd =>
      do pd' <- insert_deep_dictionary pd t v;
      OK (dset KEY.PARAMS (VDict pd') config)
  | _ => Err TypeError
  end.

(** [for i, t in enumerate(tuple_dict.keys()): insert(.., t, values[i])],
    from index [i] on. *)
Fixpoint insert_values (config : dict) (i : nat) (keys : list keypath)
    (values : list value) : result dict :=
  match keys with
  | [] => OK config
  | t :: keys' =>
      match values !! i with
      | None => Err IndexError
      | Some v =>
          do config' <- insert_param config t v;
          insert_values config' (S i) keys' values
      end
  end.

(** The body of the loop of [params_combine] for one tuple [values]. *)
Definition combine_values (config : dict) (key : string) (td : tuple_dict)
    (_param_names : list string) (values : list value) : result dict :=
  let _config := config in
  let _config := ddel key _config in
  let _config := ensure_params _config in
  do _config <- insert_values _config 0 (map fst td) values;
  extend_config_name _config _param_names values.

(** [len(set(param_lengths)) != 1] *)
Definition lengths_differ (td : tuple_dict) : bool :=
  negb (Nat.eqb
          (length (nodup Nat.eq_dec (map (fun kv => length (snd kv)) td))) 1).


(** [params_combine(config, key, iter_func)]: the records and the
    warnings logged. *)
Definition params_combine (config : dict) (key : option string)
    (f : option iter_func) : result (list dict * list warning) :=
  match f with
  | None => OK ([config], [])
  | Some iter =>
      match key with
      | None => Err (KeyError "None")
      | Some key =>
          do sweep <- dgetE key config;
          do td <- flatten_dict_to_tuple_keys sweep;
          let _param_names := map (String.concat ".") (map fst td) in
          do warns <-
            (if String.eqb key KEY.LIST && lengths_differ td
             then do name <- dgetE KEY.NAME config;
                  OK [ListParamsNotOfEqualLength name]
             else OK []);
          do combined_configs <-
            map_result (combine_values config key td _param_names)
                       (iterate iter (map snd td));
          OK (combined_configs, warns)
      end
  end.

(** The body of the inner loops of [ablative_expand]: one key-path, one
    value.  [_param_names[i]] is a string, so [convert_param_names] zips
    its characters with the one value. *)
Definition ablative_variant (config : dict) (key : keypath) (val : value)
  : result dict :=
  let _config := ensure_params config in
  do _config <- insert_param _config key val;
  extend_config_name _config (string_chars (String.concat "." key)) [val].

Definition ablative_config (config : dict) : result (list dict) :=
  do sweep <- dgetE KEY.ABLATIVE config;
  do td <- flatten_dict_to_tuple_keys sweep;
  do per_key <-
    map_result (fun kv => map_result (ablative_variant config (fst kv)) (snd kv))
               td;
  OK (concat per_key).

(** [ablative_expand(conf_list)] *)
Definition ablative_expand (conf_list : list dict) : result (list dict) :=
  do per_config <- map_result ablative_config conf_list;
  OK (concat per_config).

(** The default values [expand_experiments] sets on a template. *)
Definition set_defaults (config : dict) : result dict :=
  do config <-
    (if dmem KEY.i_BASIC_PATH config then OK config
     else do p <- dgetE KEY.PATH config; OK (dset KEY.i_BASIC_PATH p config));
  do config <-
    (if dmem KEY.i_EXP_NAME config then OK config
     else do n <- dgetE KEY.NAME config; OK (dset KEY.i_EXP_NAME n config));
  OK (if dmem KEY.i_NEST_DIR config then config
      else dset KEY.i_NEST_DIR (VStr "") config).

(** The choice of [key] and [iter_func] of a template that is not both a
    grid and a list: [list] wins over [grid]. *)
Definition directive (config : dict) : option string * option iter_func :=
  let sel := (None, None) in
  let sel := if dmem KEY.GRID config then (Some KEY.GRID, Some product)
             else sel in
  if dmem KEY.LIST config then (Some KEY.LIST, Some zip) else sel.

(** The loop of [expand_experiments]: [queue] is the part of
    [experiment_configs] the [for] has not reached yet, [acc] is
    [expanded_config_list]; [experiment_configs += ...] appends to the
    list being iterated. *)
Fixpoint expand_loop (fuel : nat) (queue : list dict) (acc : list dict)
    (log : list warning) : result (list dict * list warning) :=
  match queue with
  | [] => OK (acc, log)
  | config :: queue' =>
      match fuel with
      | O => Err OutOfFuel
      | S fuel' =>
          do config <- set_defaults config;
          if dmem KEY.GRID config && dmem KEY.LIST config then
            do (combined, warns) <-
              params_combine config (Some KEY.LIST) (Some zip);
            expand_loop fuel' (queue' ++ combined) acc (log ++ warns)
          else
            do (expansion, warns) <-
              params_combine config (fst (directive config))
                             (snd (directive config));
            do expansion <-
              (if dmem KEY.ABLATIVE config
               then do ab <- ablative_expand expansion; OK (expansion ++ ab)
               else OK expansion);
            expand_loop fuel' queue' (acc ++ expansion) (log ++ warns)
      end
  end.

(** A bound on the records a template puts back on the work list: the
    candidate values of its [list] directive. *)
Definition requeue_bound (config : dict) : nat :=
  match dget KEY.LIST config with
  | Some sweep =>
      match flatten_dict_to_tuple_keys sweep with
      | OK td => list_sum (map (fun kv => length (snd kv)) td)
      | Err _ => 0
      end
  | None => 0
  end.

Definition loop_budget (queue : list dict) : nat :=
  length queue + list_sum (map requeue_bound queue).

(** [expand_experiments(_experiment_configs)] *)
Definition expand_experiments (_experiment_configs : list dict)
  : result (list dict * list warning) :=
  let experiment_configs := _experiment_configs in
  do (expanded_config_list, log) <-
    expand_loop (loop_budget experiment_configs) experiment_configs [] [];
  OK (normalize_expanded_paths expanded_config_list, log).

(** The body of the loop of [unroll_exp_reps] for one repetition. *)
Definition unroll_rep (config : dict) (r : nat) : result dict :=
  let c := config in
  let c := dset KEY.i_REP_IDX (VInt (Z.of_nat r)) c in
  do log_path <- dgetE KEY.LOG_PATH c;
  match log_path with
  | VStr p =>
      OK (dset KEY.i_REP_LOG_PATH
               (VStr (path_join p ("rep_" +:+ format_02d r))) c)
  | _ => Err TypeError
  end.

Definition unroll_config (config : dict) : result (list dict) :=
  if dmem KEY.i_REP_IDX config then OK [config]
  else
    do reps <- dgetE KEY.REPS config;
    match reps with
    | VInt n => map_result (unroll_rep config) (seq 0 (Z.to_nat n))
    | _ => Err TypeError
    end.

(** [unroll_exp_reps(exp_configs)] *)
Definition unroll_exp_reps (exp_configs : list dict) : result (list dict) :=
  do per_config <- map_result unroll_config exp_configs;
  OK (concat per_config).

(** [unfold_exps(exp_configs)] *)
Definition unfold_exps (exp_configs : list dict)
  : result (list dict * list warning) :=
  do (param_expansion, log) <- expand_experiments exp_configs;
  do unrolled <- unroll_exp_reps param_expansion;
  OK (unrolled, log).

End Unfolder.

(* ----------------------------------------------------------------- *)
(** *** An instance of the helpers that are not among the sources *)

(** Modelled from the spec: "derive a short token per (name, value) pair
    (string conversion, collapsing to a compact, filesystem-safe
    representation) and join tokens into one suffix".  Used where a
    concrete run of the unfolder is evaluated. *)
Fixpoint value_token (v : value) : string :=
  match v with
  | VNone => "None"
  | VInt z =>
      if (z <? 0)%Z
      then "-" +:+ NilZero.string_of_uint (N.to_uint (Z.to_N (- z)))
      else NilZero.string_of_uint (N.to_uint (Z.to_N z))
  | VStr s => s
  | VList l => String.concat "_" (map value_token l)
  | VDict d =>
      String.concat "_" (map (fun kv => fst kv +:+ value_token (snd kv)) d)
  end.

Fixpoint name_tokens (names : list string) (values : list value)
  : list string :=
  match names, values with
  | n :: names', v :: values' =>
      (n +:+ "_" +:+ value_token v) :: name_tokens names' values'
  | _, _ => []
  end.

Definition convert_param_names_model (names : list string)
    (values : list value) : string :=
  String.concat "_" (name_tokens names values).

(** Modelled from the spec: the final path is the base path, the nested
    directory and the experiment name joined, and the log path lies under
    it. *)
Definition text_of (k : string) (r : dict) : string :=
  match dget k r with Some (VStr s) => s | _ => "" end.

Definition normalize_record_model (r : dict) : dict :=
  let p := path_join (path_join (text_of KEY.i_BASIC_PATH r)
                                (text_of KEY.i_NEST_DIR r))
                     (text_of KEY.i_EXP_NAME r) in
  dset KEY.LOG_PATH (VStr (path_join p "log")) (dset KEY.PATH (VStr p) r).

Definition model : Collaborators := {|
  convert_param_names := convert_param_names_model;
  normalize_record := normalize_record_model
|}.

(* ================================================================= *)
(** ** The unfolder over a store of mutable objects *)

(** In Python a dictionary or a list is an object with an identity: two
    names can denote one object, [d[k] = v] is seen through both, and
    [deepcopy] builds new objects.  Here the objects live in a store, a
    value is an atom or a reference into it, and every function of the
    unfolder is a state transformer that returns its result or the
    exception raised, together with the store it leaves.

    The lists a function only iterates, or builds and returns, are
    sequences of values; [experiment_configs], which the loop of
    [expand_experiments] extends while iterating it, is a list object. *)
(** The warning for an experiment whose name is the string [name]; a name
    that is no string is logged as [None] here. *)
Definition warning_for (name : option string) : warning :=
  ListParamsNotOfEqualLength
    (match name with Some n => VStr n | None => VNone end).

Module Store.

(** A value of the store: an atom, or a reference to an object. *)
Inductive val : Type :=
| VNone
| VInt (z : Z)
| VStr (s : string)
| VRef (l : nat).

(** An object: a dictionary with its items in insertion order, or a
    list. *)
Inductive obj : Type :=
| ODict (items : list (string * val))
| OList (items : list val).

(** The object at location [l] of the store [objects s] is
    [objects s !! l]; new objects are appended. *)
Record state : Type := {
  objects : list obj;
  warnings : list warning
}.

Definition M (A : Type) : Type := state -> result A * state.

Definition ret {A : Type} (a : A) : M A := fun s => (OK a, s).

Definition raise {A : Type} (e : error) : M A := fun s => (Err e, s).

Definition bindM {A B : Type} (m : M A) (f : A -> M B) : M B :=
  fun s =>
    match m s with
    | (OK a, s') => f a s'
    | (Err e, s') => (Err e, s')
    end.

Notation "'let!' x := m 'in' k" := (bindM m (fun x => k))
  (at level 10, x name, m at level 100, k at level 200).
Notation "m ;;; k" := (bindM m (fun _ => k))
  (at level 100, k at level 200, right associativity).

(** [for x in l: out.append(f(x))] *)
Fixpoint forM {A B : Type} (f : A -> M B) (l : list A) : M (list B) :=
  match l with
  | [] => ret []
  | x :: l' => let! y := f x in let! ys := forM f l' in ret (y :: ys)
  end.

(* ----------------------------------------------------------------- *)
(** *** Objects *)

(** A new object. *)
Definition alloc (o : obj) : M val :=
  fun s =>
    (OK (VRef (length (objects s))),
     {| objects := objects s ++ [o]; warnings := warnings s |}).

(** The object a value refers to. *)
Definition load (v : val) : M obj :=
  fun s =>
    match v with
    | VRef l =>
        match objects s !! l with
        | Some o => (OK o, s)
        | None => (Err TypeError, s)
        end
    | _ => (Err TypeError, s)
    end.

(** Overwrite the object a value refers to. *)
Definition store (v : val) (o : obj) : M unit :=
  fun s =>
    match v with
    | VRef l =>
        match objects s !! l with
        | Some _ =>
            (OK tt, {| objects := <[l := o]> (objects s);
                       warnings := warnings s |})
        | None => (Err TypeError, s)
        end
    | _ => (Err TypeError, s)
    end.

(** [cw_logging.getLogger().warning(...)] *)
Definition warn (w : warning) : M unit :=
  fun s => (OK tt, {| objects := objects s; warnings := warnings s ++ [w] |}).

(** The items of the dictionary a value refers to. *)
Definition load_dict (v : val) : M (list (string * val)) :=
  let! o := load v in
  match o with
  | ODict items => ret items
  | OList _ => raise TypeError
  end.

Definition load_list (v : val) : M (list val) :=
  let! o := load v in
  match o with
  | OList items => ret items
  | ODict _ => raise TypeError
  end.

(** [k in d] *)
Definition contains (d : val) (k : string) : M bool :=
  let! items := load_dict d in ret (dmem k items).

(** [d[k]] *)
Definition getitem (d : val) (k : string) : M val :=
  let! items := load_dict d in
  match dget k items with
  | Some v => ret v
  | None => raise (KeyError k)
  end.

(** [d[k] = v] *)
Definition setitem (d : val) (k : string) (v : val) : M unit :=
  let! items := load_dict d in store d (ODict (dset k v items)).

(** [del d[k]] *)
Definition delitem (d : val) (k : string) : M unit :=
  let! items := load_dict d in
  if dmem k items then store d (ODict (ddel k items)) else raise (KeyError k).

(** [l += xs] *)
Definition extend (l : val) (xs : list val) : M unit :=
  let! items := load_list l in store l (OList (items ++ xs)).

(* ----------------------------------------------------------------- *)
(** *** [copy.deepcopy] *)

(** The copies made so far: original location, location of its copy. *)
Fixpoint copied (l : nat) (memo : list (nat * nat)) : option nat :=
  match memo with
  | [] => None
  | (l0, l') :: memo' => if Nat.eqb l l0 then Some l' else copied l memo'
  end.

(** [deepcopy(v, memo)]: an atom is returned as it is; an object that was
    copied before is represented by its copy; otherwise an empty object is
    made and entered into [memo], the items are copied in order, and the
    new object receives them.  [depth] bounds the nesting. *)
Fixpoint deepcopy_memo (depth : nat) (v : val) (memo : list (nat * nat))
  : M (val * list (nat * nat)) :=
  match v with
  | VRef l =>
      match copied l memo with
      | Some l' => ret (VRef l', memo)
      | None =>
          match depth with
          | O => raise OutOfFuel
          | S depth' =>
              let copy_values :=
                fix copy_values (vs : list val) (memo : list (nat * nat))
                  : M (list val * list (nat * nat)) :=
                  match vs with
                  | [] => ret ([], memo)
                  | x :: vs' =>
                      let! xm := deepcopy_memo depth' x memo in
                      let! vsm := copy_values vs' (snd xm) in
                      ret (fst xm :: fst vsm, snd vsm)
                  end in
              let! o := load v in
              match o with
              | OList items =>
                  let! y := alloc (OList []) in
                  match y with
                  | VRef l' =>
                      let! r := copy_values items ((l, l') :: memo) in
                      store y (OList (fst r)) ;;;
                      ret (y, snd r)
                  | _ => raise TypeError
                  end
              | ODict items =>
                  let! y := alloc (ODict []) in
                  match y with
                  | VRef l' =>
                      let! r := copy_values (map snd items) ((l, l') :: memo) in
                      store y (ODict (combine (map fst items) (fst r))) ;;;
                      ret (y, snd r)
                  | _ => raise TypeError
                  end
              end
          end
      end
  | _ => ret (v, memo)
  end.

(** [deepcopy(v)]: no chain of distinct objects is longer than the
    store. *)
Definition deepcopy (v : val) : M val :=
  fun s =>
    (let! r := deepcopy_memo (S (length (objects s))) v [] in ret (fst r)) s.

Section Unfolder.

(** The step budget of the two loops that are not structural: the
    recursion of the flattener into nested mappings, and the work list of
    [expand_experiments]. *)
Variable fuel : nat.

(** [util.convert_param_names]: it reads the values, in the store, and
    writes nothing. *)
Variable convert_param_names : list string -> list val -> list obj -> string.

(** Modelled from the spec: [conf_path.normalize_expanded_paths]
    reconciles the path fields of each record in place; [path_fields]
    gives the fields it sets for a record with the given items, and the
    strings it sets them to. *)
Variable path_fields : list (string * val) -> list (string * string).

(** Modelled from the spec: [util.flatten_dict_to_tuple_keys], on a
    mapping in the store.  A leaf is the list object itself. *)
Fixpoint flatten (depth : nat) (d : val) : M (list (list string * val)) :=
  match depth with
  | O => raise OutOfFuel
  | S depth' =>
      let! items := load_dict d in
      (fix entries (items : list (string * val))
         : M (list (list string * val)) :=
         match items with
         | [] => ret []
         | (k, v) :: items' =>
             let! o := load v in
             match o with
             | ODict _ =>
                 let! sub := flatten depth' v in
                 let! rest := entries items' in
                 ret (map (fun kv => (k :: fst kv, snd kv)) sub ++ rest)
             | OList _ =>
                 let! rest := entries items' in
                 ret (([k], v) :: rest)
             end
         end) items
  end.

Definition flatten_dict_to_tuple_keys (d : val)
  : M (list (list string * val)) :=
  flatten fuel d.

(** Modelled from the spec: [util.insert_deep_dictionary(d, t, value)];
    the mappings on the way are updated in place, a missing level is a new
    mapping. *)
Fixpoint insert_deep_dictionary (d : val) (t : list string) (value : val)
  : M unit :=
  match t with
  | [] => raise IndexError
  | k :: t' =>
      match t' with
      | [] => setitem d k value
      | _ :: _ =>
          let! present := contains d k in
          (if present then ret tt
           else let! sub := alloc (ODict []) in setitem d k sub) ;;;
          let! sub := getitem d k in
          insert_deep_dictionary sub t' value
      end
  end.

(** [extend_config_name(config, param_names, values)] *)
Definition extend_config_name (config : val) (param_names : list string)
    (values : list val) : M val :=
  let! _converted_name :=
    (fun s => (OK (convert_param_names param_names values (objects s)), s)) in
  let! named := contains config KEY.i_EXP_NAME in
  let! sep :=
    (if named then
       let! old := getitem config KEY.i_EXP_NAME in
       match old with
       | VStr s => ret (if str_contains "__" s then "_" else "__")
       | _ => raise TypeError
       end
     else ret "__") in
  let! old := getitem config KEY.i_EXP_NAME in
  match old with
  | VStr s =>
      setitem config KEY.i_EXP_NAME (VStr (s +:+ sep +:+ _converted_name)) ;;;
      let! name := getitem config KEY.NAME in
      setitem config KEY.i_NEST_DIR name ;;;
      ret config
  | _ => raise TypeError
  end.

(** [if KEY.PARAMS not in _config: _config[KEY.PARAMS] = {}] *)
Definition ensure_params (_config : val) : M unit :=
  let! present := contains _config KEY.PARAMS in
  if present then ret tt
  else let! empty := alloc (ODict []) in setitem _config KEY.PARAMS empty.

(** [util.insert_deep_dictionary(_config[KEY.PARAMS], t, v)] *)
Definition insert_param (_config : val) (t : list string) (v : val) : M unit :=
  let! params := getitem _config KEY.PARAMS in
  insert_deep_dictionary params t v.

Fixpoint insert_values (_config : val) (i : nat) (keys : list (list string))
    (values : list val) : M unit :=
  match keys with
  | [] => ret tt
  | t :: keys' =>
      match values !! i with
      | None => raise IndexError
      | Some v =>
          insert_param _config t v ;;;
          insert_values _config (S i) keys' values
      end
  end.

(** The body of the loop of [params_combine] for one tuple [values]. *)
Definition combine_values (config : val) (key : string)
    (keys : list (list string)) (_param_names : list string)
    (values : list val) : M val :=
  let! _config := deepcopy config in
  delitem _config key ;;;
  ensure_params _config ;;;
  insert_values _config 0 keys values ;;;
  extend_config_name _config _param_names values.

(** [params_combine(config, key, iter_func)] *)
Definition params_combine (config : val) (key : option string)
    (f : option iter_func) : M (list val) :=
  match f with
  | None => ret [config]
  | Some iter =>
      match key with
      | None => raise (KeyError "None")
      | Some key =>
          let! sweep := getitem config key in
          let! td := flatten_dict_to_tuple_keys sweep in
          let _param_names := map (String.concat ".") (map fst td) in
          let! lists := forM load_list (map snd td) in
          (if String.eqb key KEY.LIST
              && negb (Nat.eqb
                         (length (nodup Nat.eq_dec
                                    (map (@length val) lists))) 1)
           then let! name := getitem config KEY.NAME in
                match name with
                | VStr n => warn (warning_for (Some n))
                | _ => warn (warning_for None)
                end
           else ret tt) ;;;
          forM (combine_values config key (map fst td) _param_names)
               (iterate iter lists)
      end
  end.

(** The body of the inner loops of [ablative_expand]. *)
Definition ablative_variant (config : val) (key : list string) (v : val)
  : M val :=
  let! _config := deepcopy config in
  ensure_params _config ;;;
  insert_param _config key v ;;;
  extend_config_name _config (string_chars (String.concat "." key)) [v].

(** [ablative_expand(conf_list)] *)
Definition ablative_expand (conf_list : list val) : M (list val) :=
  let! per_config :=
    forM (fun config =>
            let! sweep := getitem config KEY.ABLATIVE in
            let! td := flatten_dict_to_tuple_keys sweep in
            let! per_key :=
              forM (fun kv =>
                      let! vals := load_list (snd kv) in
                      forM (ablative_variant config (fst kv)) vals)
                   td in
            ret (concat per_key))
         conf_list in
  ret (concat per_config).

(** The default values [expand_experiments] sets on a template. *)
Definition set_defaults (config : val) : M unit :=
  let! based := contains config KEY.i_BASIC_PATH in
  (if based then ret tt
   else let! p := getitem config KEY.PATH in
        setitem config KEY.i_BASIC_PATH p) ;;;
  let! named := contains config KEY.i_EXP_NAME in
  (if named then ret tt
   else let! n := getitem config KEY.NAME in
        setitem config KEY.i_EXP_NAME n) ;;;
  let! nested := contains config KEY.i_NEST_DIR in
  if nested then ret tt else setitem config KEY.i_NEST_DIR (VStr "").

(** [normalize_expanded_paths(expanded_config_list)]: every record gets
    its path fields, in place. *)
Definition normalize_expanded_paths (expanded : list val) : M (list val) :=
  forM (fun _config =>
          let! items := load_dict _config in
          forM (fun ks => setitem _config (fst ks) (VStr (snd ks)))
               (path_fields items) ;;;
          ret _config)
       expanded.

(** The loop of [expand_experiments]: [i] is the position the [for] has
    reached in the list object [experiment_configs]. *)
Fixpoint expand_loop (budget : nat) (experiment_configs : val) (i : nat)
    (expanded_config_list : list val) : M (list val) :=
  let! items := load_list experiment_configs in
  match items !! i with
  | None => ret expanded_config_list
  | Some config =>
      match budget with
      | O => raise OutOfFuel
      | S budget' =>
          set_defaults config ;;;
          let! grid := contains config KEY.GRID in
          let! list := contains config KEY.LIST in
          if grid && list then
            let! combined := params_combine config (Some KEY.LIST) (Some zip) in
            extend experiment_configs combined ;;;
            expand_loop budget' experiment_configs (S i) expanded_config_list
          else
            let sel := (None, None) in
            let sel := if grid then (Some KEY.GRID, Some product) else sel in
            let sel := if list then (Some KEY.LIST, Some zip) else sel in
            let! expansion := params_combine config (fst sel) (snd sel) in
            let! ablative := contains config KEY.ABLATIVE in
            let! expansion :=
              (if ablative
               then let! ab := ablative_expand expansion in ret (expansion ++ ab)
               else ret expansion) in
            expand_loop budget' experiment_configs (S i)
                        (expanded_config_list ++ expansion)
      end
  end.

(** [expand_experiments(_experiment_configs)] *)
Definition expand_experiments (_experiment_configs : val) : M (list val) :=
  let! experiment_configs := deepcopy _experiment_configs in
  let! expanded_config_list := expand_loop fuel experiment_configs 0 [] in
  normalize_expanded_paths expanded_config_list.

(** The body of the loop of [unroll_exp_reps] for one repetition. *)
Definition unroll_rep (config : val) (r : nat) : M val :=
  let! c := deepcopy config in
  setitem c KEY.i_REP_IDX (VInt (Z.of_nat r)) ;;;
  let! log_path := getitem c KEY.LOG_PATH in
  match log_path with
  | VStr p =>
      setitem c KEY.i_REP_LOG_PATH
              (VStr (path_join p ("rep_" +:+ format_02d r))) ;;;
      ret c
  | _ => raise TypeError
  end.

(** [unroll_exp_reps(exp_configs)] *)
Definition unroll_exp_reps (exp_configs : list val) : M (list val) :=
  let! per_config :=
    forM (fun config =>
            let! unrolled := contains config KEY.i_REP_IDX in
            if unrolled then ret [config]
            else
              let! reps := getitem config KEY.REPS in
              match reps with
              | VInt n => forM (unroll_rep config) (seq 0 (Z.to_nat n))
              | _ => raise TypeError
              end)
         exp_configs in
  ret (concat per_config).

(** [unfold_exps(exp_configs)] *)
Definition unfold_exps (exp_configs : val) : M (list val) :=
  let! param_expansion := expand_experiments exp_configs in
  unroll_exp_reps param_expansion.

End Unfolder.

(* ----------------------------------------------------------------- *)
(** *** Between the store and the values of the value model *)

(** The path normalizer used where a run is evaluated: the one of the
    value model. *)
Definition text_of (k : string) (items : list (string * val)) : string :=
  match dget k items with Some (VStr s) => s | _ => "" end.

Definition path_fields_model (items : list (string * val))
  : list (string * string) :=
  let p := path_join (path_join (text_of KEY.i_BASIC_PATH items)
                                (text_of KEY.i_NEST_DIR items))
                     (text_of KEY.i_EXP_NAME items) in
  [(KEY.PATH, p); (KEY.LOG_PATH, path_join p "log")].

End Store.

(** Build a value in the store: every list and dict becomes an object of
    its own. *)
Fixpoint inject (v : value) : Store.M Store.val :=
  match v with
  | VNone => Store.ret Store.VNone
  | VInt z => Store.ret (Store.VInt z)
  | VStr s => Store.ret (Store.VStr s)
  | VList l =>
      Store.bindM (Store.forM inject l)
                  (fun items => Store.alloc (Store.OList items))
  | VDict d =>
      Store.bindM
        ((fix entries (d : list (string * value))
            : Store.M (list (string * Store.val)) :=
            match d with
            | [] => Store.ret []
            | (k, x) :: d' =>
                Store.bindM (inject x) (fun y =>
                Store.bindM (entries d') (fun rest =>
                Store.ret ((k, y) :: rest)))
            end) d)
        (fun items => Store.alloc (Store.ODict items))
  end.

(** Read a value back from the store, to the given depth. *)
Fixpoint extract (depth : nat) (h : list Store.obj) (v : Store.val) : value :=
  match v with
  | Store.VNone => VNone
  | Store.VInt z => VInt z
  | Store.VStr s => VStr s
  | Store.VRef l =>
      match depth with
      | O => VNone
      | S depth' =>
          match h !! l with
          | Some (Store.ODict items) =>
              VDict (map (fun kv => (fst kv, extract depth' h (snd kv))) items)
          | Some (Store.OList items) => VList (map (extract depth' h) items)
          | None => VNone
          end
      end
  end.

(** The name helper used where a run is evaluated: the one of the value
    model, on the values read from the store. *)
Definition convert_param_names_store (names : list string)
    (values : list Store.val) (h : list Store.obj) : string :=
  convert_param_names_model names (map (extract (length h) h) values).

(* ================================================================= *)
(** ** The Slurm script writer ([cw2/cw_slurm.py]) *)

(** [_finalize_slurm_config] completes the Slurm section of the
    configuration and [create_slurm_script] fills the markers of a
    template, line by line, into the batch script.  Both work on the
    configuration object they are given, on the file system and on what
    the process was started with; these make up the state the functions
    transform. *)
Module Slurm.

(** The exceptions the two functions can raise; [OSError] stands for the
    errors of the operating system ([FileNotFoundError], a device that is
    full, and the like), [UnicodeError] for [UnicodeDecodeError] and
    [UnicodeEncodeError].  [OutOfFuel] is no exception of Python: the
    [while] loop of [create_slurm_script] is run with a budget of
    iterations, and [OutOfFuel] is what a loop that has used its budget
    ends in; the budget given is never used up ([SlurmFacts.create_ends]
    below). *)
Inductive exn : Type :=
| KeyError (k : string)
| IndexError
| TypeError
| ValueError
| AttributeError
| OSError
| UnicodeError
| OutOfFuel.

Inductive outcome (A : Type) : Type :=
| Ret (a : A)
| Raise (e : exn).
Arguments Ret {A} a.
Arguments Raise {A} e.

(** What the functions use of [config.Config], a class that is not among
    the sources: the attributes [slurm_config] (a mapping that is read by
    key and by attribute), [exp_configs] and [config_path]. *)
Record Config : Type := {
  slurm_config : dict;
  exp_configs : list dict;
  config_path : string
}.

(** What text mode reads of a file: a text, or, for a file whose bytes do
    not all decode, the text [s] a reader gets before the error: it gets
    the lines of [s] and then, in place of the end of the file, a
    [UnicodeDecodeError].  How far the file object reads ahead, and so
    where the error comes, is part of [s]. *)
Inductive content : Type :=
| Text (s : string)
| Garbled (s : string).

Definition decoded (c : content) : string :=
  match c with
  | Text s => s
  | Garbled s => s
  end.

Definition garbled (c : content) : bool :=
  match c with
  | Text _ => false
  | Garbled _ => true
  end.

(** The state.  [conf] is the object the caller passes: the functions
    update its [slurm_config] in place.  [experiments] is
    [cli_parser.Arguments().get().experiments], [main_file] is
    [__main__.__file__].  [files] maps a path to what the device holds of
    the file, as text mode reads and writes it; [permitted] says for
    which paths the operating system lets the process create a directory
    or open a file for writing, [room] how many characters the device can
    hold of the file at a path, [encodes] which texts the encoding of the
    locale can write, and [buffer_size] how many characters a file object
    keeps back before it hands them to the device. *)
Record world : Type := {
  conf : Config;
  cwd : string;
  experiments : option (list string);
  main_file : string;
  sys_path : list string;
  permitted : string -> bool;
  room : string -> nat;
  encodes : string -> bool;
  buffer_size : nat;
  files : list (string * content);
  dirs : list string;
  stdout : list (list string)
}.

(** An open file that is read: its path and the number of lines read.
    An open file that is written: its path and the text written to it
    that the device has not got yet. *)
Record reader : Type := { r_path : string; r_pos : nat }.

Record writer : Type := { w_path : string; w_pending : string }.

Definition M (A : Type) : Type := world -> outcome A * world.

Definition ret {A : Type} (a : A) : M A := fun w => (Ret a, w).

Definition raise {A : Type} (e : exn) : M A := fun w => (Raise e, w).

Definition bindM {A B : Type} (m : M A) (f : A -> M B) : M B :=
  fun w =>
    match m w with
    | (Ret a, w') => f a w'
    | (Raise e, w') => (Raise e, w')
    end.

Notation "'let!' x := m 'in' k" := (bindM m (fun x => k))
  (at level 10, x name, m at level 100, k at level 200).
Notation "m ;;; k" := (bindM m (fun _ => k))
  (at level 100, k at level 200, right associativity).

Definition lift {A : Type} (o : outcome A) : M A := fun w => (o, w).

(* ----------------------------------------------------------------- *)
(** *** The configuration object, the process, the file system *)

Definition with_slurm_config (sc : dict) (w : world) : world :=
  {| conf := {| slurm_config := sc;
                exp_configs := exp_configs (conf w);
                config_path := config_path (conf w) |};
     cwd := cwd w; experiments := experiments w; main_file := main_file w;
     sys_path := sys_path w; permitted := permitted w; room := room w;
     encodes := encodes w; buffer_size := buffer_size w;
     files := files w; dirs := dirs w; stdout := stdout w |}.

Definition with_files (fs : list (string * content)) (w : world) : world :=
  {| conf := conf w;
     cwd := cwd w; experiments := experiments w; main_file := main_file w;
     sys_path := sys_path w; permitted := permitted w; room := room w;
     encodes := encodes w; buffer_size := buffer_size w;
     files := fs; dirs := dirs w; stdout := stdout w |}.

Definition with_dirs (ds : list string) (w : world) : world :=
  {| conf := conf w;
     cwd := cwd w; experiments := experiments w; main_file := main_file w;
     sys_path := sys_path w; permitted := permitted w; room := room w;
     encodes := encodes w; buffer_size := buffer_size w;
     files := files w; dirs := ds; stdout := stdout w |}.

Definition with_stdout (out : list (list string)) (w : world) : world :=
  {| conf := conf w;
     cwd := cwd w; experiments := experiments w; main_file := main_file w;
     sys_path := sys_path w; permitted := permitted w; room := room w;
     encodes := encodes w; buffer_size := buffer_size w;
     files := files w; dirs := dirs w; stdout := out |}.

(** [k in sc] *)
Definition sc_contains (k : string) : M bool :=
  fun w => (Ret (dmem k (slurm_config (conf w))), w).

(** [sc[k]] *)
Definition sc_get (k : string) : M value :=
  fun w =>
    match dget k (slurm_config (conf w)) with
    | Some v => (Ret v, w)
    | None => (Raise (KeyError k), w)
    end.

(** [sc[k] = v] *)
Definition sc_set (k : string) (v : value) : M unit :=
  fun w => (Ret tt, with_slurm_config (dset k v (slurm_config (conf w))) w).

(** [conf.slurm_config.k]: reading a key as an attribute raises
    [AttributeError] when the key is missing. *)
Definition sc_attr (k : string) : M value :=
  fun w =>
    match dget k (slurm_config (conf w)) with
    | Some v => (Ret v, w)
    | None => (Raise AttributeError, w)
    end.

(** [conf.exp_configs[0]['_experiment_path']] *)
Definition experiment_path : M value :=
  fun w =>
    match exp_configs (conf w) with
    | [] => (Raise IndexError, w)
    | c :: _ =>
        match dget "_experiment_path" c with
        | Some v => (Ret v, w)
        | None => (Raise (KeyError "_experiment_path"), w)
        end
    end.

(** The path of the first experiment, when there is one and it is a
    string. *)
Definition first_experiment_path (w : world) : option string :=
  match exp_configs (conf w) with
  | c :: _ =>
      match dget "_experiment_path" c with
      | Some (VStr ep) => Some ep
      | _ => None
      end
  | [] => None
  end.

(** [os.path.join(a, b)] for a value [a] and a string [b] *)
Definition os_path_join (a : value) (b : string) : M value :=
  match a with
  | VStr p => ret (VStr (path_join p b))
  | _ => raise TypeError
  end.

(** The state after [os.makedirs(p, exist_ok=True)] has made [p]. *)
Definition made (p : string) (w : world) : world :=
  if existsb (String.eqb p) (dirs w) then w else with_dirs (dirs w ++ [p]) w.

(** [os.makedirs(p, exist_ok=True)]: a directory that exists is no
    error; a file of that name, the empty path and a refusal of the
    operating system are. *)
Definition makedirs (p : value) : M unit :=
  match p with
  | VStr p =>
      fun w =>
        if Nat.eqb (String.length p) 0 || dmem p (files w)
           || negb (permitted w p)
        then (Raise OSError, w)
        else (Ret tt, made p w)
  | _ => raise TypeError
  end.

(** [open(p, 'r')]: the file must exist; nothing is read yet.  File
    descriptors are not modelled: a number is refused like the other
    values that are no string. *)
Definition open_read (p : value) : M reader :=
  match p with
  | VStr p =>
      fun w =>
        if dmem p (files w) then (Ret {| r_path := p; r_pos := 0 |}, w)
        else (Raise OSError, w)
  | _ => raise TypeError
  end.

(** [open(p, 'w')]: the file is created, or emptied when it exists. *)
Definition open_write (p : value) : M writer :=
  match p with
  | VStr p =>
      fun w =>
        if permitted w p && negb (existsb (String.eqb p) (dirs w))
        then (Ret {| w_path := p; w_pending := "" |},
              with_files (dset p (Text "") (files w)) w)
        else (Raise OSError, w)
  | _ => raise TypeError
  end.

(** The lines [readline] returns in turn: each ends with its newline,
    but for a last line that has none. *)
Fixpoint readlines (s : string) : list string :=
  match s with
  | EmptyString => []
  | String c s' =>
      if Ascii.eqb c "010"%char then String c EmptyString :: readlines s'
      else match readlines s' with
           | [] => [String c EmptyString]
           | l :: ls => String c l :: ls
           end
  end.

(** What the device holds of the file at [p]; a file that is not there
    has nothing to read. *)
Definition content_at (p : string) (w : world) : content :=
  match dget p (files w) with
  | Some c => c
  | None => Text ""
  end.

(** [fid.readline()]: the next line of the file as it is at the call,
    and the file object moved behind it; the empty string at the end of
    the file; [UnicodeDecodeError] where the file decodes no further. *)
Definition readline (fid : reader) : M (string * reader) :=
  fun w =>
    let c := content_at (r_path fid) w in
    match readlines (decoded c) !! r_pos fid with
    | Some tline =>
        (Ret (tline, {| r_path := r_path fid; r_pos := S (r_pos fid) |}), w)
    | None =>
        if garbled c then (Raise UnicodeError, w) else (Ret ("", fid), w)
    end.

(** The file object hands what it has kept back to the device.  With
    nothing kept back the device is not asked; a device that has no room
    for all of it takes what it has room for, and the error of the
    operating system is raised. *)
Definition flush (fid : writer) : M writer :=
  fun w =>
    match w_pending fid with
    | EmptyString => (Ret fid, w)
    | String _ _ =>
        let text := decoded (content_at (w_path fid) w) +:+ w_pending fid in
        if Nat.leb (String.length text) (room w (w_path fid))
        then (Ret {| w_path := w_path fid; w_pending := "" |},
              with_files (dset (w_path fid) (Text text) (files w)) w)
        else (Raise OSError,
              with_files
                (dset (w_path fid)
                      (Text (substring 0 (room w (w_path fid)) text))
                      (files w)) w)
    end.

(** [fid.write(tline)]: the line is encoded, which raises
    [UnicodeEncodeError] for a line the encoding has no bytes for, and
    kept back; once more is kept back than the buffer holds, it is handed
    to the device. *)
Definition write (fid : writer) (tline : string) : M writer :=
  fun w =>
    if encodes w tline
    then
      let fid := {| w_path := w_path fid;
                    w_pending := w_pending fid +:+ tline |} in
      if Nat.leb (String.length (w_pending fid)) (buffer_size w)
      then (Ret fid, w)
      else flush fid w
    else (Raise UnicodeError, w).

(** [fid.close()] of a file that is read, and of a file that is written:
    what is kept back goes to the device. *)
Definition close_read (fid : reader) : M unit := ret tt.

Definition close_write (fid : writer) : M unit :=
  flush fid ;;; ret tt.

(** [print(sys.path)] *)
Definition print_sys_path : M unit :=
  fun w => (Ret tt, with_stdout (stdout w ++ [sys_path w]) w).

(* ----------------------------------------------------------------- *)
(** *** Strings *)

(** [s.replace(old, new)] for a non-empty [old]: the occurrences of [old]
    are replaced from left to right, and the search goes on behind each.
    [skip] counts the characters of an occurrence still to pass. *)
Fixpoint replace_from (old new : string) (skip : nat) (s : string) : string :=
  match s with
  | EmptyString => EmptyString
  | String c s' =>
      match skip with
      | S k => replace_from old new k s'
      | O =>
          if String.prefix old s
          then new +:+ replace_from old new (String.length old - 1) s'
          else String c (replace_from old new 0 s')
      end
  end.

(** [s.replace(old, new)]; for the empty [old], [new] goes before every
    character and at the end. *)
Definition str_replace (old new s : string) : string :=
  match old with
  | EmptyString =>
      new +:+ String.concat "" (map (fun c => c +:+ new) (string_chars s))
  | String _ _ => replace_from old new 0 s
  end.

(** ['{:d}'.format(z)] *)
Definition format_d (z : Z) : string :=
  if (z <? 0)%Z
  then "-" +:+ NilZero.string_of_uint (N.to_uint (Z.to_N (- z)))
  else NilZero.string_of_uint (N.to_uint (Z.to_N z)).

Definition bindO {A B : Type} (o : outcome A) (f : A -> outcome B)
  : outcome B :=
  match o with
  | Ret a => f a
  | Raise e => Raise e
  end.

(** [tline.replace(marker, sc[k])]: the key must be there, and a string. *)
Definition fill_str (sc : dict) (marker k : string) (tline : string)
  : outcome string :=
  match dget k sc with
  | None => Raise (KeyError k)
  | Some (VStr s) => Ret (str_replace marker s tline)
  | Some _ => Raise TypeError
  end.

(** [tline.replace(marker, '{:d}'.format(sc[k]))]: the format [d] takes a
    number; it raises [ValueError] for a string and [TypeError] for the
    other values. *)
Definition fill_int (sc : dict) (marker k : string) (tline : string)
  : outcome string :=
  match dget k sc with
  | None => Raise (KeyError k)
  | Some (VInt z) => Ret (str_replace marker (format_d z) tline)
  | Some (VStr _) => Raise ValueError
  | Some _ => Raise TypeError
  end.

(** ['{:d}:{:d}:00'.format(sc['time_limit'] // 60, sc['time_limit'] % 60)] *)
Definition fill_time_limit (sc : dict) (tline : string) : outcome string :=
  match dget "time_limit" sc with
  | None => Raise (KeyError "time_limit")
  | Some (VInt t) =>
      Ret (str_replace "%%time_limit%%"
             (format_d (t / 60) +:+ ":" +:+ format_d (t mod 60) +:+ ":00")
             tline)
  | Some _ => Raise TypeError
  end.

(** The body of the loop of [create_slurm_script], up to the write: the
    markers are filled one after the other, in this order. *)
Definition fill_line (sc : dict) (config_path experiment_code : string)
    (tline : string) : outcome string :=
  bindO (fill_str sc "%%project_name%%" "project_name" tline) (fun tline =>
  bindO (fill_str sc "%%experiment_name%%" "experiment_name" tline) (fun tline =>
  bindO (fill_time_limit sc tline) (fun tline =>
  bindO (fill_str sc "%%experiment_cwd%%" "experiment_cwd" tline) (fun tline =>
  bindO (fill_str sc "%%experiment_log%%" "experiment_log" tline) (fun tline =>
  let tline := str_replace "%%python_script%%" experiment_code tline in
  bindO (fill_str sc "%%exp_name%%" "experiment_selectors" tline) (fun tline =>
  let tline := str_replace "%%path_to_yaml_config%%" config_path tline in
  bindO (fill_int sc "%%num_jobs%%" "num_jobs" tline) (fun tline =>
  bindO (fill_int sc "%%num_parallel_jobs%%" "num_parallel_jobs" tline) (fun tline =>
  bindO (fill_int sc "%%mem%%" "mem" tline) (fun tline =>
  bindO (fill_int sc "%%number_of_jobs%%" "number_of_jobs" tline) (fun tline =>
  fill_int sc "%%number_of_cpu_per_job%%" "number_of_cpu_per_job" tline)))))))))).

(* ----------------------------------------------------------------- *)
(** *** The two functions *)

(** ["-e " + " ".join(cw_options.experiments)], or the empty string. *)
Definition selectors (es : option (list string)) : string :=
  match es with
  | Some l => "-e " +:+ String.concat " " l
  | None => ""
  end.

(** [_finalize_slurm_config(conf, num_jobs)] *)
Definition _finalize_slurm_config (num_jobs : Z) : M dict :=
  sc_set "num_jobs" (VInt (num_jobs - 1)) ;;;
  let! has_cwd := sc_contains "experiment_cwd" in
  (if has_cwd then ret tt
   else fun w => sc_set "experiment_cwd" (VStr (cwd w)) w) ;;;
  let! has_log := sc_contains "experiment_log" in
  (if has_log then ret tt
   else let! p := experiment_path in
        let! log := os_path_join p "log" in
        sc_set "experiment_log" log) ;;;
  let! has_out := sc_contains "slurm_ouput" in
  (if has_out then ret tt
   else let! p := experiment_path in
        let! out := os_path_join p "sbatch.sh" in
        sc_set "slurm_out" out) ;;;
  let! log := sc_get "experiment_log" in
  makedirs log ;;;
  sc_set "experiment_selectors" (VStr "") ;;;
  (fun w =>
     match experiments w with
     | Some _ =>
         sc_set "experiment_selectors" (VStr (selectors (experiments w))) w
     | None => (Ret tt, w)
     end) ;;;
  print_sys_path ;;;
  fun w => (Ret (slurm_config (conf w)), w).

(** The body of the loop of [create_slurm_script], up to the next
    [readline]: the line is filled and written. *)
Definition fill_and_write (sc : dict) (fid_out : writer) (tline : string)
  : M writer :=
  let! tline :=
    (fun w => (fill_line sc (config_path (conf w)) (main_file w) tline, w)) in
  write fid_out tline.

(** [while tline: ...; fid_out.write(tline); tline = fid_in.readline()],
    for at most [fuel] iterations; the file object written to is
    returned as the loop leaves it. *)
Fixpoint while_tline (fuel : nat) (sc : dict) (fid_in : reader)
    (fid_out : writer) (tline : string) : M writer :=
  match tline with
  | EmptyString => ret fid_out
  | String _ _ =>
      match fuel with
      | O => raise OutOfFuel
      | S fuel =>
          let! fid_out := fill_and_write sc fid_out tline in
          let! r := readline fid_in in
          while_tline fuel sc (snd r) fid_out (fst r)
      end
  end.

(** The number of lines of the file at [p]: the budget of the loop, which
    reads one line in each iteration. *)
Definition lines_at (p : string) (w : world) : nat :=
  length (readlines (decoded (content_at p w))).

(** [create_slurm_script(conf, num_jobs)].  The path returned is the one
    the script was opened with. *)
Definition create_slurm_script (num_jobs : Z) : M string :=
  let! sc := _finalize_slurm_config num_jobs in
  let! template_path := sc_attr "path_to_template" in
  let! output_path :=
    lift (match dget "slurm_out" sc with
          | Some v => Ret v
          | None => Raise (KeyError "slurm_out")
          end) in
  let! fid_in := open_read template_path in
  let! fid_out := open_write output_path in
  let! r := readline fid_in in
  let! fid_out' :=
    (fun w => while_tline (lines_at (r_path fid_in) w) sc (snd r) fid_out
                          (fst r) w) in
  close_read (snd r) ;;;
  close_write fid_out' ;;;
  ret (w_path fid_out).

(* ----------------------------------------------------------------- *)
(** *** The vocabulary of the statements *)

(** The text of the file at [p], if there is one and it is a text. *)
Definition text_at (p : string) (w : world) : option string :=
  match dget p (files w) with
  | Some (Text s) => Some s
  | _ => None
  end.

(** [w'] differs from [w] in its files at most. *)
Definition same_but_files (w w' : world) : Prop :=
  conf w' = conf w /\ cwd w' = cwd w /\ experiments w' = experiments w /\
  main_file w' = main_file w /\ sys_path w' = sys_path w /\
  permitted w' = permitted w /\ room w' = room w /\
  encodes w' = encodes w /\ buffer_size w' = buffer_size w /\
  dirs w' = dirs w /\ stdout w' = stdout w.

(** The lines the loop of [create_slurm_script] has still to fill when
    it holds the line [tline] and has read [fid_in] so far. *)
Definition to_fill (fid_in : reader) (tline : string) (w : world)
  : list string :=
  match tline with
  | EmptyString => []
  | String _ _ =>
      tline :: drop (r_pos fid_in)
                    (readlines (decoded (content_at (r_path fid_in) w)))
  end.

(** A computation that changes, of the state, the file at [op] at
    most. *)
Definition writes_only {A : Type} (op : string) (m : M A) : Prop :=
  forall w,
    same_but_files w (snd (m w)) /\
    forall q, q <> op -> dget q (files (snd (m w))) = dget q (files w).

(** A computation all of whose exceptions satisfy [P]. *)
Definition raises_only {A : Type} (P : exn -> Prop) (m : M A) : Prop :=
  forall w e w', m w = (Raise e, w') -> P e.

(** The exceptions of reading and writing. *)
Definition io_error (e : exn) : bool :=
  match e with
  | OSError | UnicodeError => true
  | _ => false
  end.


End Slurm.

(* ================================================================= *)
(** ** The vocabulary of the statements *)

(** Two key-paths diverge when they differ at some position both have:
    neither is a prefix of the other. *)
Inductive diverge : keypath -> keypath -> Prop :=
| diverge_head (x y : string) (a b : keypath) :
    x <> y -> diverge (x :: a) (y :: b)
| diverge_tail (x : string) (a b : keypath) :
    diverge a b -> diverge (x :: a) (x :: b).

(** [strict_prefix a b]: [b] continues [a] by at least one key. *)
Fixpoint strict_prefix (a b : keypath) : bool :=
  match a, b with
  | [], _ :: _ => true
  | x :: a', y :: b' => String.eqb x y && strict_prefix a' b'
  | _, [] => false
  end.

(** [insertable d t]: every level of [d] that exists on the way to the
    leaf of [t] is a mapping. *)
Fixpoint insertable (d : dict) (t : keypath) : bool :=
  match t with
  | [] => false
  | k :: t' =>
      match t' with
      | [] => true
      | _ :: _ =>
          match dget k d with
          | None => true
          | Some (VDict sub) => insertable sub t'
          | Some _ => false
          end
      end
  end.

(** The product [n1 * ... * nk]. *)
Definition prod_list (l : list nat) : nat := fold_right Nat.mul 1 l.

(** The least element; [0] for no element, as [zip()] is empty. *)
Fixpoint min_list (l : list nat) : nat :=
  match l with
  | [] => 0
  | n :: l' =>
      match l' with
      | [] => n
      | _ :: _ => Nat.min n (min_list l')
      end
  end.

(** Position [j] of the index [i] in the mixed radix [dims], the first
    position being the most significant. *)
Fixpoint digit (dims : list nat) (i j : nat) : nat :=
  match dims with
  | [] => 0
  | _ :: dims' =>
      match j with
      | O => i / prod_list dims'
      | S j' => digit dims' (i mod prod_list dims') j'
      end
  end.

(** A result of the program itself: a value or a Python exception, not
    the exhaustion of the budget of the model. *)
Definition genuine {A : Type} (m : result A) : Prop := m <> Err OutOfFuel.

(** The value a record binds a key-path to. *)
Definition record_param (r : dict) (kp : keypath) : option value :=
  match dget KEY.PARAMS r with
  | Some (VDict p) => get_deep p kp
  | _ => None
  end.

(** The key-path can be inserted into the [params] of the record (a
    record without [params] gets an empty mapping first). *)
Definition record_insertable (r : dict) (kp : keypath) : bool :=
  match dget KEY.PARAMS r with
  | None => insertable [] kp
  | Some (VDict p) => insertable p kp
  | Some _ => false
  end.

(** A template as the user writes it: a [name] that is a string, a [path],
    and none of the bookkeeping fields the unfolder sets. *)
Definition is_template (t : dict) : Prop :=
  (exists name, dget KEY.NAME t = Some (VStr name)) /\
  dmem KEY.PATH t = true /\
  dmem KEY.i_BASIC_PATH t = false /\
  dmem KEY.i_EXP_NAME t = false /\
  dmem KEY.i_NEST_DIR t = false.

(** The candidate-list lengths [n1..nk] of a flattened directive. *)
Definition lengths (td : tuple_dict) : list nat :=
  map (fun kv => length (snd kv)) td.

(** The tuple of values a record binds the key-paths of [td] to. *)
Definition bound_tuple (td : tuple_dict) (r : dict) : list (option value) :=
  map (record_param r) (map fst td).

Section Vocabulary.

Context `{Collaborators}.

(** The separator [extend_config_name] chooses. *)
Definition separator (exp_name : string) : string :=
  if str_contains "__" exp_name then "_" else "__".

(** What [params_combine] makes of [config] for the tuple [values] of the
    directive [key], whose flattened mapping is [td]. *)
Definition combined (config : dict) (key : string) (td : tuple_dict)
    (values : list value) (r : dict) : Prop :=
  dget key r = None /\
  (forall k, k <> key -> k <> KEY.PARAMS -> k <> KEY.i_EXP_NAME ->
             k <> KEY.i_NEST_DIR -> dget k r = dget k config) /\
  (exists s, dget KEY.i_EXP_NAME r = Some (VStr s)) /\
  dget KEY.i_NEST_DIR r = dget KEY.NAME config /\
  dmem KEY.PARAMS r = true /\
  (forall j kp, map fst td !! j = Some kp -> record_param r kp = values !! j) /\
  (forall t', Forall (fun a => diverge a t') (map fst td) ->
              record_param r t' = record_param config t') /\
  (forall t', record_insertable config t' = true ->
              Forall (fun a => strict_prefix a t' = false) (map fst td) ->
              record_insertable r t' = true).

(** The two directives the combination engine works on. *)
Definition is_sweep_key (key : string) : Prop :=
  key = KEY.GRID \/ key = KEY.LIST.

(** The warnings [params_combine] logs for a directive. *)
Definition combine_warnings (key : string) (td : tuple_dict) (name : value)
  : list warning :=
  if String.eqb key KEY.LIST && lengths_differ td
  then [ListParamsNotOfEqualLength name] else [].

(** The keys of a record made by [params_combine]: the directive is
    deleted, the name fields are set, and the keys the engine does not
    work on are those of the template. *)
Definition combined_keys (config : dict) (key : string) (r : dict) : Prop :=
  dget key r = None /\
  (exists s, dget KEY.i_EXP_NAME r = Some (VStr s)) /\
  dmem KEY.i_NEST_DIR r = true /\
  forall k, k <> key -> k <> KEY.PARAMS -> k <> KEY.i_EXP_NAME ->
            k <> KEY.i_NEST_DIR -> dget k r = dget k config.

(** A record the list stage put back on the work list: a grid-only
    template that carries its bookkeeping fields. *)
Definition requeued (G : value) (r : dict) : Prop :=
  set_defaults r = OK r /\
  dmem KEY.LIST r = false /\
  dmem KEY.ABLATIVE r = false /\
  dget KEY.GRID r = Some G.

(** The (key-path, value) pairs of a flattened ablative directive, in the
    order of the two inner loops of [ablative_expand]. *)
Definition factor_values (td : list (list string * list value))
  : list (list string * value) :=
  flat_map (fun kv => map (pair (fst kv)) (snd kv)) td.

(** [r'] is [r] with the value [v] at the key-path [kp] of its [params]:
    it binds [kp] to [v], binds every key-path that diverges from [kp] as
    [r] does, and differs from [r] in no key but [params] and the two name
    fields. *)
Definition ablated (r : dict) (kp : list string) (v : value) (r' : dict)
  : Prop :=
  record_param r' kp = Some v /\
  (forall t', diverge kp t' -> record_param r' t' = record_param r t') /\
  (forall k, k <> KEY.PARAMS -> k <> KEY.i_EXP_NAME -> k <> KEY.i_NEST_DIR ->
             dget k r' = dget k r).

(** The record has neither a [grid] nor a [list] key. *)
Definition swept (r : dict) : Prop :=
  dmem KEY.GRID r = false /\ dmem KEY.LIST r = false.

(** The record has the value of some template of [ts] under [k]. *)
Definition inherits (k : string) (ts : list dict) (r : dict) : Prop :=
  exists t, In t ts /\ dget k r = dget k t.

End Vocabulary.

(** The vocabulary of the statements about the store. *)
Module StoreSpec.

Import Store.

(** A value that is an atom, or a reference to an object allocated when
    the store had at least [n] objects. *)
Definition fresh (n : nat) (v : val) : Prop :=
  match v with
  | VRef l => n <= l
  | _ => True
  end.

(** An object that holds such values only. *)
Definition fresh_obj (n : nat) (o : obj) : Prop :=
  match o with
  | ODict items => Forall (fun kv => fresh n (snd kv)) items
  | OList items => Forall (fresh n) items
  end.

(** The objects allocated from [n] on refer to such objects only. *)
Definition closed (n : nat) (h : list obj) : Prop :=
  forall l o, n <= l -> h !! l = Some o -> fresh_obj n o.

(** The store [h'] has the objects of [h] below [n], unchanged. *)
Definition frame (n : nat) (h h' : list obj) : Prop :=
  length h <= length h' /\ forall l, l < n -> h' !! l = h !! l.

(** [m] writes to objects allocated from [n] on only, keeps the new part
    of the store closed, and returns a result that satisfies [P]. *)
Definition safe {A : Type} (n : nat) (P : A -> Prop) (m : M A) : Prop :=
  forall s,
    n <= length (objects s) -> closed n (objects s) ->
    frame n (objects s) (objects (snd (m s))) /\
    closed n (objects (snd (m s))) /\
    match fst (m s) with
    | OK a => P a
    | Err _ => True
    end.

(** The entries of a mapping hold such values only. *)
Definition fresh_items (n : nat) (items : list (string * val)) : Prop :=
  Forall (fun kv => fresh n (snd kv)) items.

(** The copies a memo of [deepcopy] records are such objects. *)
Definition memo_fresh (n : nat) (memo : list (nat * nat)) : Prop :=
  Forall (fun p => n <= snd p) memo.

(** The loop of [deepcopy] over the items of a list, by name. *)
Definition copy_values (depth : nat)
  : list val -> list (nat * nat) -> M (list val * list (nat * nat)) :=
  fix copy_values (vs : list val) (memo : list (nat * nat)) :=
    match vs with
    | [] => ret ([], memo)
    | x :: vs' =>
        let! xm := deepcopy_memo depth x memo in
        let! vsm := copy_values vs' (snd xm) in
        ret (fst xm :: fst vsm, snd vsm)
    end.

(** The leaves of a flattened mapping are such values. *)
Definition fresh_leaves (n : nat) (td : list (list string * val)) : Prop :=
  Forall (fun kv => fresh n (snd kv)) td.

(** The loop of [flatten] over the entries of a mapping, by name. *)
Definition flatten_entries (depth : nat)
  : list (string * val) -> M (list (list string * val)) :=
  fix entries (items : list (string * val)) :=
    match items with
    | [] => ret []
    | (k, v) :: items' =>
        let! o := load v in
        match o with
        | ODict _ =>
            let! sub := flatten depth v in
            let! rest := entries items' in
            ret (map (fun kv => (k :: fst kv, snd kv)) sub ++ rest)
        | OList _ =>
            let! rest := entries items' in
            ret (([k], v) :: rest)
        end
    end.

End StoreSpec.

(* ----------------------------------------------------------------- *)
(** *** Further vocabulary: repetitions, stages, the user's keys *)

(** The record carries a repetition index. *)
Definition indexed (c : dict) : Prop := dmem KEY.i_REP_IDX c = true.

(** The number of records [unroll_exp_reps] emits for a record: one for a
    record that carries its index, and [range(repetitions)] has as many
    elements as [repetitions] says (none for a negative number). *)
Definition job_count (c : dict) : nat :=
  if dmem KEY.i_REP_IDX c then 1
  else match dget KEY.REPS c with
       | Some (VInt n) => Z.to_nat n
       | _ => 0
       end.

(** A template that does not have both a [grid] and a [list]: the loop of
    [expand_experiments] expands it when it meets it. *)
Definition single_stage (t : dict) : Prop :=
  dmem KEY.GRID t && dmem KEY.LIST t = false.

(** The keys the expansion itself reads or writes. *)
Definition managed (k : string) : Prop :=
  In k [KEY.GRID; KEY.LIST; KEY.PARAMS; KEY.PATH; KEY.LOG_PATH;
        KEY.i_BASIC_PATH; KEY.i_EXP_NAME; KEY.i_NEST_DIR].

(** [r] has, under every other key, what the template [t] has. *)
Definition derived (t r : dict) : Prop :=
  forall k, ~ managed k -> dget k r = dget k t.

(** Repetition [j] of the record [r], as [unroll_exp_reps] writes it. *)
Definition repetition (r : dict) (j : nat) : dict :=
  dset KEY.i_REP_LOG_PATH
       (VStr (path_join (text_of KEY.LOG_PATH r) ("rep_" +:+ format_02d j)))
       (dset KEY.i_REP_IDX (VInt (Z.of_nat j)) r).

(* ================================================================= *)
(** ** Concrete templates *)

(** The templates the statements below are run on.  The first is the
    end-to-end example of the specification with a second, nested,
    key-path. *)
Definition grid_template : dict :=
  [("name", VStr "exp"); ("path", VStr "/out"); ("repetitions", VInt 2);
   ("grid", VDict [("lr", VList [VInt 1; VInt 2]);
                   ("opt", VDict [("m", VList [VStr "a"; VStr "b"; VStr "c"])])])].

Definition grid_template_td : list (list string * list value) :=
  [(["lr"], [VInt 1; VInt 2]); (["opt"; "m"], [VStr "a"; VStr "b"; VStr "c"])].

(** A grid whose only candidate list holds the same value twice. *)
Definition repeated_grid_template : dict :=
  [("name", VStr "exp"); ("path", VStr "/out"); ("repetitions", VInt 1);
   ("grid", VDict [("lr", VList [VInt 1; VInt 1])])].

Definition repeated_grid_record : dict :=
  [("name", VStr "exp"); ("path", VStr "/out/exp/exp__lr_1");
   ("repetitions", VInt 1); ("_base_path", VStr "/out");
   ("_experiment_name", VStr "exp__lr_1"); ("_nested_dir", VStr "exp");
   ("params", VDict [("lr", VInt 1)]);
   ("log_path", VStr "/out/exp/exp__lr_1/log")].

(** Lists of lengths three and two. *)
Definition list_template : dict :=
  [("name", VStr "exp"); ("path", VStr "/out"); ("repetitions", VInt 1);
   ("list", VDict [("a", VList [VInt 1; VInt 2; VInt 3]);
                   ("b", VList [VInt 5; VInt 6])])].

Definition list_template_td : list (list string * list value) :=
  [(["a"], [VInt 1; VInt 2; VInt 3]); (["b"], [VInt 5; VInt 6])].

(** A [list] directive without any key-path. *)
Definition empty_list_template : dict :=
  [("name", VStr "exp"); ("path", VStr "/out"); ("repetitions", VInt 1);
   ("list", VDict [])].

(** Both directives. *)
Definition both_template : dict :=
  [("name", VStr "exp"); ("path", VStr "/out"); ("repetitions", VInt 1);
   ("grid", VDict [("lr", VList [VInt 1; VInt 2])]);
   ("list", VDict [("a", VList [VInt 1; VInt 2; VInt 3]);
                   ("b", VList [VInt 5; VInt 6])])].

(** Both directives and an [ablative] directive. *)
Definition both_ablative_template : dict :=
  both_template ++ [("ablative", VDict [("c", VList [VInt 9])])].

(** The ablative example: a baseline and three variants. *)
Definition ablative_directive : value :=
  VDict [("a", VList [VInt 9]); ("b", VList [VInt 8; VInt 7])].

Definition ablative_template : dict :=
  [("name", VStr "exp"); ("path", VStr "/out"); ("repetitions", VInt 1);
   ("params", VDict [("a", VInt 1); ("b", VInt 2)]);
   ("ablative", ablative_directive)].

Definition ablative_template_td : list (list string * list value) :=
  [(["a"], [VInt 9]); (["b"], [VInt 8; VInt 7])].

Definition ablative_template_defaults : dict :=
  ablative_template ++
  [("_base_path", VStr "/out"); ("_experiment_name", VStr "exp");
   ("_nested_dir", VStr "")].

(** Templates with a required field missing. *)
Definition no_path_template : dict :=
  [("name", VStr "exp"); ("repetitions", VInt 1)].

Definition no_name_template : dict :=
  [("path", VStr "/out"); ("repetitions", VInt 1)].

Definition no_reps_template : dict :=
  [("name", VStr "exp"); ("path", VStr "/out")].

Definition no_reps_record : dict :=
  [("name", VStr "exp"); ("path", VStr "/out/exp");
   ("_base_path", VStr "/out"); ("_experiment_name", VStr "exp");
   ("_nested_dir", VStr ""); ("log_path", VStr "/out/exp/log")].

Definition no_reps_empty_list_template : dict :=
  [("name", VStr "exp"); ("path", VStr "/out");
   ("list", VDict [("a", VList [])])].

(** An expanded record, before the repetitions are unrolled. *)
Definition expanded_record : dict :=
  [("name", VStr "exp"); ("path", VStr "/out/exp/exp__lr_1");
   ("repetitions", VInt 3); ("_experiment_name", VStr "exp__lr_1");
   ("log_path", VStr "/out/exp/exp__lr_1/log")].

(** The grid template in a store, behind the list the caller passes. *)
Definition caller_store : Store.state :=
  snd (inject (VList [VDict grid_template])
         {| Store.objects := []; Store.warnings := [] |}).

Definition caller_list : Store.val := Store.VRef 5.

(** The records of the ablative example carry [ablative]. *)
Definition ablative_records : list dict :=
  Eval vm_compute in
    match expand_experiments (H := model) [ablative_template] with
    | OK (records, _) => records
    | Err _ => []
    end.

(** The run of the unfolder on the caller's list. *)
Definition caller_run : result (list Store.val) * Store.state :=
  Store.unfold_exps 100 convert_param_names_store Store.path_fields_model
    caller_list caller_store.

(* ----------------------------------------------------------------- *)
(** *** Further records, templates and states *)

(** The three repetitions of [expanded_record]. *)
Definition expanded_jobs : list dict :=
  Eval vm_compute in
    match unroll_exp_reps [expanded_record] with
    | OK l => l
    | Err _ => []
    end.

(** A record with no repetition, and one without log path. *)
Definition zero_reps_record : dict :=
  [("name", VStr "exp"); ("repetitions", VInt 0)].

Definition no_log_record : dict :=
  [("name", VStr "exp"); ("repetitions", VInt 2)].

(** A configuration whose name has not been extended yet. *)
Definition named_config : dict :=
  [("name", VStr "exp"); ("_experiment_name", VStr "exp")].

(** The records and the log of the grid example and of the list
    example. *)
Definition grid_records : list dict :=
  Eval vm_compute in
    match expand_experiments (H := model) [grid_template] with
    | OK (records, _) => records
    | Err _ => []
    end.

Definition grid_log : list warning :=
  Eval vm_compute in
    match expand_experiments (H := model) [grid_template] with
    | OK (_, log) => log
    | Err _ => []
    end.

Definition list_records : list dict :=
  Eval vm_compute in
    match expand_experiments (H := model) [list_template] with
    | OK (records, _) => records
    | Err _ => []
    end.

(** The template with both directives: with its default values, after
    the pairing of its [list] directive, and expanded. *)
Definition both_template_defaults : dict :=
  both_template ++
  [("_base_path", VStr "/out"); ("_experiment_name", VStr "exp");
   ("_nested_dir", VStr "")].

Definition both_template_paired : list dict :=
  Eval vm_compute in
    match params_combine (H := model) both_template_defaults
            (Some KEY.LIST) (Some zip) with
    | OK (paired, _) => paired
    | Err _ => []
    end.

Definition both_records : list dict :=
  Eval vm_compute in
    match expand_experiments (H := model) [both_template] with
    | OK (records, _) => records
    | Err _ => []
    end.

(** The template with the three directives, expanded. *)
Definition both_ablative_records : list dict :=
  Eval vm_compute in
    match expand_experiments (H := model) [both_ablative_template] with
    | OK (records, _) => records
    | Err _ => []
    end.

(** The records the run in the store returns. *)
Definition caller_records : list Store.val :=
  Eval vm_compute in
    match fst caller_run with
    | OK records => records
    | Err _ => []
    end.

(** A store that holds one record with a repetition index. *)
Definition indexed_store : Store.state :=
  {| Store.objects :=
       [Store.ODict [("name", Store.VStr "exp");
                     ("_rep_idx", Store.VInt 0)]];
     Store.warnings := [] |}.

(** A process that is about to write its batch script: a Slurm section
    with a script path of the user's own, one experiment, a template of
    three lines. *)
Definition newline : string := String "010"%char EmptyString.

Definition slurm_section : dict :=
  [("project_name", VStr "proj"); ("experiment_name", VStr "exp");
   ("time_limit", VInt 65); ("num_parallel_jobs", VInt 4);
   ("mem", VInt 1000); ("number_of_jobs", VInt 1);
   ("number_of_cpu_per_job", VInt 2);
   ("path_to_template", VStr "/tpl/sbatch.tpl");
   ("slurm_out", VStr "/mine.sh")].

Definition slurm_template : string :=
  "#SBATCH -J %%project_name%%" +:+ newline +:+
  "#SBATCH -t %%time_limit%%" +:+ newline +:+
  "python %%python_script%% %%path_to_yaml_config%% -j %%num_jobs%% %%exp_name%%".

(** A process: the template, the room the device has for a file and the
    size of the buffer of a file object vary. *)
Definition slurm_world_on (sc : dict) (exps : list dict)
    (template : Slurm.content) (room buffer_size : nat) : Slurm.world :=
  {| Slurm.conf := {| Slurm.slurm_config := sc;
                      Slurm.exp_configs := exps;
                      Slurm.config_path := "/cfg.yml" |};
     Slurm.cwd := "/home/u";
     Slurm.experiments := Some ["a"; "b"];
     Slurm.main_file := "main.py";
     Slurm.sys_path := ["/usr/lib"];
     Slurm.permitted := fun _ => true;
     Slurm.room := fun _ => room;
     Slurm.encodes := fun _ => true;
     Slurm.buffer_size := buffer_size;
     Slurm.files := [("/tpl/sbatch.tpl", template)];
     Slurm.dirs := [];
     Slurm.stdout := [] |}.

Definition slurm_world_with (sc : dict) (exps : list dict) (template : string)
  : Slurm.world :=
  slurm_world_on sc exps (Slurm.Text template) 4000 1000.

Definition slurm_world : Slurm.world :=
  slurm_world_with slurm_section [[("_experiment_path", VStr "/out/exp")]]
                   slurm_template.

(** The same without any experiment. *)
Definition slurm_world_empty : Slurm.world :=
  slurm_world_with slurm_section [] slurm_template.



(** The same with a Slurm section that lacks [project_name]. *)
Definition slurm_world_bad : Slurm.world :=
  slurm_world_with (ddel "project_name" slurm_section)
                   [[("_experiment_path", VStr "/out/exp")]] slurm_template.

(** The same on a device that has room for twenty characters of a file,
    written to without a buffer. *)
Definition slurm_world_full : Slurm.world :=
  slurm_world_on slurm_section [[("_experiment_path", VStr "/out/exp")]]
                 (Slurm.Text slurm_template) 20 0.

(** The same with a template of which two lines decode, written to
    without a buffer. *)
Definition slurm_world_garbled : Slurm.world :=
  slurm_world_on slurm_section [[("_experiment_path", VStr "/out/exp")]]
                 (Slurm.Garbled ("#SBATCH -J %%project_name%%" +:+ newline +:+
                                 "#SBATCH -t %%time_limit%%" +:+ newline))
                 4000 0.

(** A process whose template is the script itself, a file that does not
    decode at all. *)
Definition slurm_world_same : Slurm.world :=
  Slurm.with_files [("/out/exp/sbatch.sh", Slurm.Garbled "")]
    (slurm_world_with
       (dset "path_to_template" (VStr "/out/exp/sbatch.sh") slurm_section)
       [[("_experiment_path", VStr "/out/exp")]] "").

(** The states these runs end in. *)
Definition slurm_after : Slurm.world :=
  Eval vm_compute in snd (Slurm._finalize_slurm_config 12 slurm_world).




Definition slurm_bad_created : Slurm.world :=
  Eval vm_compute in snd (Slurm.create_slurm_script 12 slurm_world_bad).

Definition slurm_full_created : Slurm.world :=
  Eval vm_compute in snd (Slurm.create_slurm_script 12 slurm_world_full).

Definition slurm_garbled_created : Slurm.world :=
  Eval vm_compute in snd (Slurm.create_slurm_script 12 slurm_world_garbled).

Definition slurm_same_created : Slurm.world :=
  Eval vm_compute in snd (Slurm.create_slurm_script 12 slurm_world_same).

(* ================================================================= *)
(** ** Facts about results, dictionaries and strings *)

Lemma bind_ok {A B : Type} (m : result A) (f : A -> result B) (b : B) :
  bind m f = OK b -> exists a, m = OK a /\ f a = OK b.
Proof. destruct m as [a|e]; simpl; [eauto | discriminate]. Qed.

Lemma map_result_ok {A B : Type} (f : A -> result B) (g : A -> B) (l : list A) :
  (forall x, In x l -> f x = OK (g x)) -> map_result f l = OK (map g l).
Proof.
  induction l as [|x l IH]; intros Hf; simpl; [reflexivity|].
  rewrite (Hf x (or_introl eq_refl)); simpl.
  rewrite IH; [reflexivity|]. intros y Hy. apply Hf. now right.
Qed.

Lemma map_result_app {A B : Type} (f : A -> result B) (l1 l2 : list A) :
  map_result f (l1 ++ l2) =
  do r1 <- map_result f l1; do r2 <- map_result f l2; OK (r1 ++ r2).
Proof.
  induction l1 as [|x l1 IH]; simpl.
  - destruct (map_result f l2); reflexivity.
  - destruct (f x); simpl; [|reflexivity]. rewrite IH.
    destruct (map_result f l1); simpl; [|reflexivity].
    destruct (map_result f l2); reflexivity.
Qed.

Lemma map_result_Forall2 {A B : Type} (f : A -> result B) (l : list A)
    (r : list B) :
  map_result f l = OK r -> Forall2 (fun x y => f x = OK y) l r.
Proof.
  revert r; induction l as [|x l IH]; simpl; intros r Hr.
  - injection Hr as <-. constructor.
  - destruct (f x) as [y|] eqn:Hx; simpl in Hr; [|discriminate].
    destruct (map_result f l) as [ys|]; simpl in Hr; [|discriminate].
    injection Hr as <-. constructor; auto.
Qed.

Lemma map_result_err {A B : Type} (f : A -> result B) (l1 l2 : list A)
    (x : A) (e : error) :
  f x = Err e -> exists e', map_result f (l1 ++ x :: l2) = Err e'.
Proof.
  intros Hx. induction l1 as [|y l1 [e' IH]]; simpl.
  - rewrite Hx. eauto.
  - destruct (f y); simpl; [|eauto]. rewrite IH. eauto.
Qed.

Lemma dget_dset_eq {V : Type} (k : string) (v : V) (d : list (string * V)) :
  dget k (dset k v d) = Some v.
Proof.
  induction d as [|[k' v'] d IH]; simpl.
  - now rewrite String.eqb_refl.
  - destruct (String.eqb k k') eqn:E; simpl; rewrite E; auto.
Qed.

Lemma dget_dset_ne {V : Type} (k k' : string) (v : V) (d : list (string * V)) :
  k <> k' -> dget k' (dset k v d) = dget k' d.
Proof.
  intros Hne. induction d as [|[k0 v0] d IH]; simpl.
  - destruct (String.eqb_spec k' k); congruence.
  - destruct (String.eqb_spec k k0) as [->|]; simpl.
    + destruct (String.eqb_spec k' k0); congruence.
    + now rewrite IH.
Qed.

Lemma dget_ddel_eq {V : Type} (k : string) (d : list (string * V)) :
  dget k (ddel k d) = None.
Proof.
  induction d as [|[k' v'] d IH]; simpl; [reflexivity|].
  destruct (String.eqb k k') eqn:E; simpl; [|rewrite E]; auto.
Qed.

Lemma dget_ddel_ne {V : Type} (k k' : string) (d : list (string * V)) :
  k <> k' -> dget k' (ddel k d) = dget k' d.
Proof.
  intros Hne. induction d as [|[k0 v0] d IH]; simpl; [reflexivity|].
  destruct (String.eqb_spec k k0) as [->|]; simpl.
  - destruct (String.eqb_spec k' k0); congruence.
  - now rewrite IH.
Qed.

Lemma dmem_true {V : Type} (k : string) (d : list (string * V)) :
  dmem k d = true <-> exists v, dget k d = Some v.
Proof.
  unfold dmem. destruct (dget k d); split; eauto; try discriminate.
  intros [v Hv]; discriminate.
Qed.

Lemma dmem_false {V : Type} (k : string) (d : list (string * V)) :
  dmem k d = false <-> dget k d = None.
Proof. unfold dmem. destruct (dget k d); split; congruence. Qed.

Lemma dgetE_some {V : Type} (k : string) (d : list (string * V)) (v : V) :
  dget k d = Some v -> dgetE k d = OK v.
Proof. unfold dgetE. now intros ->. Qed.

Lemma dgetE_none {V : Type} (k : string) (d : list (string * V)) :
  dget k d = None -> dgetE k d = Err (KeyError k).
Proof. unfold dgetE. now intros ->. Qed.

(** The keys are pairwise different strings. *)
Ltac key_neq :=
  solve [ unfold KEY.NAME, KEY.PATH, KEY.REPS, KEY.PARAMS, KEY.GRID, KEY.LIST,
            KEY.ABLATIVE, KEY.LOG_PATH, KEY.i_BASIC_PATH, KEY.i_EXP_NAME,
            KEY.i_NEST_DIR, KEY.i_REP_IDX, KEY.i_REP_LOG_PATH in *;
          congruence
        | auto ].

(** Read a key through the assignments and deletions made before. *)
Ltac dget_simpl :=
  repeat first
    [ rewrite dget_dset_eq
    | rewrite dget_ddel_eq
    | rewrite dget_dset_ne by key_neq
    | rewrite dget_ddel_ne by key_neq ].

Lemma prefix_app (a b : string) : String.prefix a (a +:+ b) = true.
Proof.
  induction a as [|c a IH]; simpl; [now destruct b|].
  destruct (ascii_dec c c); [assumption | congruence].
Qed.

Lemma prefix_inv (a s : string) :
  String.prefix a s = true -> exists b, s = a +:+ b.
Proof.
  revert s; induction a as [|c a IH]; intros s Hs; [exists s; reflexivity|].
  destruct s as [|c' s]; simpl in Hs; [discriminate|].
  destruct (ascii_dec c c') as [->|]; [|discriminate].
  destruct (IH s Hs) as [b ->]. eauto.
Qed.

Lemma str_contains_unfold (sub s : string) :
  str_contains sub s =
  String.prefix sub s
  || match s with
     | EmptyString => false
     | String _ s' => str_contains sub s'
     end.
Proof. destruct s; reflexivity. Qed.

(** [str_contains] is the substring test. *)
Lemma str_contains_spec (sub s : string) :
  str_contains sub s = true <-> exists a b, s = a +:+ sub +:+ b.
Proof.
  split.
  - induction s as [|c s IH]; rewrite str_contains_unfold; intros Hc.
    + rewrite orb_false_r in Hc. apply prefix_inv in Hc as [b Hb].
      exists "", b. exact Hb.
    + apply orb_true_iff in Hc as [Hc|Hc].
      * apply prefix_inv in Hc as [b Hb]. exists "", b. exact Hb.
      * destruct (IH Hc) as (a & b & ->). exists (String c a), b. reflexivity.
  - intros (a & b & ->). induction a as [|c a IH].
    + rewrite str_contains_unfold. change ("" +:+ sub +:+ b) with (sub +:+ b).
      now rewrite prefix_app.
    + rewrite str_contains_unfold. simpl. rewrite IH. apply orb_true_r.
Qed.

(* ----------------------------------------------------------------- *)
(** *** Key-paths and deep insertion *)

Lemma insert_deep_cons (d : dict) (k k' : string) (t : keypath) (v : value) :
  insert_deep_dictionary d (k :: k' :: t) v =
  match dget k d with
  | None =>
      do sub <- insert_deep_dictionary [] (k' :: t) v;
      OK (dset k (VDict sub) d)
  | Some (VDict sub0) =>
      do sub <- insert_deep_dictionary sub0 (k' :: t) v;
      OK (dset k (VDict sub) d)
  | Some _ => Err TypeError
  end.
Proof. reflexivity. Qed.

Lemma insertable_cons (d : dict) (k k' : string) (t : keypath) :
  insertable d (k :: k' :: t) =
  match dget k d with
  | None => true
  | Some (VDict sub) => insertable sub (k' :: t)
  | Some _ => false
  end.
Proof. reflexivity. Qed.

Lemma get_deep_cons (d : dict) (k k' : string) (t : keypath) :
  get_deep d (k :: k' :: t) =
  match dget k d with
  | Some (VDict sub) => get_deep sub (k' :: t)
  | _ => None
  end.
Proof. reflexivity. Qed.

Lemma diverge_sym (a b : keypath) : diverge a b -> diverge b a.
Proof. induction 1; constructor; [congruence|assumption]. Qed.

Lemma diverge_not_nil_l (a b : keypath) : diverge a b -> a <> [].
Proof. now destruct 1. Qed.

Lemma diverge_strict_prefix (a b : keypath) :
  diverge a b -> strict_prefix a b = false.
Proof.
  induction 1 as [x y a b Hxy|x a b _ IH]; simpl.
  - destruct (String.eqb_spec x y); [contradiction|reflexivity].
  - now rewrite IH, andb_false_r.
Qed.

Lemma diverge_irrefl (a : keypath) : ~ diverge a a.
Proof.
  induction a as [|x a IH]; intros Hd; inversion Hd; subst; auto.
Qed.

Lemma insertable_nil (t : keypath) : t <> [] -> insertable [] t = true.
Proof. destruct t as [|k [|k' t]]; simpl; congruence. Qed.

Lemma insertable_not_nil (d : dict) (t : keypath) :
  insertable d t = true -> t <> [].
Proof. destruct t; simpl; congruence. Qed.

Lemma insert_deep_insertable (d : dict) (t : keypath) (v : value) :
  insertable d t = true -> exists d', insert_deep_dictionary d t v = OK d'.
Proof.
  revert d; induction t as [|k t IH]; intros d Hi; [discriminate|].
  destruct t as [|k' t]; [simpl; eauto|].
  rewrite insertable_cons in Hi. rewrite insert_deep_cons.
  destruct (dget k d) as [[| | | |sub]|]; try discriminate.
  - destruct (IH sub Hi) as [d' ->]. simpl; eauto.
  - assert (Hn : insertable [] (k' :: t) = true)
      by (apply insertable_nil; discriminate).
    destruct (IH [] Hn) as [d' ->]. simpl; eauto.
Qed.

Lemma insert_deep_ok_insertable (d d' : dict) (t : keypath) (v : value) :
  insert_deep_dictionary d t v = OK d' -> insertable d t = true.
Proof.
  revert d d'; induction t as [|k t IH]; intros d d' Hi; [discriminate|].
  destruct t as [|k' t]; [reflexivity|].
  rewrite insertable_cons. rewrite insert_deep_cons in Hi.
  destruct (dget k d) as [[| | | |sub]|]; try discriminate; [|reflexivity].
  apply bind_ok in Hi as (s & Hs & _). eauto.
Qed.

(** After an insertion the key-path reads the inserted value. *)
Lemma get_deep_insert_eq (d d' : dict) (t : keypath) (v : value) :
  insert_deep_dictionary d t v = OK d' -> get_deep d' t = Some v.
Proof.
  revert d d'; induction t as [|k t IH]; intros d d' Hi; [discriminate|].
  destruct t as [|k' t].
  - injection Hi as <-. simpl. apply dget_dset_eq.
  - rewrite insert_deep_cons in Hi. rewrite !get_deep_cons.
    destruct (dget k d) as [[| | | |sub]|]; try discriminate;
      apply bind_ok in Hi as (s & Hs & Hi); injection Hi as <-;
      rewrite dget_dset_eq; eauto.
Qed.

(** An insertion leaves every key-path that diverges from it alone. *)
Lemma get_deep_insert_diverge (d d' : dict) (t t' : keypath) (v : value) :
  insert_deep_dictionary d t v = OK d' -> diverge t t' ->
  get_deep d' t' = get_deep d t'.
Proof.
  intros Hi Hd. revert d d' Hi.
  induction Hd as [x y a b Hxy|x a b Hd IH]; intros d d' Hi.
  - assert (E : dget y d' = dget y d).
    { destruct a as [|k' a]; [|rewrite insert_deep_cons in Hi].
      - injection Hi as <-. now apply dget_dset_ne.
      - destruct (dget x d) as [[| | | |sub]|]; try discriminate;
          apply bind_ok in Hi as (s & Hs & Hi); injection Hi as <-;
          now apply dget_dset_ne. }
    destruct b; [simpl; exact E|]. rewrite !get_deep_cons. now rewrite E.
  - destruct a as [|ka a]; [now inversion Hd|].
    destruct b as [|kb b]; [now inversion Hd|].
    rewrite insert_deep_cons in Hi. rewrite !get_deep_cons.
    destruct (dget x d) as [[| | | |sub]|] eqn:Hx; try discriminate;
      apply bind_ok in Hi as (s & Hs & Hi); injection Hi as <-;
      rewrite dget_dset_eq, (IH _ _ Hs); try reflexivity.
    now destruct b.
Qed.

(** An insertion keeps every key-path insertable that does not continue
    the one inserted. *)
Lemma insertable_insert (d d' : dict) (t t' : keypath) (v : value) :
  insert_deep_dictionary d t v = OK d' ->
  insertable d t' = true -> strict_prefix t t' = false ->
  insertable d' t' = true.
Proof.
  revert d d' t'; induction t as [|k t IH]; intros d d' t' Hi Ht' Hp;
    [discriminate|].
  destruct t' as [|k' t']; [discriminate|].
  destruct t' as [|k'' t']; [reflexivity|].
  rewrite insertable_cons in *. cbn [strict_prefix] in Hp.
  destruct (String.eqb_spec k k') as [<-|Hne].
  - destruct t as [|k1 t]; [discriminate Hp|].
    rewrite andb_true_l in Hp.
    rewrite insert_deep_cons in Hi.
    destruct (dget k d) as [[| | | |sub]|] eqn:Hk; try discriminate;
      apply bind_ok in Hi as (s & Hs & Hi); injection Hi as <-;
      rewrite dget_dset_eq.
    + eapply IH; eauto.
    + eapply IH; eauto. now apply insertable_nil.
  - assert (E : dget k' d' = dget k' d).
    { destruct t as [|k1 t]; [|rewrite insert_deep_cons in Hi].
      - injection Hi as <-. now apply dget_dset_ne.
      - destruct (dget k d) as [[| | | |sub]|]; try discriminate;
          apply bind_ok in Hi as (s & Hs & Hi); injection Hi as <-;
          now apply dget_dset_ne. }
    now rewrite E.
Qed.

(* ----------------------------------------------------------------- *)
(** *** Flattening a directive *)

(** Induction on values, through the lists and items they hold. *)
Lemma value_nested_ind (P : value -> Prop) :
  P VNone ->
  (forall z, P (VInt z)) ->
  (forall s, P (VStr s)) ->
  (forall l, Forall P l -> P (VList l)) ->
  (forall d, Forall (fun kv => P (snd kv)) d -> P (VDict d)) ->
  forall v, P v.
Proof.
  intros HN HI HS HL HD.
  fix IH 1. intros [| z | s | l | d].
  - exact HN.
  - apply HI.
  - apply HS.
  - apply HL. induction l as [|x l IHl]; constructor; [apply IH | exact IHl].
  - apply HD. induction d as [|[k x] d IHd]; constructor;
      [apply IH | exact IHd].
Qed.

Lemma flatten_dict_cons (k : string) (v : value) (d : dict) :
  flatten_value (VDict ((k, v) :: d)) =
  match v with
  | VDict _ =>
      do sub <- flatten_value v;
      do rest <- flatten_value (VDict d);
      OK (map (fun kv => (k :: fst kv, snd kv)) sub ++ rest)
  | VList l =>
      do rest <- flatten_value (VDict d);
      OK (([k], l) :: rest)
  | _ => Err TypeError
  end.
Proof. destruct v; reflexivity. Qed.

Lemma ForallOrdPairs_app {A : Type} (R : A -> A -> Prop) (l1 l2 : list A) :
  ForallOrdPairs R l1 -> ForallOrdPairs R l2 ->
  (forall a b, In a l1 -> In b l2 -> R a b) ->
  ForallOrdPairs R (l1 ++ l2).
Proof.
  intros H1 H2 H12. induction H1 as [|a l1 Ha H1 IH]; simpl; [assumption|].
  constructor.
  - apply Forall_app. split; [assumption|].
    apply List.Forall_forall. intros b Hb. apply H12; [now left|assumption].
  - apply IH. intros x y Hx Hy. apply H12; [now right|assumption].
Qed.

Lemma ForallOrdPairs_map {A B : Type} (R : B -> B -> Prop) (f : A -> B)
    (l : list A) :
  ForallOrdPairs (fun x y => R (f x) (f y)) l -> ForallOrdPairs R (map f l).
Proof.
  induction 1 as [|a l Ha _ IH]; simpl; constructor; [|assumption].
  apply List.Forall_forall. intros b [x [<- Hx]]%in_map_iff.
  rewrite List.Forall_forall in Ha. auto.
Qed.

Lemma ForallOrdPairs_impl {A : Type} (R S : A -> A -> Prop) (l : list A) :
  (forall a b, R a b -> S a b) -> ForallOrdPairs R l -> ForallOrdPairs S l.
Proof.
  intros HRS. induction 1 as [|a l Ha _ IH]; constructor; [|assumption].
  eapply Forall_impl; eauto.
Qed.

(** Every key-path of a flattened mapping starts with one of its keys. *)
Lemma flatten_keys_head (d : dict) (td : tuple_dict) (kp : keypath) :
  flatten_value (VDict d) = OK td -> In kp (map fst td) ->
  exists k rest, kp = k :: rest /\ In k (map fst d).
Proof.
  revert td; induction d as [|[k v] d IH]; intros td Hf Hin.
  - injection Hf as <-. contradiction.
  - rewrite flatten_dict_cons in Hf.
    destruct v as [| | |l|dd]; try discriminate.
    + apply bind_ok in Hf as (rest & Hrest & Hf). injection Hf as <-.
      destruct Hin as [<-|Hin]; [exists k, []; simpl; auto|].
      destruct (IH _ Hrest Hin) as (k' & r & -> & Hk'). exists k', r.
      simpl; auto.
    + apply bind_ok in Hf as (sub & Hsub & Hf).
      apply bind_ok in Hf as (rest & Hrest & Hf). injection Hf as <-.
      rewrite map_app, in_app_iff in Hin. destruct Hin as [Hin|Hin].
      * rewrite map_map in Hin. apply in_map_iff in Hin as (x & <- & _).
        exists k, (fst x). simpl; auto.
      * destruct (IH _ Hrest Hin) as (k' & r & -> & Hk'). exists k', r.
        simpl; auto.
Qed.

(** The key-paths of a flattened mapping diverge pairwise: they are
    different, and none continues another. *)
Lemma flatten_keys_diverge (v : value) (td : tuple_dict) :
  keys_unique v = true -> flatten_value v = OK td ->
  ForallOrdPairs diverge (map fst td).
Proof.
  revert td. induction v as [| | | |d IHd] using value_nested_ind;
    intros td Hu Hf; try discriminate.
  simpl in Hu. apply andb_true_iff in Hu as [Hnd Hu].
  apply bool_decide_eq_true in Hnd. rewrite forallb_forall in Hu.
  revert td Hf. induction d as [|[k v] d IH]; intros td Hf.
  - injection Hf as <-. constructor.
  - apply NoDup_cons in Hnd as [Hk Hnd].
    inversion IHd as [|? ? Hv IHd']; subst.
    assert (Hu' : forall x, In x d -> keys_unique (snd x) = true)
      by (intros x Hx; apply Hu; now right).
    specialize (IH IHd' Hnd Hu').
    assert (Hhead : forall rest kp,
               flatten_value (VDict d) = OK rest -> In kp (map fst rest) ->
               forall a, diverge (k :: a) kp).
    { intros rest kp Hrest Hkp a.
      destruct (flatten_keys_head _ _ _ Hrest Hkp) as (k' & r & -> & Hk').
      constructor. intros ->. apply Hk. now apply list_elem_of_In. }
    rewrite flatten_dict_cons in Hf.
    destruct v as [| | |l|dd]; try discriminate.
    + apply bind_ok in Hf as (rest & Hrest & Hf). injection Hf as <-.
      simpl. constructor; [|now apply IH].
      apply List.Forall_forall. intros kp Hkp. eapply Hhead; eauto.
    + apply bind_ok in Hf as (sub & Hsub & Hf).
      apply bind_ok in Hf as (rest & Hrest & Hf). injection Hf as <-.
      rewrite map_app. apply ForallOrdPairs_app; [| now apply IH |].
      * rewrite map_map; simpl.
        change (map (fun x : keypath * list value => k :: fst x) sub)
          with (map (fun x : keypath * list value => cons k (fst x)) sub).
        rewrite <- (map_map fst (cons k)).
        apply ForallOrdPairs_map.
        eapply ForallOrdPairs_impl; [intros a b; apply diverge_tail|].
        apply Hv; [|assumption]. apply (Hu (k, VDict dd)). now left.
      * intros a b Ha Hb. rewrite map_map in Ha.
        apply in_map_iff in Ha as (x & <- & _). simpl. eapply Hhead; eauto.
Qed.

(* ----------------------------------------------------------------- *)
(** *** [zip] and [itertools.product] *)

Lemma length_flat_map_const {A B : Type} (f : A -> list B) (l : list A)
    (p : nat) :
  (forall x, length (f x) = p) -> length (flat_map f l) = length l * p.
Proof.
  intros Hf. induction l as [|x l IH]; simpl; [reflexivity|].
  rewrite length_app, Hf, IH. reflexivity.
Qed.

Lemma lookup_flat_map_const {A B : Type} (f : A -> list B) (l : list A)
    (p i : nat) :
  (forall x, length (f x) = p) -> i < length l * p ->
  flat_map f l !! i =
  match l !! (i / p) with
  | Some x => f x !! (i mod p)
  | None => None
  end.
Proof.
  intros Hf. revert i. induction l as [|x l IH]; simpl; intros i Hi; [lia|].
  assert (Hp : p <> 0) by lia.
  destruct (Nat.lt_ge_cases i p) as [Hlt|Hge].
  - rewrite lookup_app_l by (rewrite Hf; assumption).
    rewrite Nat.div_small, Nat.mod_small by assumption. reflexivity.
  - rewrite lookup_app_r by (rewrite Hf; assumption). rewrite Hf.
    rewrite IH by lia.
    pose proof (Nat.div_add (i - p) 1 p Hp) as Hdiv.
    pose proof (Nat.Div0.mod_add (i - p) 1 p) as Hmod.
    replace (i - p + 1 * p) with i in Hdiv, Hmod by lia.
    rewrite Hdiv, Hmod, Nat.add_1_r. reflexivity.
Qed.

Lemma length_py_product (ls : list (list value)) :
  length (py_product ls) = prod_list (map (@length value) ls).
Proof.
  induction ls as [|l ls IH]; simpl; [reflexivity|].
  rewrite (length_flat_map_const _ _ (prod_list (map (@length value) ls))).
  - reflexivity.
  - intros x. now rewrite length_map.
Qed.

Lemma py_product_length_elem (ls : list (list value)) (t : list value) :
  In t (py_product ls) -> length t = length ls.
Proof.
  revert t; induction ls as [|l ls IH]; simpl; intros t Ht.
  - destruct Ht as [<-|[]]. reflexivity.
  - apply in_flat_map in Ht as (x & _ & Ht).
    apply in_map_iff in Ht as (t' & <- & Ht'). simpl. now rewrite IH.
Qed.

(** The tuple at position [i] of the product takes, from the list at
    position [j], the element at position [digit dims i j]: the first list
    varies slowest. *)
Lemma py_product_lookup (ls : list (list value)) (i j : nat)
    (t l : list value) :
  py_product ls !! i = Some t -> ls !! j = Some l ->
  t !! j = l !! digit (map (@length value) ls) i j.
Proof.
  revert i j t; induction ls as [|l0 ls IH]; intros i j t Hi Hj;
    [discriminate|].
  assert (Hlen : i < length l0 * prod_list (map (@length value) ls)).
  { apply lookup_lt_Some in Hi. now rewrite length_py_product in Hi. }
  simpl in Hi.
  rewrite (lookup_flat_map_const _ _ (prod_list (map (@length value) ls)))
    in Hi; [| intros x; now rewrite length_map, length_py_product | exact Hlen].
  destruct (l0 !! (i / prod_list (map (@length value) ls))) as [x|] eqn:Hx;
    [|discriminate].
  rewrite list_lookup_fmap in Hi.
  destruct (py_product ls !! (i mod prod_list (map (@length value) ls)))
    as [t'|] eqn:Ht'; [|discriminate].
  injection Hi as <-. destruct j as [|j]; simpl in *.
  - injection Hj as <-. now rewrite Hx.
  - eapply IH; eauto.
Qed.

Lemma NoDup_flat_map_cons (l : list value) (P : list (list value)) :
  NoDup l -> NoDup P -> NoDup (flat_map (fun x => map (cons x) P) l).
Proof.
  intros Hl HP. induction Hl as [|x l Hx Hl IH]; simpl; [constructor|].
  apply NoDup_app. split; [|split; [|assumption]].
  - apply NoDup_fmap_2; [|assumption]. intros a b Hab. now injection Hab.
  - intros t Ht Ht'. apply list_elem_of_In in Ht, Ht'.
    apply in_map_iff in Ht as (t1 & <- & _).
    apply in_flat_map in Ht' as (y & Hy & Ht').
    apply in_map_iff in Ht' as (t2 & Heq & _). injection Heq as -> _.
    apply Hx. now apply list_elem_of_In.
Qed.

(** Candidate lists without repetition give pairwise different tuples. *)
Lemma NoDup_py_product (ls : list (list value)) :
  Forall NoDup ls -> NoDup (py_product ls).
Proof.
  induction 1 as [|l ls Hl _ IH]; simpl.
  - apply NoDup_singleton.
  - now apply NoDup_flat_map_cons.
Qed.

Lemma length_zip_cons (l : list value) (rows : list (list value)) :
  length (zip_cons l rows) = Nat.min (length l) (length rows).
Proof.
  revert rows; induction l as [|x l IH]; intros [|r rows]; simpl; auto.
Qed.

Lemma py_zip_cons {V : Type} (l l' : list V) (ls : list (list V)) :
  py_zip (l :: l' :: ls) = zip_cons l (py_zip (l' :: ls)).
Proof. reflexivity. Qed.

Lemma length_py_zip (ls : list (list value)) :
  length (py_zip ls) = min_list (map (@length value) ls).
Proof.
  induction ls as [|l [|l' ls] IH]; [reflexivity | simpl; apply length_map |].
  rewrite py_zip_cons, length_zip_cons, IH. reflexivity.
Qed.

Lemma zip_cons_lookup (l : list value) (rows : list (list value)) (i : nat)
    (t : list value) :
  zip_cons l rows !! i = Some t ->
  exists x r, t = x :: r /\ l !! i = Some x /\ rows !! i = Some r.
Proof.
  revert rows i; induction l as [|x l IH]; intros [|r rows] i Hi;
    try discriminate.
  destruct i as [|i]; simpl in Hi.
  - injection Hi as <-. eauto.
  - apply IH in Hi. exact Hi.
Qed.

(** The tuple at position [i] of [zip] takes the element at position [i]
    of every list. *)
Lemma py_zip_lookup (ls : list (list value)) (i j : nat) (t l : list value) :
  py_zip ls !! i = Some t -> ls !! j = Some l ->
  length t = length ls /\ t !! j = l !! i /\ i < length l.
Proof.
  revert i j t l; induction ls as [|l0 [|l1 ls] IH]; intros i j t l Hi Hj;
    [discriminate| |].
  - simpl in Hi. rewrite list_lookup_fmap in Hi.
    destruct (l0 !! i) as [x|] eqn:Hx; [|discriminate]. injection Hi as <-.
    destruct j as [|j]; [|discriminate]. injection Hj as <-.
    split; [reflexivity|]. split; [now rewrite Hx|].
    now apply lookup_lt_Some in Hx.
  - rewrite py_zip_cons in Hi.
    apply zip_cons_lookup in Hi as (x & r & -> & Hx & Hr).
    destruct j as [|j].
    + injection Hj as <-. destruct (IH _ 0 _ l1 Hr eq_refl) as [Hlen _].
      split; [simpl; now rewrite Hlen|]. split; [now rewrite Hx|].
      now apply lookup_lt_Some in Hx.
    + destruct (IH _ j _ l Hr Hj) as (Hlen & Hj' & Hlt).
      split; [simpl; now rewrite Hlen|]. split; assumption.
Qed.

Lemma py_zip_length_elem (ls : list (list value)) (t : list value) :
  In t (py_zip ls) -> length t = length ls.
Proof.
  intros Ht. apply list_elem_of_In, list_elem_of_lookup in Ht as [i Hi].
  destruct ls as [|l ls]; [discriminate|].
  now destruct (py_zip_lookup _ i 0 t l Hi eq_refl).
Qed.

Lemma iterate_length_elem (f : iter_func) (ls : list (list value))
    (t : list value) :
  In t (iterate f ls) -> length t = length ls.
Proof.
  destruct f; [apply py_zip_length_elem | apply py_product_length_elem].
Qed.

Lemma min_list_le_sum (l : list nat) : min_list l <= list_sum l.
Proof.
  induction l as [|n [|m l] IH]; simpl in *; lia.
Qed.

(* ----------------------------------------------------------------- *)
(** *** Lists of equal length *)

Lemma nodup_singleton_iff (l : list nat) :
  length (nodup Nat.eq_dec l) = 1 <->
  l <> [] /\ forall a b, In a l -> In b l -> a = b.
Proof.
  pose proof (List.NoDup_nodup Nat.eq_dec l) as Hnd.
  pose proof (List.nodup_In Nat.eq_dec l) as Hin.
  split.
  - intros Hlen. destruct (nodup Nat.eq_dec l) as [|n [|m rest]] eqn:E;
      try discriminate.
    split.
    + intros ->. discriminate.
    + intros a b Ha Hb. apply Hin in Ha, Hb.
      destruct Ha as [<-|[]], Hb as [<-|[]]. reflexivity.
  - intros [Hne Heq]. destruct (nodup Nat.eq_dec l) as [|n [|m rest]] eqn:E.
    + destruct l as [|x l]; [congruence|].
      assert (Hx : In x []) by (apply Hin; now left). contradiction.
    + reflexivity.
    + exfalso. assert (n = m).
      { apply Heq; apply Hin; simpl; auto. }
      subst. inversion Hnd as [|? ? Hn _]. apply Hn. now left.
Qed.

(* ----------------------------------------------------------------- *)
(** *** Python exceptions, as opposed to an exhausted step budget *)

Lemma genuine_ok {A : Type} (a : A) : genuine (OK a).
Proof. discriminate. Qed.

Lemma genuine_bind {A B : Type} (m : result A) (f : A -> result B) :
  genuine m -> (forall a, m = OK a -> genuine (f a)) -> genuine (bind m f).
Proof.
  destruct m as [a|e]; simpl; intros Hm Hf; [now apply Hf|].
  intros [= ->]. now apply Hm.
Qed.

Lemma genuine_map_result {A B : Type} (f : A -> result B) (l : list A) :
  (forall x, genuine (f x)) -> genuine (map_result f l).
Proof.
  intros Hf. induction l as [|x l IH]; simpl; [apply genuine_ok|].
  apply genuine_bind; [apply Hf|]. intros y _.
  apply genuine_bind; [apply IH|]. intros ys _. apply genuine_ok.
Qed.

Lemma genuine_dgetE (k : string) (d : dict) : genuine (dgetE k d).
Proof. unfold dgetE, genuine. destruct (dget k d); discriminate. Qed.

Lemma genuine_flatten (v : value) : genuine (flatten_value v).
Proof.
  induction v as [| | | |d IHd] using value_nested_ind; try discriminate.
  induction d as [|[k v] d IH]; [apply genuine_ok|].
  inversion IHd as [|? ? Hv IHd']; subst. rewrite flatten_dict_cons.
  destruct v; try discriminate.
  - apply genuine_bind; [now apply IH|]. intros; apply genuine_ok.
  - apply genuine_bind; [exact Hv|]. intros sub _.
    apply genuine_bind; [now apply IH|]. intros; apply genuine_ok.
Qed.

Lemma genuine_insert_deep (d : dict) (t : list string) (v : value) :
  genuine (insert_deep_dictionary d t v).
Proof.
  revert d; induction t as [|k t IH]; intros d; [discriminate|].
  destruct t as [|k' t]; [apply genuine_ok|]. rewrite insert_deep_cons.
  destruct (dget k d) as [[| | | |sub]|]; try discriminate;
    (apply genuine_bind; [apply IH | intros; apply genuine_ok]).
Qed.

(* ----------------------------------------------------------------- *)
(** *** The [params] tree of a record *)

Lemma get_deep_nil (t : keypath) : get_deep [] t = None.
Proof. destruct t as [|k [|k' t]]; reflexivity. Qed.

Lemma record_param_eq (r r' : dict) (t : keypath) :
  dget KEY.PARAMS r = dget KEY.PARAMS r' -> record_param r t = record_param r' t.
Proof. unfold record_param. now intros ->. Qed.

Lemma record_insertable_eq (r r' : dict) (t : keypath) :
  dget KEY.PARAMS r = dget KEY.PARAMS r' ->
  record_insertable r t = record_insertable r' t.
Proof. unfold record_insertable. now intros ->. Qed.

Lemma format_02d_small :
  format_02d 0 = "00" /\ format_02d 1 = "01" /\ format_02d 9 = "09"
  /\ format_02d 10 = "10" /\ format_02d 99 = "99" /\ format_02d 100 = "100".
Proof. repeat split. Qed.

(** Joining a directory with a repetition directory: the separator is put
    between them unless the directory is empty or ends with it. *)
Lemma path_join_rep (a x : string) :
  path_join a ("rep_" +:+ x) =
  if Nat.eqb (String.length a) 0 || ends_with_sep a
  then a +:+ "rep_" +:+ x
  else a +:+ "/" +:+ "rep_" +:+ x.
Proof. reflexivity. Qed.

(* ================================================================= *)
(** ** Facts about the unfolder *)

Section UnfolderFacts.

Context `{Collaborators}.

Lemma unroll_rep_ok (config : dict) (p : string) (r : nat) :
  dget KEY.LOG_PATH config = Some (VStr p) ->
  unroll_rep config r =
  OK (dset KEY.i_REP_LOG_PATH (VStr (path_join p ("rep_" +:+ format_02d r)))
        (dset KEY.i_REP_IDX (VInt (Z.of_nat r)) config)).
Proof.
  intros Hp. unfold unroll_rep, dgetE. dget_simpl. now rewrite Hp.
Qed.

(** C4.  A record without repetition index and with [repetitions = R]
    (and a log path) is unrolled into exactly [R] records; the record at
    position [r] has repetition index [r], its repetition log path is the
    log path joined with [rep_] and [r] on two digits, and it is otherwise
    the input record.  A record that carries a repetition index is emitted
    alone and unchanged. *)
Theorem unroll_exp_reps_repetitions (config : dict) :
  (forall (R : nat) (log_path : string),
      dmem KEY.i_REP_IDX config = false ->
      dget KEY.REPS config = Some (VInt (Z.of_nat R)) ->
      dget KEY.LOG_PATH config = Some (VStr log_path) ->
      exists records,
        unroll_exp_reps [config] = OK records /\
        length records = R /\
        forall r, r < R ->
          exists c,
            records !! r = Some c /\
            dget KEY.i_REP_IDX c = Some (VInt (Z.of_nat r)) /\
            dget KEY.i_REP_LOG_PATH c =
              Some (VStr (path_join log_path ("rep_" +:+ format_02d r))) /\
            forall k, k <> KEY.i_REP_IDX -> k <> KEY.i_REP_LOG_PATH ->
                      dget k c = dget k config)
  /\ (dmem KEY.i_REP_IDX config = true ->
      unroll_exp_reps [config] = OK [config]).
Proof.
  split.
  - intros R log_path Hidx Hreps Hlog.
    set (g := fun r =>
      dset KEY.i_REP_LOG_PATH
        (VStr (path_join log_path ("rep_" +:+ format_02d r)))
        (dset KEY.i_REP_IDX (VInt (Z.of_nat r)) config)).
    exists (map g (seq 0 R)). split; [|split].
    + unfold unroll_exp_reps, unroll_config; simpl.
      rewrite Hidx, (dgetE_some _ _ _ Hreps); simpl.
      rewrite Nat2Z.id.
      rewrite (map_result_ok _ g)
        by (intros r _; now apply unroll_rep_ok).
      simpl. now rewrite app_nil_r.
    + now rewrite length_map, length_seq.
    + intros r Hr. exists (g r). split; [|split; [|split]].
      * rewrite list_lookup_fmap, lookup_seq_lt by assumption. reflexivity.
      * unfold g. now dget_simpl.
      * unfold g. now dget_simpl.
      * intros k Hk1 Hk2. unfold g. now dget_simpl.
  - intros Hidx. unfold unroll_exp_reps, unroll_config; simpl.
    now rewrite Hidx.
Qed.

(** C7.  The name synthesizer appends the suffix to [_experiment_name]
    with separator [__] when the name does not contain [__], and with
    separator [_] when it does; in both cases [_nested_dir] becomes the
    value of [name], and no other key changes. *)
Theorem extend_config_name_separator (config : dict)
    (param_names : list string) (values : list value)
    (exp_name : string) (name : value) :
  dget KEY.i_EXP_NAME config = Some (VStr exp_name) ->
  dget KEY.NAME config = Some name ->
  exists config',
    extend_config_name config param_names values = OK config' /\
    ((~ (exists a b, exp_name = a +:+ "__" +:+ b) ->
      dget KEY.i_EXP_NAME config' =
        Some (VStr (exp_name +:+ "__"
                    +:+ convert_param_names param_names values))) /\
     ((exists a b, exp_name = a +:+ "__" +:+ b) ->
      dget KEY.i_EXP_NAME config' =
        Some (VStr (exp_name +:+ "_"
                    +:+ convert_param_names param_names values)))) /\
    dget KEY.i_NEST_DIR config' = Some name /\
    forall k, k <> KEY.i_EXP_NAME -> k <> KEY.i_NEST_DIR ->
              dget k config' = dget k config.
Proof.
  intros Hexp Hname. unfold extend_config_name.
  rewrite Hexp, (dgetE_some _ _ _ Hexp); simpl.
  unfold dgetE. dget_simpl. rewrite Hname.
  eexists; split; [reflexivity|]. split; [split|split].
  - intros Hno. dget_simpl.
    destruct (str_contains "__" exp_name) eqn:E; [|reflexivity].
    apply str_contains_spec in E. contradiction.
  - intros Hyes. dget_simpl. apply str_contains_spec in Hyes.
    now rewrite Hyes.
  - now dget_simpl.
  - intros k Hk1 Hk2. now dget_simpl.
Qed.

Lemma set_defaults_other (t t' : dict) (k : string) :
  set_defaults t = OK t' ->
  k <> KEY.i_BASIC_PATH -> k <> KEY.i_EXP_NAME -> k <> KEY.i_NEST_DIR ->
  dget k t' = dget k t.
Proof.
  unfold set_defaults. intros Hd Hk1 Hk2 Hk3.
  apply bind_ok in Hd as (c1 & H1 & Hd).
  apply bind_ok in Hd as (c2 & H2 & Hd).
  injection Hd as <-.
  assert (E1 : dget k c1 = dget k t).
  { destruct (dmem KEY.i_BASIC_PATH t); [now injection H1 as <-|].
    apply bind_ok in H1 as (p & _ & H1). injection H1 as <-. now dget_simpl. }
  assert (E2 : dget k c2 = dget k c1).
  { destruct (dmem KEY.i_EXP_NAME c1); [now injection H2 as <-|].
    apply bind_ok in H2 as (p & _ & H2). injection H2 as <-. now dget_simpl. }
  destruct (dmem KEY.i_NEST_DIR c2); dget_simpl; congruence.
Qed.

Lemma set_defaults_dmem (t t' : dict) (k : string) :
  set_defaults t = OK t' ->
  k <> KEY.i_BASIC_PATH -> k <> KEY.i_EXP_NAME -> k <> KEY.i_NEST_DIR ->
  dmem k t' = dmem k t.
Proof.
  intros. unfold dmem. now rewrite (set_defaults_other t t' k).
Qed.

Lemma expand_loop_nil (fuel : nat) (acc : list dict) (log : list warning) :
  expand_loop fuel [] acc log = OK (acc, log).
Proof. destruct fuel; reflexivity. Qed.

Lemma requeue_bound_no_list (t : dict) :
  dmem KEY.LIST t = false -> requeue_bound t = 0.
Proof. unfold requeue_bound. intros Hl%dmem_false. now rewrite Hl. Qed.

(** C9.  Without an iteration function the combination engine returns
    its template, unmodified, as a singleton list; a template with
    neither [grid] nor [list] reaches the engine that way, so that its
    expansion is the template with its default values (followed by its
    ablative variants when it has an [ablative] directive). *)
Theorem params_combine_identity :
  (forall (config : dict) (key : option string),
      params_combine config key None = OK ([config], []))
  /\ (forall t : dict,
        dmem KEY.GRID t = false -> dmem KEY.LIST t = false ->
        directive t = (None, None) /\
        expand_experiments [t] =
        do t' <- set_defaults t;
        do expansion <-
          (if dmem KEY.ABLATIVE t'
           then do ab <- ablative_expand [t']; OK ([t'] ++ ab)
           else OK [t']);
        OK (normalize_expanded_paths expansion, [])).
Proof.
  split; [reflexivity|]. intros t Hg Hl.
  split; [unfold directive; now rewrite Hg, Hl|].
  unfold expand_experiments, loop_budget; simpl.
  rewrite (requeue_bound_no_list t Hl); simpl.
  destruct (set_defaults t) as [t'|e] eqn:Hd; simpl; [|reflexivity].
  assert (Hg' : dmem KEY.GRID t' = false)
    by (rewrite (set_defaults_dmem t t') by key_neq; assumption).
  assert (Hl' : dmem KEY.LIST t' = false)
    by (rewrite (set_defaults_dmem t t') by key_neq; assumption).
  rewrite Hg'; simpl. unfold directive. rewrite Hg', Hl'; simpl.
  destruct (dmem KEY.ABLATIVE t'); simpl; [|reflexivity].
  destruct (ablative_expand [t']); reflexivity.
Qed.


Lemma ensure_params_other (c : dict) (k : string) :
  k <> KEY.PARAMS -> dget k (ensure_params c) = dget k c.
Proof.
  intros Hk. unfold ensure_params. destruct (dmem KEY.PARAMS c); [reflexivity|].
  now dget_simpl.
Qed.

Lemma ensure_params_dmem (c : dict) : dmem KEY.PARAMS (ensure_params c) = true.
Proof.
  unfold ensure_params. destruct (dmem KEY.PARAMS c) eqn:E; [assumption|].
  unfold dmem. now dget_simpl.
Qed.

Lemma ensure_params_insertable (c : dict) (t : keypath) :
  record_insertable (ensure_params c) t = record_insertable c t.
Proof.
  unfold ensure_params. destruct (dmem KEY.PARAMS c) eqn:E; [reflexivity|].
  apply dmem_false in E. unfold record_insertable. rewrite E. now dget_simpl.
Qed.

Lemma ensure_params_param (c : dict) (t : keypath) :
  record_param (ensure_params c) t = record_param c t.
Proof.
  unfold ensure_params. destruct (dmem KEY.PARAMS c) eqn:E; [reflexivity|].
  apply dmem_false in E. unfold record_param. rewrite E. dget_simpl.
  apply get_deep_nil.
Qed.

Lemma insert_param_inv (c c' : dict) (t : keypath) (v : value) :
  insert_param c t v = OK c' ->
  exists p p', dget KEY.PARAMS c = Some (VDict p) /\
               insert_deep_dictionary p t v = OK p' /\
               c' = dset KEY.PARAMS (VDict p') c.
Proof.
  unfold insert_param, dgetE. intros Hi.
  destruct (dget KEY.PARAMS c) as [[| | | |p]|]; try discriminate.
  simpl in Hi. apply bind_ok in Hi as (p' & Hp' & Hi). injection Hi as <-.
  eauto.
Qed.

Lemma insert_param_ok (c : dict) (t : keypath) (v : value) :
  dmem KEY.PARAMS c = true -> record_insertable c t = true ->
  exists c', insert_param c t v = OK c'.
Proof.
  unfold record_insertable, insert_param, dgetE. intros Hm Hi.
  apply dmem_true in Hm as [pv Hpv]. rewrite Hpv in *.
  destruct pv as [| | | |p]; try discriminate. simpl.
  destruct (insert_deep_insertable p t v Hi) as [p' ->]. simpl; eauto.
Qed.

Lemma insert_param_facts (c c' : dict) (t : keypath) (v : value) :
  insert_param c t v = OK c' ->
  dmem KEY.PARAMS c' = true /\
  (forall k, k <> KEY.PARAMS -> dget k c' = dget k c) /\
  record_param c' t = Some v /\
  (forall t', diverge t t' -> record_param c' t' = record_param c t') /\
  (forall t', record_insertable c t' = true -> strict_prefix t t' = false ->
              record_insertable c' t' = true).
Proof.
  intros (p & p' & Hp & Hi & ->)%insert_param_inv.
  unfold dmem, record_param, record_insertable. rewrite Hp. dget_simpl.
  split; [reflexivity|]. split; [intros k Hk; now dget_simpl|].
  split; [eapply get_deep_insert_eq; eauto|].
  split; [intros t' Hd; eapply get_deep_insert_diverge; eauto|].
  intros t' Ht' Hs. eapply insertable_insert; eauto.
Qed.

Lemma insert_values_ok (c : dict) (i : nat) (keys : list keypath)
    (values : list value) :
  dmem KEY.PARAMS c = true ->
  i + length keys <= length values ->
  Forall (fun t => record_insertable c t = true) keys ->
  ForallOrdPairs (fun a b => strict_prefix a b = false) keys ->
  exists c',
    insert_values c i keys values = OK c' /\
    dmem KEY.PARAMS c' = true /\
    (forall k, k <> KEY.PARAMS -> dget k c' = dget k c) /\
    (forall t', record_insertable c t' = true ->
                Forall (fun a => strict_prefix a t' = false) keys ->
                record_insertable c' t' = true).
Proof.
  revert c i; induction keys as [|t keys IH]; intros c i Hm Hlen Hins Hpre.
  - exists c. simpl. auto.
  - simpl in Hlen. inversion Hins as [|? ? Ht Hins']; subst.
    inversion Hpre as [|? ? Htk Hpre']; subst.
    destruct (lookup_lt_is_Some_2 values i ltac:(lia)) as [v Hv].
    destruct (insert_param_ok c t v Hm Ht) as [c1 Hc1].
    destruct (insert_param_facts _ _ _ _ Hc1) as (Hm1 & Ho1 & _ & _ & Hi1).
    destruct (IH c1 (S i) Hm1 ltac:(lia)) as (c' & Hc' & Hm' & Ho' & Hi');
      [| assumption |].
    { rewrite List.Forall_forall in *. intros a Ha. apply Hi1; auto. }
    exists c'. simpl. rewrite Hv, Hc1. simpl.
    split; [assumption|]. split; [assumption|].
    split; [intros k Hk; rewrite Ho', Ho1; auto|].
    intros t' Ht' Hall. inversion Hall; subst. apply Hi'; auto.
Qed.

Lemma insert_values_binds (c c' : dict) (i : nat) (keys : list keypath)
    (values : list value) :
  insert_values c i keys values = OK c' ->
  ForallOrdPairs diverge keys ->
  (forall j kp, keys !! j = Some kp -> record_param c' kp = values !! (i + j))
  /\ (forall t', Forall (fun a => diverge a t') keys ->
                 record_param c' t' = record_param c t').
Proof.
  revert c i; induction keys as [|t keys IH]; intros c i Hi Hd.
  - injection Hi as <-. split; [intros j kp Hj; discriminate | reflexivity].
  - simpl in Hi. destruct (values !! i) as [v|] eqn:Hv; [|discriminate].
    apply bind_ok in Hi as (c1 & Hc1 & Hi).
    inversion Hd as [|? ? Htk Hd']; subst.
    destruct (insert_param_facts _ _ _ _ Hc1) as (_ & _ & Heq & Hdiv & _).
    destruct (IH c1 (S i) Hi Hd') as [IH1 IH2].
    split.
    + intros [|j] kp Hj; simpl in Hj.
      * injection Hj as <-. rewrite Nat.add_0_r, Hv, IH2; [assumption|].
        eapply Forall_impl; [exact Htk|]. intros a. apply diverge_sym.
      * rewrite (IH1 j kp Hj). f_equal. lia.
    + intros t' Hall. inversion Hall; subst. rewrite IH2 by assumption.
      now apply Hdiv.
Qed.

Lemma extend_config_name_ok (config : dict) (param_names : list string)
    (values : list value) (exp_name : string) (name : value) :
  dget KEY.i_EXP_NAME config = Some (VStr exp_name) ->
  dget KEY.NAME config = Some name ->
  extend_config_name config param_names values =
  OK (dset KEY.i_NEST_DIR name
        (dset KEY.i_EXP_NAME
           (VStr (exp_name +:+ separator exp_name
                  +:+ convert_param_names param_names values)) config)).
Proof.
  intros Hexp Hname. unfold extend_config_name.
  rewrite Hexp, (dgetE_some _ _ _ Hexp); simpl.
  unfold dgetE. dget_simpl. now rewrite Hname.
Qed.

Lemma combine_values_ok (config : dict) (key : string) (td : tuple_dict)
    (names : list string) (values : list value) (exp_name : string)
    (name : value) :
  is_sweep_key key ->
  dget KEY.i_EXP_NAME config = Some (VStr exp_name) ->
  dget KEY.NAME config = Some name ->
  length values = length td ->
  Forall (fun t => record_insertable config t = true) (map fst td) ->
  ForallOrdPairs diverge (map fst td) ->
  exists r, combine_values config key td names values = OK r /\
            combined config key td values r.
Proof.
  intros Hkey Hexp Hname Hlen Hins Hdiv. unfold combine_values.
  assert (Hk : key <> KEY.PARAMS /\ key <> KEY.i_EXP_NAME /\
               key <> KEY.i_NEST_DIR /\ key <> KEY.NAME)
    by (destruct Hkey as [-> | ->]; repeat split; key_neq).
  destruct Hk as (Hk1 & Hk2 & Hk3 & Hk4).
  set (c0 := ensure_params (ddel key config)).
  assert (Hins0 : forall t, record_insertable c0 t = record_insertable config t).
  { intros t. unfold c0. rewrite ensure_params_insertable.
    apply record_insertable_eq. now dget_simpl. }
  assert (Hpar0 : forall t, record_param c0 t = record_param config t).
  { intros t. unfold c0. rewrite ensure_params_param.
    apply record_param_eq. now dget_simpl. }
  destruct (insert_values_ok c0 0 (map fst td) values) as (c1 & Hc1 & Hm1 & Ho1 & Hi1).
  - apply ensure_params_dmem.
  - rewrite length_map. simpl. lia.
  - eapply Forall_impl; [exact Hins|]. intros t Ht. simpl. now rewrite Hins0.
  - eapply ForallOrdPairs_impl; [|exact Hdiv]. apply diverge_strict_prefix.
  - destruct (insert_values_binds _ _ _ _ _ Hc1 Hdiv) as [Hb1 Hb2].
    assert (Hother : forall k, k <> key -> k <> KEY.PARAMS ->
                               dget k c1 = dget k config).
    { intros k Hk Hkp. rewrite Ho1 by assumption. unfold c0.
      rewrite ensure_params_other by assumption. now dget_simpl. }
    assert (Hkey1 : dget key c1 = None).
    { rewrite Ho1 by assumption. unfold c0.
      rewrite ensure_params_other by assumption. now dget_simpl. }
    rewrite Hc1. simpl.
    rewrite (extend_config_name_ok c1 names values exp_name name)
      by (rewrite Hother by key_neq; assumption).
    eexists; split; [reflexivity|]. unfold combined.
    split; [now dget_simpl|].
    split; [intros k ? ? ? ?; dget_simpl; auto|].
    split; [eexists; now dget_simpl|].
    split; [now dget_simpl|].
    split; [unfold dmem in *; now dget_simpl|].
    split; [|split].
    + intros j kp Hj. rewrite (record_param_eq _ c1) by now dget_simpl.
      now apply Hb1.
    + intros t' Hall. rewrite (record_param_eq _ c1) by now dget_simpl.
      rewrite <- Hpar0. now apply Hb2.
    + intros t' Ht' Hall. rewrite (record_insertable_eq _ c1) by now dget_simpl.
      apply Hi1; [now rewrite Hins0 | assumption].
Qed.

Lemma map_result_Forall2_ok {A B : Type} (f : A -> result B)
    (P : A -> B -> Prop) (l : list A) :
  (forall x, In x l -> exists y, f x = OK y /\ P x y) ->
  exists r, map_result f l = OK r /\ Forall2 P l r.
Proof.
  induction l as [|x l IH]; intros Hf; simpl.
  - exists []. split; [reflexivity | constructor].
  - destruct (Hf x (or_introl eq_refl)) as (y & Hy & HP).
    destruct IH as (r & Hr & HF); [intros z Hz; apply Hf; now right|].
    exists (y :: r). rewrite Hy, Hr. split; [reflexivity | now constructor].
Qed.

(** [params_combine] on a well-formed template: one record per tuple of
    the iteration, in its order. *)
Lemma params_combine_ok (config : dict) (key : string) (iter : iter_func)
    (sweep : value) (td : tuple_dict) (exp_name : string) (name : value) :
  is_sweep_key key ->
  dget key config = Some sweep ->
  keys_unique sweep = true ->
  flatten_dict_to_tuple_keys sweep = OK td ->
  dget KEY.i_EXP_NAME config = Some (VStr exp_name) ->
  dget KEY.NAME config = Some name ->
  Forall (fun t => record_insertable config t = true) (map fst td) ->
  exists records,
    params_combine config (Some key) (Some iter)
      = OK (records, combine_warnings key td name) /\
    Forall2 (combined config key td) (iterate iter (map snd td)) records.
Proof.
  intros Hkey Hsweep Hu Hf Hexp Hname Hins. unfold params_combine.
  rewrite (dgetE_some _ _ _ Hsweep); simpl. rewrite Hf; simpl.
  destruct (map_result_Forall2_ok
              (combine_values config key td
                 (map (String.concat ".") (map fst td)))
              (combined config key td) (iterate iter (map snd td)))
    as (records & Hr & HF).
  - intros values Hv. eapply combine_values_ok; eauto.
    + apply iterate_length_elem in Hv. now rewrite length_map in Hv.
    + eapply flatten_keys_diverge; eauto.
  - exists records. split; [|assumption]. unfold combine_warnings.
    destruct (String.eqb key KEY.LIST && lengths_differ td); simpl.
    + rewrite (dgetE_some _ _ _ Hname); simpl. now rewrite Hr.
    + now rewrite Hr.
Qed.

(** The contract of the path normalizer: it reconciles the path fields and
    leaves every other key of a record as it is. *)
Hypothesis normalize_record_frame :
  forall (r : dict) (k : string),
    k <> KEY.PATH -> k <> KEY.LOG_PATH ->
    k <> KEY.i_BASIC_PATH -> k <> KEY.i_NEST_DIR ->
    dget k (normalize_record r) = dget k r.

Lemma normalize_record_param (r : dict) (t : keypath) :
  record_param (normalize_record r) t = record_param r t.
Proof. apply record_param_eq. apply normalize_record_frame; key_neq. Qed.

Lemma set_defaults_template (t : dict) (name : string) :
  is_template t -> dget KEY.NAME t = Some (VStr name) ->
  exists t',
    set_defaults t = OK t' /\
    (forall k, k <> KEY.i_BASIC_PATH -> k <> KEY.i_EXP_NAME ->
               k <> KEY.i_NEST_DIR -> dget k t' = dget k t) /\
    dget KEY.i_EXP_NAME t' = Some (VStr name) /\
    dget KEY.i_NEST_DIR t' = Some (VStr "") /\
    dmem KEY.i_BASIC_PATH t' = true.
Proof.
  intros (_ & Hpath & Hb & He & Hn) Hname.
  apply dmem_true in Hpath as [p Hp].
  exists (dset KEY.i_NEST_DIR (VStr "")
            (dset KEY.i_EXP_NAME (VStr name) (dset KEY.i_BASIC_PATH p t))).
  split; [|split; [|split; [|split]]].
  - unfold set_defaults. rewrite Hb. unfold dgetE. rewrite Hp. simpl.
    unfold dmem in *. dget_simpl.
    destruct (dget KEY.i_EXP_NAME t); [discriminate|]. rewrite Hname. simpl.
    dget_simpl. destruct (dget KEY.i_NEST_DIR t); [discriminate|]. reflexivity.
  - intros k ? ? ?. now dget_simpl.
  - now dget_simpl.
  - now dget_simpl.
  - unfold dmem. now dget_simpl.
Qed.

(** A record that went through the unfolder once keeps its fields when
    its defaults are set again. *)
Lemma set_defaults_again (c : dict) :
  dmem KEY.i_BASIC_PATH c = true -> dmem KEY.i_EXP_NAME c = true ->
  dmem KEY.i_NEST_DIR c = true -> set_defaults c = OK c.
Proof.
  intros Hb He Hn. unfold set_defaults. rewrite Hb. simpl. rewrite He. simpl.
  now rewrite Hn.
Qed.

Lemma loop_budget_cons (c : dict) (queue : list dict) :
  loop_budget (c :: queue) = S (requeue_bound c + loop_budget queue).
Proof. unfold loop_budget. simpl. lia. Qed.

(** One turn of the loop for a template that is not both a grid and a
    list. *)
Lemma expand_loop_plain (fuel : nat) (c c' : dict) (queue acc : list dict)
    (log : list warning) :
  set_defaults c = OK c' ->
  dmem KEY.GRID c' && dmem KEY.LIST c' = false ->
  expand_loop (S fuel) (c :: queue) acc log =
  do (expansion, warns) <-
    params_combine c' (fst (directive c')) (snd (directive c'));
  do expansion <-
    (if dmem KEY.ABLATIVE c'
     then do ab <- ablative_expand expansion; OK (expansion ++ ab)
     else OK expansion);
  expand_loop fuel queue (acc ++ expansion) (log ++ warns).
Proof. intros Hd Hb. simpl. rewrite Hd. simpl. now rewrite Hb. Qed.

(** One turn of the loop for a template that is both a grid and a list. *)
Lemma expand_loop_both (fuel : nat) (c c' : dict) (queue acc : list dict)
    (log : list warning) :
  set_defaults c = OK c' ->
  dmem KEY.GRID c' && dmem KEY.LIST c' = true ->
  expand_loop (S fuel) (c :: queue) acc log =
  do (combined, warns) <- params_combine c' (Some KEY.LIST) (Some zip);
  expand_loop fuel (queue ++ combined) acc (log ++ warns).
Proof. intros Hd Hb. simpl. rewrite Hd. simpl. now rewrite Hb. Qed.

Lemma Forall2_lookup_r_inv {A B : Type} (P : A -> B -> Prop) (l : list A)
    (k : list B) (i : nat) (y : B) :
  Forall2 P l k -> k !! i = Some y -> exists x, l !! i = Some x /\ P x y.
Proof. intros HF Hy. eapply Forall2_lookup_r; eauto. Qed.

Lemma combined_bound_tuple (config : dict) (key : string) (td : tuple_dict)
    (values : list value) (r : dict) :
  length values = length td -> combined config key td values r ->
  bound_tuple td r = map Some values.
Proof.
  intros Hlen (_ & _ & _ & _ & _ & Hb & _). unfold bound_tuple.
  apply list_eq. intros j. rewrite !list_lookup_fmap.
  destruct (td !! j) as [[kp vals]|] eqn:Hj; simpl.
  - rewrite (Hb j kp) by (rewrite list_lookup_fmap, Hj; reflexivity).
    destruct (lookup_lt_is_Some_2 values j) as [v ->]; [|reflexivity].
    rewrite Hlen. now apply lookup_lt_Some in Hj.
  - rewrite lookup_ge_None_2; [reflexivity|].
    rewrite Hlen. now apply lookup_ge_None_1 in Hj.
Qed.

Lemma lengths_map_snd (td : tuple_dict) :
  map (@length value) (map snd td) = lengths td.
Proof. unfold lengths. now rewrite map_map. Qed.

(** C1 (amended).  A template with only a [grid] directive, whose
    flattened key-paths have candidate lists of lengths [n1..nk], expands
    to exactly [n1 * ... * nk] records and logs nothing.  The record at
    position [i] binds every key-path, in its [params] tree, to the
    candidate at position [digit (lengths td) i j] of its list: the
    cross-product order, the first key-path varying slowest.  The tuples
    the records bind are pairwise different whenever no candidate list
    repeats a value. *)
Theorem grid_expansion_cross_product (t : dict) (G : value) (td : tuple_dict) :
  is_template t ->
  dget KEY.GRID t = Some G ->
  dmem KEY.LIST t = false ->
  dmem KEY.ABLATIVE t = false ->
  keys_unique G = true ->
  flatten_dict_to_tuple_keys G = OK td ->
  Forall (fun kp => record_insertable t kp = true) (map fst td) ->
  exists records,
    expand_experiments [t] = OK (records, []) /\
    length records = prod_list (lengths td) /\
    (forall i r j kp vals,
        records !! i = Some r -> td !! j = Some (kp, vals) ->
        digit (lengths td) i j < length vals /\
        record_param r kp = vals !! digit (lengths td) i j) /\
    (Forall (fun kv => NoDup (snd kv)) td ->
     NoDup (map (bound_tuple td) records)).
Proof.
  intros Ht Hgrid Hlist Habl Hu Hf Hins.
  destruct Ht as [[name Hname] Ht'].
  destruct (set_defaults_template t name) as (t' & Hd & Ho & He & _ & _);
    [split; eauto | assumption |].
  assert (Hg' : dget KEY.GRID t' = Some G) by (rewrite Ho by key_neq; auto).
  assert (Hl' : dmem KEY.LIST t' = false)
    by (unfold dmem; rewrite Ho by key_neq; exact Hlist).
  assert (Ha' : dmem KEY.ABLATIVE t' = false)
    by (unfold dmem; rewrite Ho by key_neq; exact Habl).
  assert (Hdir : directive t' = (Some KEY.GRID, Some product)).
  { unfold directive. rewrite Hl'. unfold dmem. now rewrite Hg'. }
  destruct (params_combine_ok t' KEY.GRID product G td name (VStr name))
    as (recs & Hpc & HF); auto.
  { now left. }
  { rewrite Ho by key_neq. assumption. }
  { eapply Forall_impl; [exact Hins|]. intros kp Hkp. simpl.
    rewrite (record_insertable_eq t' t); [assumption|]. apply Ho; key_neq. }
  assert (Hlenv : forall values, In values (py_product (map snd td)) ->
                                 length values = length td).
  { intros values Hv. apply py_product_length_elem in Hv.
    now rewrite length_map in Hv. }
  exists (map normalize_record recs). split; [|split; [|split]].
  - unfold expand_experiments. rewrite loop_budget_cons.
    rewrite (expand_loop_plain _ t t') by (auto; now rewrite Hl', andb_false_r).
    rewrite Hdir. simpl fst; simpl snd. rewrite Hpc. simpl.
    rewrite Ha'. simpl. now rewrite expand_loop_nil.
  - rewrite length_map. apply Forall2_length in HF. rewrite <- HF. simpl.
    now rewrite length_py_product, lengths_map_snd.
  - intros i r j kp vals Hi Hj. rewrite list_lookup_fmap in Hi.
    destruct (recs !! i) as [r0|] eqn:Hr0; [|discriminate].
    injection Hi as <-.
    destruct (Forall2_lookup_r_inv _ _ _ _ _ HF Hr0) as (values & Hv & Hc).
    simpl in Hv.
    assert (Hvj : values !! j = vals !! digit (lengths td) i j).
    { rewrite <- lengths_map_snd. eapply py_product_lookup; eauto.
      rewrite list_lookup_fmap, Hj. reflexivity. }
    assert (Hsome : is_Some (values !! j)).
    { apply lookup_lt_is_Some_2. rewrite Hlenv.
      - now apply lookup_lt_Some in Hj.
      - apply list_elem_of_In. eapply list_elem_of_lookup_2; eauto. }
    split.
    + rewrite Hvj in Hsome. now apply lookup_lt_is_Some_1.
    + rewrite normalize_record_param. rewrite <- Hvj.
      destruct Hc as (_ & _ & _ & _ & _ & Hb & _). apply Hb.
      rewrite list_lookup_fmap, Hj. reflexivity.
  - intros Hnd.
    assert (E : map (bound_tuple td) (map normalize_record recs)
                = map (map Some) (py_product (map snd td))).
    { rewrite map_map. simpl in HF. clear Hpc.
      induction HF as [|values r ? ? Hc HF IH]; simpl; [reflexivity|].
      f_equal.
      - unfold bound_tuple.
        erewrite map_ext; [|intros kp; apply normalize_record_param].
        eapply combined_bound_tuple; [|exact Hc]. apply Hlenv. now left.
      - apply IH. intros v Hv. apply Hlenv. now right. }
    rewrite E. apply NoDup_fmap_2.
    + intros a b Hab. revert b Hab.
      induction a as [|x a IH]; intros [|y b] Hab; try discriminate;
        [reflexivity|]. injection Hab as -> Hab. f_equal. auto.
    + apply NoDup_py_product. apply Forall_forall.
      intros l [kv [<- Hkv]]%list_elem_of_In%in_map_iff.
      rewrite Forall_forall in Hnd. apply Hnd. now apply list_elem_of_In.
Qed.

(** The guard of the warning, [len(set(param_lengths)) != 1], holds when
    two candidate lists differ in length, and also when the directive has
    no candidate list at all. *)
Lemma lengths_differ_spec (td : list (list string * list value)) :
  lengths_differ td = true <->
  td = [] \/
  exists a b, In a td /\ In b td /\ length (snd a) <> length (snd b).
Proof.
  unfold lengths_differ. rewrite negb_true_iff, Nat.eqb_neq.
  rewrite nodup_singleton_iff. split.
  - intros Hno. destruct td as [|kv td]; [now left|]. right.
    assert (Hdec : forall a : list string * list value,
               {length (snd a) <> length (snd kv)}
               + {~ length (snd a) <> length (snd kv)}).
    { intros a. destruct (Nat.eq_dec (length (snd a)) (length (snd kv)));
        [right; tauto | left; assumption]. }
    destruct (List.Exists_dec
                (fun a => length (snd a) <> length (snd kv)) (kv :: td) Hdec)
      as [Hex|Hall].
    + apply List.Exists_exists in Hex as (a & Ha & Hne).
      exists a, kv. split; [assumption|]. split; [now left | assumption].
    + exfalso. apply Hno. split; [discriminate|].
      assert (Hk : forall n, In n (map (fun kv0 => length (snd kv0)) (kv :: td))
                             -> n = length (snd kv)).
      { intros n (a & <- & Ha)%in_map_iff.
        destruct (Nat.eq_dec (length (snd a)) (length (snd kv))); [assumption|].
        exfalso. apply Hall. apply List.Exists_exists. eauto. }
      intros a b Ha Hb. rewrite (Hk a Ha), (Hk b Hb). reflexivity.
  - intros [-> | (a & b & Ha & Hb & Hne)] [Hnil Heq].
    + now apply Hnil.
    + apply Hne. apply Heq; apply in_map_iff; eauto.
Qed.

(** X2.  A template with only a [list] directive expands to exactly
    [min(n1..nk)] records (none when the directive has no key-path): the
    record at position [i] binds every key-path to the candidate at
    position [i] of its list.  The warning is logged once exactly when
    the guard [len(set(lengths)) != 1] holds: when two lists differ in
    length or when there is no list at all. *)
Theorem list_expansion_zip (t : dict) (L : value)
    (td : list (list string * list value)) (name : string) :
  is_template t ->
  dget KEY.NAME t = Some (VStr name) ->
  dget KEY.LIST t = Some L ->
  dmem KEY.GRID t = false ->
  dmem KEY.ABLATIVE t = false ->
  keys_unique L = true ->
  flatten_dict_to_tuple_keys L = OK td ->
  Forall (fun kp => record_insertable t kp = true) (map fst td) ->
  exists records log,
    expand_experiments [t] = OK (records, log) /\
    length records = min_list (lengths td) /\
    (forall i r j kp vals,
        records !! i = Some r -> td !! j = Some (kp, vals) ->
        i < length vals /\ record_param r kp = vals !! i) /\
    ((td = [] \/
      exists a b, In a td /\ In b td /\ length (snd a) <> length (snd b)) ->
     log = [ListParamsNotOfEqualLength (VStr name)]) /\
    (td <> [] ->
     (forall a b, In a td -> In b td -> length (snd a) = length (snd b)) ->
     log = []).
Proof.
  intros Ht Hname Hlist Hgrid Habl Hu Hf Hins.
  destruct (set_defaults_template t name) as (t' & Hd & Ho & He & _ & _);
    [assumption | assumption |].
  assert (Hl' : dget KEY.LIST t' = Some L) by (rewrite Ho by key_neq; auto).
  assert (Hg' : dmem KEY.GRID t' = false)
    by (unfold dmem; rewrite Ho by key_neq; exact Hgrid).
  assert (Ha' : dmem KEY.ABLATIVE t' = false)
    by (unfold dmem; rewrite Ho by key_neq; exact Habl).
  assert (Hdir : directive t' = (Some KEY.LIST, Some zip)).
  { unfold directive. rewrite Hg'. unfold dmem. now rewrite Hl'. }
  destruct (params_combine_ok t' KEY.LIST zip L td name (VStr name))
    as (recs & Hpc & HF); auto.
  { now right. }
  { rewrite Ho by key_neq. assumption. }
  { eapply Forall_impl; [exact Hins|]. intros kp Hkp. simpl.
    rewrite (record_insertable_eq t' t); [assumption|]. apply Ho; key_neq. }
  exists (map normalize_record recs), (combine_warnings KEY.LIST td (VStr name)).
  split; [|split; [|split; [|split]]].
  - unfold expand_experiments. rewrite loop_budget_cons.
    rewrite (expand_loop_plain _ t t') by (auto; now rewrite Hg').
    rewrite Hdir. simpl fst; simpl snd. rewrite Hpc. simpl.
    rewrite Ha'. simpl. now rewrite expand_loop_nil.
  - rewrite length_map. apply Forall2_length in HF. rewrite <- HF. simpl.
    now rewrite length_py_zip, lengths_map_snd.
  - intros i r j kp vals Hi Hj. rewrite list_lookup_fmap in Hi.
    destruct (recs !! i) as [r0|] eqn:Hr0; [|discriminate].
    injection Hi as <-.
    destruct (Forall2_lookup_r_inv _ _ _ _ _ HF Hr0) as (values & Hv & Hc).
    simpl in Hv.
    destruct (py_zip_lookup (map snd td) i j values vals Hv) as (_ & Hvj & Hlt).
    { rewrite list_lookup_fmap, Hj. reflexivity. }
    split; [assumption|].
    rewrite normalize_record_param. rewrite <- Hvj.
    destruct Hc as (_ & _ & _ & _ & _ & Hb & _). apply Hb.
    rewrite list_lookup_fmap, Hj. reflexivity.
  - intros Hdiff%lengths_differ_spec. unfold combine_warnings.
    now rewrite Hdiff.
  - intros Hne Heq. unfold combine_warnings.
    destruct (lengths_differ td) eqn:Hdiff; [|reflexivity].
    apply lengths_differ_spec in Hdiff as [->|(a & b & Ha & Hb & Hab)];
      [congruence|]. exfalso. apply Hab. now apply Heq.
Qed.

(* ----------------------------------------------------------------- *)
(** *** What a successful call tells *)

Lemma extend_config_name_inv (config : dict) (param_names : list string)
    (values : list value) (r : dict) :
  extend_config_name config param_names values = OK r ->
  exists s name,
    dget KEY.i_EXP_NAME config = Some (VStr s) /\
    dget KEY.NAME config = Some name /\
    r = dset KEY.i_NEST_DIR name
          (dset KEY.i_EXP_NAME
             (VStr (s +:+ separator s
                    +:+ convert_param_names param_names values)) config).
Proof.
  unfold extend_config_name, dgetE. intros He.
  destruct (dget KEY.i_EXP_NAME config) as [[| |s| |]|] eqn:Hs;
    try discriminate.
  simpl in He. revert He. dget_simpl.
  destruct (dget KEY.NAME config) as [name|]; [|discriminate].
  simpl. intros [= <-]. eauto.
Qed.

Lemma insert_values_other (c c' : dict) (i : nat) (keys : list (list string))
    (values : list value) (k : string) :
  insert_values c i keys values = OK c' -> k <> KEY.PARAMS ->
  dget k c' = dget k c.
Proof.
  intros Hi Hk. revert c i Hi.
  induction keys as [|t keys IH]; intros c i Hi; simpl in Hi.
  - now injection Hi as <-.
  - destruct (values !! i); [|discriminate].
    apply bind_ok in Hi as (c1 & Hc1 & Hi).
    rewrite (IH _ _ Hi).
    destruct (insert_param_facts _ _ _ _ Hc1) as (_ & Ho & _). now apply Ho.
Qed.

Lemma combine_values_inv (config : dict) (key : string)
    (td : list (list string * list value)) (names : list string)
    (values : list value) (r : dict) :
  is_sweep_key key ->
  combine_values config key td names values = OK r ->
  combined_keys config key r.
Proof.
  intros Hkey Hc. unfold combine_values in Hc.
  assert (Hk : key <> KEY.PARAMS /\ key <> KEY.i_EXP_NAME /\
               key <> KEY.i_NEST_DIR)
    by (destruct Hkey as [-> | ->]; repeat split; key_neq).
  destruct Hk as (Hk1 & Hk2 & Hk3).
  apply bind_ok in Hc as (c1 & Hc1 & Hc).
  apply extend_config_name_inv in Hc as (s & name & Hs & Hn & ->).
  assert (Hother : forall k, k <> key -> k <> KEY.PARAMS ->
                             dget k c1 = dget k config).
  { intros k Hk Hkp. rewrite (insert_values_other _ _ _ _ _ _ Hc1 Hkp).
    rewrite ensure_params_other by assumption. now dget_simpl. }
  unfold combined_keys, dmem. split; [|split; [|split]].
  - dget_simpl. rewrite (insert_values_other _ _ _ _ _ _ Hc1 Hk1).
    rewrite ensure_params_other by assumption. now dget_simpl.
  - eexists. now dget_simpl.
  - now dget_simpl.
  - intros k ? ? ? ?. dget_simpl. auto.
Qed.

Lemma params_combine_inv (config : dict) (key : string) (f : iter_func)
    (records : list dict) (log : list warning) :
  is_sweep_key key ->
  params_combine config (Some key) (Some f) = OK (records, log) ->
  Forall (combined_keys config key) records.
Proof.
  intros Hkey Hpc. unfold params_combine in Hpc.
  apply bind_ok in Hpc as (sweep & _ & Hpc).
  apply bind_ok in Hpc as (td & _ & Hpc).
  apply bind_ok in Hpc as (warns & _ & Hpc).
  apply bind_ok in Hpc as (recs & Hrecs & Hpc). injection Hpc as <- _.
  apply map_result_Forall2 in Hrecs.
  induction Hrecs as [|values r ? ? Hr _ IH]; constructor; [|exact IH].
  eapply combine_values_inv; eauto.
Qed.

Lemma ablative_variant_inv (config : dict) (key : list string) (val : value)
    (r : dict) :
  ablative_variant config key val = OK r ->
  forall k, k <> KEY.PARAMS -> k <> KEY.i_EXP_NAME -> k <> KEY.i_NEST_DIR ->
            dget k r = dget k config.
Proof.
  unfold ablative_variant. intros Ha k Hk1 Hk2 Hk3.
  apply bind_ok in Ha as (c1 & Hc1 & Ha).
  apply extend_config_name_inv in Ha as (s & name & _ & _ & ->).
  dget_simpl. destruct (insert_param_facts _ _ _ _ Hc1) as (_ & Ho & _).
  rewrite Ho by assumption. now apply ensure_params_other.
Qed.

Lemma map_result_In {A B : Type} (f : A -> result B) (l : list A)
    (r : list B) (y : B) :
  map_result f l = OK r -> In y r -> exists x, In x l /\ f x = OK y.
Proof.
  intros Hr%map_result_Forall2 Hy.
  induction Hr as [|x y' ? ? Hx _ IH]; [contradiction|].
  destruct Hy as [<-|Hy]; [exists x; simpl; auto|].
  destruct (IH Hy) as (x' & Hx' & Hf). exists x'. simpl; auto.
Qed.

Lemma ablative_expand_inv (conf_list variants : list dict) (r : dict) :
  ablative_expand conf_list = OK variants -> In r variants ->
  exists config,
    In config conf_list /\
    forall k, k <> KEY.PARAMS -> k <> KEY.i_EXP_NAME -> k <> KEY.i_NEST_DIR ->
              dget k r = dget k config.
Proof.
  unfold ablative_expand. intros Ha Hr.
  apply bind_ok in Ha as (per & Hper & Ha). injection Ha as <-.
  apply in_concat in Hr as (part & Hpart & Hr).
  destruct (map_result_In _ _ _ _ Hper Hpart) as (config & Hc & Hac).
  exists config. split; [assumption|].
  unfold ablative_config in Hac.
  apply bind_ok in Hac as (sweep & _ & Hac).
  apply bind_ok in Hac as (td & _ & Hac).
  apply bind_ok in Hac as (per_key & Hpk & Hac). injection Hac as <-.
  apply in_concat in Hr as (vs & Hvs & Hr).
  destruct (map_result_In _ _ _ _ Hpk Hvs) as (kv & _ & Hkv).
  destruct (map_result_In _ _ _ _ Hkv Hr) as (val & _ & Hval).
  eapply ablative_variant_inv; eauto.
Qed.

(* ----------------------------------------------------------------- *)
(** *** The step budget of the work list is never used up *)

Lemma genuine_extend_config_name (config : dict) (names : list string)
    (values : list value) :
  genuine (extend_config_name config names values).
Proof.
  unfold extend_config_name.
  apply genuine_bind.
  { destruct (dget KEY.i_EXP_NAME config) as [[| | | |]|]; discriminate. }
  intros sep _. apply genuine_bind; [apply genuine_dgetE|].
  intros [| |s| |] _; try discriminate.
  apply genuine_bind; [apply genuine_dgetE|]. intros; apply genuine_ok.
Qed.

Lemma genuine_insert_param (config : dict) (t : list string) (v : value) :
  genuine (insert_param config t v).
Proof.
  unfold insert_param. apply genuine_bind; [apply genuine_dgetE|].
  intros [| | | |p] _; try discriminate.
  apply genuine_bind; [apply genuine_insert_deep|]. intros; apply genuine_ok.
Qed.

Lemma genuine_insert_values (config : dict) (i : nat)
    (keys : list (list string)) (values : list value) :
  genuine (insert_values config i keys values).
Proof.
  revert config i; induction keys as [|t keys IH]; intros config i; simpl;
    [apply genuine_ok|].
  destruct (values !! i); [|discriminate].
  apply genuine_bind; [apply genuine_insert_param|]. intros; apply IH.
Qed.

Lemma genuine_params_combine (config : dict) (key : option string)
    (f : option iter_func) :
  genuine (params_combine config key f).
Proof.
  unfold params_combine. destruct f as [iter|]; [|apply genuine_ok].
  destruct key as [key|]; [|discriminate].
  apply genuine_bind; [apply genuine_dgetE|]. intros sweep _.
  apply genuine_bind; [apply genuine_flatten|]. intros td _.
  apply genuine_bind.
  { destruct (String.eqb key KEY.LIST && lengths_differ td);
      [|apply genuine_ok].
    apply genuine_bind; [apply genuine_dgetE|]. intros; apply genuine_ok. }
  intros warns _. apply genuine_bind; [|intros; apply genuine_ok].
  apply genuine_map_result. intros values. unfold combine_values.
  apply genuine_bind; [apply genuine_insert_values|].
  intros; apply genuine_extend_config_name.
Qed.

Lemma genuine_ablative_expand (conf_list : list dict) :
  genuine (ablative_expand conf_list).
Proof.
  unfold ablative_expand. apply genuine_bind; [|intros; apply genuine_ok].
  apply genuine_map_result. intros config. unfold ablative_config.
  apply genuine_bind; [apply genuine_dgetE|]. intros sweep _.
  apply genuine_bind; [apply genuine_flatten|]. intros td _.
  apply genuine_bind; [|intros; apply genuine_ok].
  apply genuine_map_result. intros kv. apply genuine_map_result. intros val.
  unfold ablative_variant.
  apply genuine_bind; [apply genuine_insert_param|].
  intros; apply genuine_extend_config_name.
Qed.

Lemma genuine_set_defaults (config : dict) : genuine (set_defaults config).
Proof.
  unfold set_defaults. apply genuine_bind.
  { destruct (dmem KEY.i_BASIC_PATH config); [apply genuine_ok|].
    apply genuine_bind; [apply genuine_dgetE|]. intros; apply genuine_ok. }
  intros c1 _. apply genuine_bind; [|intros; apply genuine_ok].
  destruct (dmem KEY.i_EXP_NAME c1); [apply genuine_ok|].
  apply genuine_bind; [apply genuine_dgetE|]. intros; apply genuine_ok.
Qed.

Lemma requeue_bound_combined (config : dict) (key : string) (r : dict) :
  is_sweep_key key -> key = KEY.LIST -> combined_keys config key r ->
  requeue_bound r = 0.
Proof.
  intros _ -> (Hk & _). unfold requeue_bound. now rewrite Hk.
Qed.

Lemma list_sum_zero (l : list nat) :
  Forall (fun n => n = 0) l -> list_sum l = 0.
Proof. induction 1 as [|n l -> _ IH]; simpl; auto. Qed.

(** The records a grid-and-list template puts back on the work list are
    at most [requeue_bound] many, and put nothing back themselves. *)
Lemma requeue_within_bound (c c' : dict) (records : list dict)
    (log : list warning) :
  set_defaults c = OK c' ->
  params_combine c' (Some KEY.LIST) (Some zip) = OK (records, log) ->
  length records <= requeue_bound c /\
  list_sum (map requeue_bound records) = 0.
Proof.
  intros Hd Hpc. split.
  - unfold requeue_bound.
    rewrite <- (set_defaults_other c c' KEY.LIST Hd) by key_neq.
    unfold params_combine in Hpc.
    apply bind_ok in Hpc as (sweep & Hsweep & Hpc).
    apply bind_ok in Hpc as (td & Htd & Hpc).
    apply bind_ok in Hpc as (warns & _ & Hpc).
    apply bind_ok in Hpc as (recs & Hrecs & Hpc). injection Hpc as <- _.
    unfold dgetE in Hsweep.
    destruct (dget KEY.LIST c') as [sw|]; [|discriminate].
    injection Hsweep as ->. rewrite Htd.
    apply map_result_Forall2, Forall2_length in Hrecs. rewrite <- Hrecs.
    simpl. rewrite length_py_zip, map_map. apply min_list_le_sum.
  - apply list_sum_zero. apply List.Forall_map.
    eapply Forall_impl;
      [eapply (params_combine_inv c' KEY.LIST zip); [now right | exact Hpc]|].
    intros r Hr. simpl. eapply requeue_bound_combined; eauto. now right.
Qed.

Lemma loop_budget_app (q1 q2 : list dict) :
  loop_budget (q1 ++ q2) = loop_budget q1 + loop_budget q2.
Proof.
  unfold loop_budget. rewrite length_app, map_app, list_sum_app. lia.
Qed.

(** With the budget of its queue, the loop ends with a result or with a
    Python exception. *)
Lemma expand_loop_fuel (fuel : nat) (queue acc : list dict)
    (log : list warning) :
  loop_budget queue <= fuel -> genuine (expand_loop fuel queue acc log).
Proof.
  revert queue acc log; induction fuel as [|fuel IH]; intros queue acc log Hb.
  - destruct queue; [apply genuine_ok|].
    rewrite loop_budget_cons in Hb. lia.
  - destruct queue as [|c queue]; [apply genuine_ok|].
    rewrite loop_budget_cons in Hb.
    destruct (set_defaults c) as [c'|e] eqn:Hd.
    + destruct (dmem KEY.GRID c' && dmem KEY.LIST c') eqn:Hboth.
      * rewrite (expand_loop_both _ _ _ _ _ _ Hd Hboth).
        apply genuine_bind; [apply genuine_params_combine|].
        intros [recs warns] Hpc.
        destruct (requeue_within_bound _ _ _ _ Hd Hpc) as [Hlen Hzero].
        apply IH. rewrite loop_budget_app. unfold loop_budget at 2.
        rewrite Hzero. lia.
      * rewrite (expand_loop_plain _ _ _ _ _ _ Hd Hboth).
        apply genuine_bind; [apply genuine_params_combine|].
        intros [recs warns] _. apply genuine_bind.
        { destruct (dmem KEY.ABLATIVE c'); [|apply genuine_ok].
          apply genuine_bind; [apply genuine_ablative_expand|].
          intros; apply genuine_ok. }
        intros expansion _. apply IH. lia.
    + simpl. rewrite Hd. simpl. intros [= ->].
      now apply (genuine_set_defaults c).
Qed.

(* ----------------------------------------------------------------- *)
(** *** Grid and list together *)

Lemma length_concat_const {A : Type} (parts : list (list A)) (g : nat) :
  Forall (fun part => length part = g) parts ->
  length (concat parts) = length parts * g.
Proof.
  induction 1 as [|part parts Hp _ IH]; simpl; [reflexivity|].
  rewrite length_app, Hp, IH. reflexivity.
Qed.

Lemma lookup_concat_const {A : Type} (parts : list (list A)) (g i k : nat) :
  Forall (fun part => length part = g) parts -> k < g ->
  concat parts !! (i * g + k)
  = match parts !! i with
    | Some part => part !! k
    | None => None
    end.
Proof.
  intros Hparts Hk. revert i.
  induction Hparts as [|part parts Hp _ IH]; intros i; [reflexivity|].
  destruct i as [|i]; simpl.
  - apply lookup_app_l. lia.
  - rewrite lookup_app_r by lia. rewrite <- (IH i). f_equal. lia.
Qed.

Lemma Forall2_exists {A B : Type} (Q : A -> B -> Prop) (l : list A) :
  (forall x, In x l -> exists y, Q x y) -> exists k, Forall2 Q l k.
Proof.
  induction l as [|x l IH]; intros HQ.
  - exists []. constructor.
  - destruct (HQ x (or_introl eq_refl)) as [y Hy].
    destruct IH as [k Hk]; [intros z Hz; apply HQ; now right|].
    exists (y :: k). now constructor.
Qed.

(** The loop over re-enqueued grid-only records: each is replaced by its
    cross-product. *)
Lemma expand_loop_requeued (G : value) (queue : list dict)
    (parts : list (list dict)) :
  Forall2 (fun r part =>
             requeued G r /\
             params_combine r (Some KEY.GRID) (Some product) = OK (part, []))
          queue parts ->
  forall fuel acc log,
    length queue <= fuel ->
    expand_loop fuel queue acc log = OK (acc ++ concat parts, log).
Proof.
  induction 1 as [|r part queue parts [(Hd & Hl & Ha & Hg) Hpc] _ IH];
    intros fuel acc log Hfuel.
  - simpl. now rewrite expand_loop_nil, app_nil_r.
  - destruct fuel as [|fuel]; [simpl in Hfuel; lia|].
    rewrite (expand_loop_plain _ r r) by (auto; now rewrite Hl, andb_false_r).
    assert (Hdir : directive r = (Some KEY.GRID, Some product)).
    { unfold directive. rewrite Hl. unfold dmem. now rewrite Hg. }
    rewrite Hdir. simpl fst; simpl snd. rewrite Hpc. simpl. rewrite Ha. simpl.
    rewrite IH by (simpl in Hfuel; lia).
    now rewrite app_nil_r, <- app_assoc.
Qed.

(** C2 (amended).  A template whose directives are a [grid] and a
    [list], and that has no [ablative] directive: the [list] directive is
    resolved first, by positional pairing, into [n = min] of the list
    lengths records, the record at position [i] binding every key-path of
    the list to the candidate at position [i]; these records have lost
    [list] and kept [grid].  They go back on the work list, each is then
    expanded as a grid-only template into [g] records ([g] the product of
    the grid lengths), and the expansion returns these [n * g] records:
    the record at position [i * g + k] binds the key-paths of the grid in
    the cross-product order, by the digits of [k], and every key-path of
    the list that diverges from those of the grid to its candidate at
    position [i]. *)
Theorem grid_and_list_expansion (t : dict) (G L : value)
    (tdG tdL : list (list string * list value)) (name : string) :
  is_template t ->
  dget KEY.NAME t = Some (VStr name) ->
  dget KEY.GRID t = Some G ->
  dget KEY.LIST t = Some L ->
  dmem KEY.ABLATIVE t = false ->
  keys_unique G = true ->
  keys_unique L = true ->
  flatten_dict_to_tuple_keys G = OK tdG ->
  flatten_dict_to_tuple_keys L = OK tdL ->
  Forall (fun kp => record_insertable t kp = true) (map fst tdL) ->
  Forall (fun kp => record_insertable t kp = true) (map fst tdG) ->
  (forall kl kg, In kl (map fst tdL) -> In kg (map fst tdG) ->
                 strict_prefix kl kg = false) ->
  exists records log,
    expand_experiments [t] = OK (records, log) /\
    length records = min_list (lengths tdL) * prod_list (lengths tdG) /\
    (forall i k r,
        k < prod_list (lengths tdG) ->
        records !! (i * prod_list (lengths tdG) + k) = Some r ->
        (forall j kp vals,
            tdG !! j = Some (kp, vals) ->
            record_param r kp = vals !! digit (lengths tdG) k j) /\
        (forall j kp vals,
            tdL !! j = Some (kp, vals) ->
            Forall (fun kg => diverge kg kp) (map fst tdG) ->
            record_param r kp = vals !! i)) /\
    exists t' paired parts,
      set_defaults t = OK t' /\
      params_combine t' (Some KEY.LIST) (Some zip) = OK (paired, log) /\
      length paired = min_list (lengths tdL) /\
      (forall i r j kp vals,
          paired !! i = Some r -> tdL !! j = Some (kp, vals) ->
          record_param r kp = vals !! i) /\
      Forall2 (fun r part =>
                 dmem KEY.LIST r = false /\
                 dget KEY.GRID r = Some G /\
                 params_combine r (Some KEY.GRID) (Some product)
                   = OK (part, []) /\
                 length part = prod_list (lengths tdG))
              paired parts /\
      records = normalize_expanded_paths (concat parts).
Proof.
  intros Ht Hname Hgrid Hlist Habl HuG HuL HfG HfL HinsL HinsG Hpre.
  destruct (set_defaults_template t name) as (t' & Hd & Ho & He & Hn & Hb);
    [assumption | assumption |].
  assert (Hg' : dget KEY.GRID t' = Some G) by (rewrite Ho by key_neq; auto).
  assert (Hl' : dget KEY.LIST t' = Some L) by (rewrite Ho by key_neq; auto).
  assert (Hn' : dget KEY.NAME t' = Some (VStr name))
    by (rewrite Ho by key_neq; auto).
  assert (Hboth : dmem KEY.GRID t' && dmem KEY.LIST t' = true)
    by (unfold dmem; now rewrite Hg', Hl').
  assert (Hins' : forall kp, record_insertable t kp = true ->
                             record_insertable t' kp = true).
  { intros kp Hkp. rewrite (record_insertable_eq t' t); [assumption|].
    apply Ho; key_neq. }
  destruct (params_combine_ok t' KEY.LIST zip L tdL name (VStr name))
    as (paired & Hpc & HF); auto.
  { now right. }
  { eapply Forall_impl; [exact HinsL|]. auto. }
  set (log := combine_warnings KEY.LIST tdL (VStr name)) in *.
  assert (Hpair : forall i r j kp vals,
             paired !! i = Some r -> tdL !! j = Some (kp, vals) ->
             record_param r kp = vals !! i).
  { intros i r j kp vals Hi Hj.
    destruct (Forall2_lookup_r_inv _ _ _ _ _ HF Hi) as (values & Hv & Hc).
    simpl in Hv.
    destruct (py_zip_lookup (map snd tdL) i j values vals Hv) as (_ & Hvj & _).
    { rewrite list_lookup_fmap, Hj. reflexivity. }
    rewrite <- Hvj.
    destruct Hc as (_ & _ & _ & _ & _ & Hbind & _). apply Hbind.
    rewrite list_lookup_fmap, Hj. reflexivity. }
  assert (Hpaired : forall r, In r paired ->
            exists part,
              requeued G r /\
              params_combine r (Some KEY.GRID) (Some product) = OK (part, []) /\
              length part = prod_list (lengths tdG) /\
              Forall2 (combined r KEY.GRID tdG)
                      (py_product (map snd tdG)) part).
  { intros r Hr. apply list_elem_of_In, list_elem_of_lookup in Hr as [i Hi].
    destruct (Forall2_lookup_r_inv _ _ _ _ _ HF Hi) as (values & _ & Hc).
    destruct Hc as (Hk & Hother & [s Hs] & Hnest & _ & _ & _ & Hkeep).
    assert (Hgr : dget KEY.GRID r = Some G)
      by (rewrite Hother by key_neq; assumption).
    destruct (params_combine_ok r KEY.GRID product G tdG s (VStr name))
      as (part & Hpart & HFp); auto.
    { now left. }
    { rewrite Hother by key_neq. assumption. }
    { apply List.Forall_forall. intros kg Hkg. apply Hkeep.
      - apply Hins'. rewrite List.Forall_forall in HinsG. auto.
      - apply List.Forall_forall. intros kl Hkl. now apply Hpre. }
    exists part. split; [|split; [|split]].
    - split; [|split; [|split]]; [| | |assumption].
      + apply set_defaults_again; unfold dmem.
        * rewrite Hother by key_neq. exact Hb.
        * now rewrite Hs.
        * now rewrite Hnest, Hn'.
      + unfold dmem. now rewrite Hk.
      + unfold dmem. rewrite Hother by key_neq.
        rewrite Ho by key_neq. exact Habl.
    - exact Hpart.
    - apply Forall2_length in HFp. rewrite <- HFp. simpl.
      now rewrite length_py_product, lengths_map_snd.
    - exact HFp. }
  destruct (Forall2_exists _ paired Hpaired) as [parts Hparts].
  assert (Hlen : length paired = min_list (lengths tdL)).
  { apply Forall2_length in HF. rewrite <- HF. simpl.
    now rewrite length_py_zip, lengths_map_snd. }
  assert (Hglen : Forall (fun part => length part = prod_list (lengths tdG))
                         parts).
  { apply Forall2_Forall_r with (1 := Hparts).
    apply List.Forall_forall. intros r _ part (_ & _ & Hp & _). exact Hp. }
  exists (normalize_expanded_paths (concat parts)), log.
  split; [|split; [|split]].
  - unfold expand_experiments. rewrite loop_budget_cons.
    rewrite (expand_loop_both _ t t') by assumption.
    rewrite Hpc. simpl.
    rewrite (expand_loop_requeued G paired parts).
    + reflexivity.
    + eapply Forall2_impl; [exact Hparts|]. intros r part (? & ? & _). auto.
    + destruct (requeue_within_bound _ _ _ _ Hd Hpc) as [Hle _].
      unfold loop_budget. simpl. lia.
  - unfold normalize_expanded_paths. rewrite length_map.
    rewrite (length_concat_const _ (prod_list (lengths tdG))) by exact Hglen.
    apply Forall2_length in Hparts. now rewrite <- Hparts, Hlen.
  - intros i k r Hk Hr. unfold normalize_expanded_paths in Hr.
    rewrite list_lookup_fmap, (lookup_concat_const _ _ _ _ Hglen Hk) in Hr.
    destruct (parts !! i) as [part|] eqn:Hpart; [|discriminate].
    destruct (part !! k) as [r0|] eqn:Hr0; [|discriminate].
    injection Hr as <-.
    destruct (Forall2_lookup_r_inv _ _ _ _ _ Hparts Hpart)
      as (ri & Hri & _ & _ & _ & HFp).
    destruct (Forall2_lookup_r_inv _ _ _ _ _ HFp Hr0) as (values & Hv & Hc).
    destruct Hc as (_ & _ & _ & _ & _ & Hbind & Hdiv & _).
    split.
    + intros j kp vals Hj. rewrite normalize_record_param.
      rewrite (Hbind j kp) by (rewrite list_lookup_fmap, Hj; reflexivity).
      rewrite <- lengths_map_snd. eapply py_product_lookup; [exact Hv|].
      rewrite list_lookup_fmap, Hj. reflexivity.
    + intros j kp vals Hj Hkp. rewrite normalize_record_param.
      rewrite (Hdiv kp Hkp). eapply Hpair; eassumption.
  - exists t', paired, parts. split; [assumption|]. split; [assumption|].
    split; [assumption|]. split; [exact Hpair|]. split; [|reflexivity].
    eapply Forall2_impl; [exact Hparts|].
    intros r part ((_ & Hl & _ & Hg) & Hp & Hlp & _). auto.
Qed.

(* ----------------------------------------------------------------- *)
(** *** Ablative expansion *)

Lemma length_factor_values (td : list (list string * list value)) :
  length (factor_values td) = list_sum (lengths td).
Proof.
  unfold factor_values, lengths. induction td as [|kv td IH]; simpl;
    [reflexivity|]. now rewrite length_app, length_map, IH.
Qed.

Lemma ablative_variant_ok (r : dict) (kp : list string) (v : value)
    (s : string) (name : value) :
  dget KEY.i_EXP_NAME r = Some (VStr s) ->
  dget KEY.NAME r = Some name ->
  record_insertable r kp = true ->
  exists r', ablative_variant r kp v = OK r' /\ ablated r kp v r'.
Proof.
  intros Hs Hn Hins. unfold ablative_variant.
  destruct (insert_param_ok (ensure_params r) kp v) as [c1 Hc1].
  { apply ensure_params_dmem. }
  { now rewrite ensure_params_insertable. }
  destruct (insert_param_facts _ _ _ _ Hc1) as (_ & Ho & Heq & Hdiv & _).
  assert (Hother : forall k, k <> KEY.PARAMS -> dget k c1 = dget k r).
  { intros k Hk. rewrite Ho by assumption. now apply ensure_params_other. }
  rewrite Hc1. simpl.
  rewrite (extend_config_name_ok c1 _ _ s name)
    by (rewrite Hother by key_neq; assumption).
  eexists; split; [reflexivity|]. split; [|split].
  - rewrite (record_param_eq _ c1) by now dget_simpl. exact Heq.
  - intros t' Hd. rewrite (record_param_eq _ c1) by now dget_simpl.
    rewrite (Hdiv t' Hd). apply ensure_params_param.
  - intros k ? ? ?. dget_simpl. auto.
Qed.

Lemma ablative_config_ok (r : dict) (A : value)
    (td : list (list string * list value)) :
  dget KEY.ABLATIVE r = Some A ->
  flatten_dict_to_tuple_keys A = OK td ->
  (exists s, dget KEY.i_EXP_NAME r = Some (VStr s)) ->
  (exists name, dget KEY.NAME r = Some name) ->
  Forall (fun kp => record_insertable r kp = true) (map fst td) ->
  exists variants,
    ablative_config r = OK variants /\
    Forall2 (fun kv r' => ablated r (fst kv) (snd kv) r')
            (factor_values td) variants.
Proof.
  intros HA Hf [s Hs] [name Hn] Hins. unfold ablative_config.
  rewrite (dgetE_some _ _ _ HA). simpl. rewrite Hf. simpl. clear Hf HA.
  assert (Hper : exists per_key,
             map_result
               (fun kv => map_result (ablative_variant r (fst kv)) (snd kv)) td
               = OK per_key /\
             Forall2 (fun kv r' => ablated r (fst kv) (snd kv) r')
                     (factor_values td) (concat per_key)).
  { induction td as [|[kp vals] td IH].
    - exists []. split; [reflexivity | constructor].
    - simpl in Hins. inversion Hins as [|? ? Hkp Hins']; subst.
      destruct (IH Hins') as (per & Hper & HF).
      destruct (map_result_Forall2_ok (ablative_variant r kp)
                  (fun v r' => ablated r kp v r') vals) as (vs & Hvs & HFv).
      { intros v _. eapply ablative_variant_ok; eauto. }
      exists (vs :: per). simpl. rewrite Hvs. simpl. rewrite Hper. simpl.
      split; [reflexivity|]. unfold factor_values. simpl.
      apply Forall2_app; [|exact HF]. now apply Forall2_fmap_l. }
  destruct Hper as (per_key & -> & HF). simpl. eauto.
Qed.

Lemma ablative_expand_ok (base : list dict) (A : value)
    (td : list (list string * list value)) :
  flatten_dict_to_tuple_keys A = OK td ->
  Forall (fun r =>
            dget KEY.ABLATIVE r = Some A /\
            (exists s, dget KEY.i_EXP_NAME r = Some (VStr s)) /\
            (exists name, dget KEY.NAME r = Some name) /\
            Forall (fun kp => record_insertable r kp = true) (map fst td))
         base ->
  exists variants,
    ablative_expand base = OK variants /\
    Forall2 (fun rkv r' => ablated (fst rkv) (fst (snd rkv)) (snd (snd rkv)) r')
            (flat_map (fun r => map (pair r) (factor_values td)) base)
            variants.
Proof.
  intros Hf Hbase. unfold ablative_expand.
  assert (Hper : exists per,
             map_result ablative_config base = OK per /\
             Forall2 (fun rkv r' =>
                        ablated (fst rkv) (fst (snd rkv)) (snd (snd rkv)) r')
                     (flat_map (fun r => map (pair r) (factor_values td)) base)
                     (concat per)).
  { induction Hbase as [|r base (HA & Hs & Hn & Hins) _ IH].
    - exists []. split; [reflexivity | constructor].
    - destruct IH as (per & Hper & HF).
      destruct (ablative_config_ok r A td HA Hf Hs Hn Hins) as (vs & Hvs & HFv).
      exists (vs :: per). simpl. rewrite Hvs. simpl. rewrite Hper. simpl.
      split; [reflexivity|]. apply Forall2_app; [|exact HF].
      now apply Forall2_fmap_l. }
  destruct Hper as (per & -> & HF). simpl. eauto.
Qed.

(** The records of the combination stage carry the keys of the template
    the engine does not work on. *)
Lemma params_combine_directive_keys (c : dict) (base : list dict)
    (log : list warning) (k : string) :
  params_combine c (fst (directive c)) (snd (directive c)) = OK (base, log) ->
  k <> KEY.GRID -> k <> KEY.LIST -> k <> KEY.PARAMS ->
  k <> KEY.i_EXP_NAME -> k <> KEY.i_NEST_DIR ->
  Forall (fun r => dget k r = dget k c) base.
Proof.
  intros Hpc Hk1 Hk2 Hk3 Hk4 Hk5. unfold directive in Hpc.
  destruct (dmem KEY.LIST c); [|destruct (dmem KEY.GRID c)];
    cbn [fst snd] in Hpc.
  - eapply Forall_impl;
      [eapply (params_combine_inv c KEY.LIST zip); [now right | exact Hpc]|].
    intros r (_ & _ & _ & Ho). simpl. now apply Ho.
  - eapply Forall_impl;
      [eapply (params_combine_inv c KEY.GRID product); [now left | exact Hpc]|].
    intros r (_ & _ & _ & Ho). simpl. now apply Ho.
  - injection Hpc as <- _. constructor; [reflexivity | constructor].
Qed.

Lemma params_combine_directive_name (c : dict) (base : list dict)
    (log : list warning) (s : string) :
  params_combine c (fst (directive c)) (snd (directive c)) = OK (base, log) ->
  dget KEY.i_EXP_NAME c = Some (VStr s) ->
  Forall (fun r => exists s', dget KEY.i_EXP_NAME r = Some (VStr s')) base.
Proof.
  intros Hpc Hs. unfold directive in Hpc.
  destruct (dmem KEY.LIST c); [|destruct (dmem KEY.GRID c)];
    cbn [fst snd] in Hpc.
  - eapply Forall_impl;
      [eapply (params_combine_inv c KEY.LIST zip); [now right | exact Hpc]|].
    intros r (_ & Hn & _). exact Hn.
  - eapply Forall_impl;
      [eapply (params_combine_inv c KEY.GRID product); [now left | exact Hpc]|].
    intros r (_ & Hn & _). exact Hn.
  - injection Hpc as <- _. constructor; [eauto | constructor].
Qed.

(** C3.  For a template with an [ablative] directive whose flattened
    key-paths have candidate lists of lengths [m1..mj]: when the grid/list
    stage (or the identity case) produced the [b] base records [base], the
    expansion returns [base] followed by [b * (m1 + ... + mj)] variants,
    that is [b + b * (m1 + ... + mj)] records.  Each base record has one
    variant per key-path and candidate value, in this order, and the
    variant differs from its base record in that key-path of [params]
    only (and in the name fields). *)
Theorem ablative_expansion_additive (t t' : dict) (name : string) (A : value)
    (td : list (list string * list value)) (base : list dict)
    (log : list warning) :
  is_template t ->
  dget KEY.NAME t = Some (VStr name) ->
  dget KEY.ABLATIVE t = Some A ->
  flatten_dict_to_tuple_keys A = OK td ->
  set_defaults t = OK t' ->
  dmem KEY.GRID t' && dmem KEY.LIST t' = false ->
  params_combine t' (fst (directive t')) (snd (directive t')) = OK (base, log) ->
  Forall (fun r => Forall (fun kp => record_insertable r kp = true)
                          (map fst td)) base ->
  exists variants,
    expand_experiments [t]
      = OK (normalize_expanded_paths (base ++ variants), log) /\
    length (base ++ variants)
      = length base + length base * list_sum (lengths td) /\
    Forall2 (fun rkv r' => ablated (fst rkv) (fst (snd rkv)) (snd (snd rkv)) r')
            (flat_map (fun r => map (pair r) (factor_values td)) base)
            variants.
Proof.
  intros Ht Hname HA Hf Hd Hplain Hpc Hins.
  destruct (set_defaults_template t name Ht Hname)
    as (t0 & Hd0 & Ho & He & _ & _).
  rewrite Hd in Hd0. injection Hd0 as <-.
  assert (HA' : dget KEY.ABLATIVE t' = Some A)
    by (rewrite Ho by key_neq; assumption).
  assert (Hn' : dget KEY.NAME t' = Some (VStr name))
    by (rewrite Ho by key_neq; assumption).
  pose proof (params_combine_directive_keys t' base log KEY.ABLATIVE Hpc
                ltac:(key_neq) ltac:(key_neq) ltac:(key_neq) ltac:(key_neq)
                ltac:(key_neq)) as HkA.
  pose proof (params_combine_directive_keys t' base log KEY.NAME Hpc
                ltac:(key_neq) ltac:(key_neq) ltac:(key_neq) ltac:(key_neq)
                ltac:(key_neq)) as HkN.
  pose proof (params_combine_directive_name t' base log name Hpc He) as HkE.
  destruct (ablative_expand_ok base A td Hf) as (variants & Hab & HF).
  { rewrite List.Forall_forall in *. intros r Hr.
    split; [rewrite HkA by assumption; assumption|].
    split; [now apply HkE|].
    split; [exists (VStr name); rewrite HkN by assumption; assumption|].
    now apply Hins. }
  exists variants. split; [|split; [|exact HF]].
  - unfold expand_experiments. rewrite loop_budget_cons.
    rewrite (expand_loop_plain _ t t') by assumption.
    rewrite Hpc. simpl.
    assert (Hm : dmem KEY.ABLATIVE t' = true) by (unfold dmem; now rewrite HA').
    rewrite Hm, Hab. simpl. now rewrite expand_loop_nil.
  - rewrite length_app. f_equal. apply Forall2_length in HF. rewrite <- HF.
    rewrite (length_flat_map_const _ _ (list_sum (lengths td))); [reflexivity|].
    intros r. now rewrite length_map, length_factor_values.
Qed.

(* ----------------------------------------------------------------- *)
(** *** The keys of the records returned *)

Lemma params_combine_swept (c : dict) (base : list dict) (log : list warning) :
  dmem KEY.GRID c && dmem KEY.LIST c = false ->
  params_combine c (fst (directive c)) (snd (directive c)) = OK (base, log) ->
  Forall swept base.
Proof.
  intros Hplain Hpc. unfold directive in Hpc.
  destruct (dmem KEY.LIST c) eqn:Hl; [|destruct (dmem KEY.GRID c) eqn:Hg];
    cbn [fst snd] in Hpc.
  - rewrite andb_true_r in Hplain.
    eapply Forall_impl;
      [eapply (params_combine_inv c KEY.LIST zip); [now right | exact Hpc]|].
    intros r (Hk & _ & _ & Ho). unfold swept, dmem. rewrite Hk.
    rewrite Ho by key_neq. apply dmem_false in Hplain. now rewrite Hplain.
  - eapply Forall_impl;
      [eapply (params_combine_inv c KEY.GRID product); [now left | exact Hpc]|].
    intros r (Hk & _ & _ & Ho). unfold swept, dmem. rewrite Hk.
    rewrite Ho by key_neq. apply dmem_false in Hl. now rewrite Hl.
  - injection Hpc as <- _. constructor; [now split | constructor].
Qed.

(** What holds of the records of the combination stage for a key the
    ablative stage does not write holds of the variants too. *)
Lemma ablative_stage_keys (P : dict -> Prop) (c : dict)
    (base expansion : list dict) :
  (forall r r', P r ->
      (forall k, k <> KEY.PARAMS -> k <> KEY.i_EXP_NAME ->
                 k <> KEY.i_NEST_DIR -> dget k r' = dget k r) -> P r') ->
  Forall P base ->
  (if dmem KEY.ABLATIVE c
   then do ab <- ablative_expand base; OK (base ++ ab)
   else OK base) = OK expansion ->
  Forall P expansion.
Proof.
  intros HP Hbase He. destruct (dmem KEY.ABLATIVE c).
  - apply bind_ok in He as (ab & Hab & He). injection He as <-.
    apply Forall_app. split; [assumption|].
    apply List.Forall_forall. intros r' Hr'.
    destruct (ablative_expand_inv _ _ _ Hab Hr') as (r & Hr & Ho).
    rewrite List.Forall_forall in Hbase. eapply HP; eauto.
  - now injection He as <-.
Qed.

Lemma expand_loop_swept (fuel : nat) (queue acc : list dict)
    (log : list warning) (records : list dict) (log' : list warning) :
  Forall swept acc ->
  expand_loop fuel queue acc log = OK (records, log') ->
  Forall swept records.
Proof.
  revert queue acc log. induction fuel as [|fuel IH]; intros queue acc log Hacc He.
  - destruct queue; [|discriminate]. now injection He as <- _.
  - destruct queue as [|c queue]; [now injection He as <- _|].
    destruct (set_defaults c) as [c'|e] eqn:Hd;
      [|simpl in He; rewrite Hd in He; discriminate].
    destruct (dmem KEY.GRID c' && dmem KEY.LIST c') eqn:Hboth.
    + rewrite (expand_loop_both _ _ _ _ _ _ Hd Hboth) in He.
      apply bind_ok in He as ([recs warns] & _ & He).
      apply (IH (queue ++ recs) acc (log ++ warns)); assumption.
    + rewrite (expand_loop_plain _ _ _ _ _ _ Hd Hboth) in He.
      apply bind_ok in He as ([base warns] & Hpc & He).
      apply bind_ok in He as (expansion & Hab & He).
      apply (IH queue (acc ++ expansion) (log ++ warns)); [|exact He].
      apply Forall_app. split; [assumption|].
      eapply (ablative_stage_keys swept); [| |exact Hab].
      * intros r r' [Hg Hl] Ho. unfold swept, dmem in *.
        now rewrite !Ho by key_neq.
      * eapply params_combine_swept; eauto.
Qed.

Lemma expand_loop_inherits (k : string) (ts : list dict) (fuel : nat)
    (queue acc : list dict) (log : list warning) (records : list dict)
    (log' : list warning) :
  k <> KEY.GRID -> k <> KEY.LIST -> k <> KEY.PARAMS ->
  k <> KEY.i_EXP_NAME -> k <> KEY.i_NEST_DIR -> k <> KEY.i_BASIC_PATH ->
  Forall (inherits k ts) queue ->
  Forall (inherits k ts) acc ->
  expand_loop fuel queue acc log = OK (records, log') ->
  Forall (inherits k ts) records.
Proof.
  intros Hk1 Hk2 Hk3 Hk4 Hk5 Hk6. revert queue acc log.
  induction fuel as [|fuel IH]; intros queue acc log Hq Hacc He.
  - destruct queue; [|discriminate]. now injection He as <- _.
  - destruct queue as [|c queue]; [now injection He as <- _|].
    inversion Hq as [|? ? (t & Ht & Hc) Hq']; subst.
    destruct (set_defaults c) as [c'|e] eqn:Hd;
      [|simpl in He; rewrite Hd in He; discriminate].
    assert (Hc' : dget k c' = dget k t)
      by (rewrite (set_defaults_other c c' k Hd) by assumption; exact Hc).
    destruct (dmem KEY.GRID c' && dmem KEY.LIST c') eqn:Hboth.
    + rewrite (expand_loop_both _ _ _ _ _ _ Hd Hboth) in He.
      apply bind_ok in He as ([recs warns] & Hpc & He).
      apply (IH (queue ++ recs) acc (log ++ warns)); [|assumption|exact He].
      apply Forall_app. split; [assumption|].
      eapply Forall_impl;
        [eapply (params_combine_inv c' KEY.LIST zip); [now right | exact Hpc]|].
      intros r (_ & _ & _ & Ho). exists t. split; [assumption|].
      now rewrite Ho by assumption.
    + rewrite (expand_loop_plain _ _ _ _ _ _ Hd Hboth) in He.
      apply bind_ok in He as ([base warns] & Hpc & He).
      apply bind_ok in He as (expansion & Hab & He).
      apply (IH queue (acc ++ expansion) (log ++ warns)); [assumption| |exact He].
      apply Forall_app. split; [assumption|].
      eapply (ablative_stage_keys (inherits k ts)); [| |exact Hab].
      * intros r r' (t0 & Ht0 & Hr) Ho. exists t0. split; [assumption|].
        now rewrite Ho by assumption.
      * eapply Forall_impl;
          [eapply params_combine_directive_keys; eauto|].
        intros r Hr. exists t. split; [assumption|]. simpl in Hr. congruence.
Qed.

Lemma expand_experiments_inherits (k : string) (ts records : list dict)
    (log : list warning) :
  k <> KEY.GRID -> k <> KEY.LIST -> k <> KEY.PARAMS ->
  k <> KEY.i_EXP_NAME -> k <> KEY.i_NEST_DIR -> k <> KEY.i_BASIC_PATH ->
  k <> KEY.PATH -> k <> KEY.LOG_PATH ->
  expand_experiments ts = OK (records, log) ->
  Forall (inherits k ts) records.
Proof.
  intros Hk1 Hk2 Hk3 Hk4 Hk5 Hk6 Hk7 Hk8 He. unfold expand_experiments in He.
  apply bind_ok in He as ([recs log0] & Hloop & He). injection He as <- _.
  apply List.Forall_map.
  assert (Hrecs : Forall (inherits k ts) recs).
  { apply (expand_loop_inherits k ts (loop_budget ts) ts [] [] recs log0);
      auto.
    apply List.Forall_forall. intros t Ht. exists t. auto. }
  eapply Forall_impl; [exact Hrecs|].
  intros r (t & Ht & Hr). exists t. split; [assumption|].
  simpl. now rewrite normalize_record_frame by assumption.
Qed.

(** C6 (amended).  Every record the expansion returns has the [grid] and
    the [list] key removed.  The [ablative] key is not removed: every
    record returned has the [ablative] entry of one of the templates, and
    so carries the directive whenever its template does. *)
Theorem expanded_records_directive_keys (ts records : list dict)
    (log : list warning) :
  expand_experiments ts = OK (records, log) ->
  Forall (fun r => dmem KEY.GRID r = false /\ dmem KEY.LIST r = false) records
  /\ Forall (fun r => exists t, In t ts /\
                                dget KEY.ABLATIVE r = dget KEY.ABLATIVE t)
            records.
Proof.
  intros He. split.
  - unfold expand_experiments in He.
    apply bind_ok in He as ([recs log0] & Hloop & He). injection He as <- _.
    apply List.Forall_map.
    assert (Hrecs : Forall swept recs)
      by (eapply expand_loop_swept; [|exact Hloop]; constructor).
    eapply Forall_impl; [exact Hrecs|].
    intros r [Hg Hl]. unfold dmem in *. simpl.
    now rewrite !normalize_record_frame by key_neq.
  - apply (expand_experiments_inherits KEY.ABLATIVE ts records log);
      key_neq.
Qed.

(* ----------------------------------------------------------------- *)
(** *** Missing required fields *)

Lemma set_defaults_no_path (t : dict) :
  dmem KEY.PATH t = false -> dmem KEY.i_BASIC_PATH t = false ->
  set_defaults t = Err (KeyError KEY.PATH).
Proof.
  intros Hp Hb. unfold set_defaults. rewrite Hb.
  apply dmem_false in Hp. now rewrite (dgetE_none _ _ Hp).
Qed.

Lemma set_defaults_no_name (t : dict) :
  dmem KEY.NAME t = false -> dmem KEY.i_EXP_NAME t = false ->
  exists e, set_defaults t = Err e /\
            (dmem KEY.PATH t = true \/ dmem KEY.i_BASIC_PATH t = true ->
             e = KeyError KEY.NAME).
Proof.
  intros Hn He. unfold set_defaults.
  apply dmem_false in Hn. apply dmem_false in He.
  destruct (dmem KEY.i_BASIC_PATH t) eqn:Hb; simpl.
  - unfold dmem. rewrite He, (dgetE_none _ _ Hn). simpl. eauto.
  - destruct (dget KEY.PATH t) as [p|] eqn:Hp.
    + rewrite (dgetE_some _ _ _ Hp). simpl. unfold dmem, dgetE.
      dget_simpl. rewrite He, Hn. simpl. eauto.
    + rewrite (dgetE_none _ _ Hp). simpl. eexists. split; [reflexivity|].
      unfold dmem. rewrite Hp. intros [?|?]; discriminate.
Qed.

(** The loop reaches every template of the input list, in order, unless
    an earlier one raises: a template whose defaults cannot be set makes
    the loop raise. *)
Lemma expand_loop_reaches (q1 : list dict) (c : dict) (e0 : error) :
  set_defaults c = Err e0 ->
  forall fuel q2 acc log,
    length q1 < fuel ->
    exists e, e <> OutOfFuel /\
              expand_loop fuel (q1 ++ c :: q2) acc log = Err e.
Proof.
  intros Hc. induction q1 as [|c1 q1 IH]; intros fuel q2 acc log Hfuel;
    (destruct fuel as [|fuel]; [simpl in Hfuel; lia|]).
  - exists e0. split.
    + intros ->. now apply (genuine_set_defaults c).
    + simpl. now rewrite Hc.
  - assert (Hgen : forall (m : result (list dict * list warning)) e,
               genuine m -> m = Err e -> e <> OutOfFuel)
      by (intros m e Hm -> ->; now apply Hm).
    simpl in Hfuel.
    change ((c1 :: q1) ++ c :: q2) with (c1 :: (q1 ++ c :: q2)).
    destruct (set_defaults c1) as [c1'|e] eqn:Hd.
    + destruct (dmem KEY.GRID c1' && dmem KEY.LIST c1') eqn:Hboth.
      * rewrite (expand_loop_both _ _ _ _ _ _ Hd Hboth).
        destruct (params_combine c1' (Some KEY.LIST) (Some zip))
          as [[recs warns]|e] eqn:Hpc; simpl.
        -- rewrite <- app_assoc. simpl. apply IH. lia.
        -- exists e. split; [|reflexivity]. intros ->.
           now apply (genuine_params_combine c1' (Some KEY.LIST) (Some zip)).
      * rewrite (expand_loop_plain _ _ _ _ _ _ Hd Hboth).
        destruct (params_combine c1' (fst (directive c1')) (snd (directive c1')))
          as [[base warns]|e] eqn:Hpc; simpl.
        -- destruct (dmem KEY.ABLATIVE c1'); simpl; [|apply IH; lia].
           destruct (ablative_expand base) as [ab|e] eqn:Hab; simpl;
             [apply IH; lia|].
           exists e. split; [|reflexivity]. intros ->.
           now apply (genuine_ablative_expand base).
        -- exists e. split; [|reflexivity]. intros ->.
           now apply (genuine_params_combine c1' (fst (directive c1'))
                        (snd (directive c1'))).
    + exists e. split.
      * intros ->. now apply (genuine_set_defaults c1).
      * simpl. now rewrite Hd.
Qed.

Lemma expand_experiments_reaches (ts1 ts2 : list dict) (t : dict) (e0 : error) :
  set_defaults t = Err e0 ->
  exists e, e <> OutOfFuel /\
            expand_experiments (ts1 ++ t :: ts2) = Err e /\
            unfold_exps (ts1 ++ t :: ts2) = Err e.
Proof.
  intros Ht.
  destruct (expand_loop_reaches ts1 t e0 Ht (loop_budget (ts1 ++ t :: ts2))
              ts2 [] []) as (e & Hne & He).
  { unfold loop_budget. rewrite length_app. simpl. lia. }
  exists e. split; [assumption|].
  unfold unfold_exps, expand_experiments. rewrite He. split; reflexivity.
Qed.

Lemma expand_experiments_head (ts : list dict) (t : dict) (e0 : error) :
  set_defaults t = Err e0 ->
  expand_experiments (t :: ts) = Err e0 /\ unfold_exps (t :: ts) = Err e0.
Proof.
  intros Ht. unfold unfold_exps, expand_experiments.
  rewrite loop_budget_cons. simpl. rewrite Ht. split; reflexivity.
Qed.

Lemma unroll_config_no_reps (r : dict) :
  dmem KEY.REPS r = false -> dmem KEY.i_REP_IDX r = false ->
  unroll_config r = Err (KeyError KEY.REPS).
Proof.
  intros Hr Hi. unfold unroll_config. rewrite Hi.
  apply dmem_false in Hr. now rewrite (dgetE_none _ _ Hr).
Qed.

(** C8 (amended).  A template without [path] (and without [_base_path]),
    or without [name] (and without [_experiment_name]), makes
    [expand_experiments] raise when it sets the defaults of that template:
    the call, and with it [unfold_exps], ends with a Python exception and
    returns nothing; when the template is the first of the list the
    exception is the [KeyError] of the missing field.  A template without
    [repetitions] does not make the expansion fail: the [KeyError] is
    raised by [unroll_exp_reps], the later phase, as soon as the expansion
    has returned a record (none of them has a repetition index), and when
    the template expands to no record [unfold_exps] returns the empty
    list. *)
Theorem missing_required_field :
  (forall (t : dict) (ts1 ts2 : list dict),
      dmem KEY.PATH t = false -> dmem KEY.i_BASIC_PATH t = false ->
      (exists e, e <> OutOfFuel /\
                 expand_experiments (ts1 ++ t :: ts2) = Err e /\
                 unfold_exps (ts1 ++ t :: ts2) = Err e) /\
      expand_experiments (t :: ts2) = Err (KeyError KEY.PATH) /\
      unfold_exps (t :: ts2) = Err (KeyError KEY.PATH))
  /\ (forall (t : dict) (ts1 ts2 : list dict),
      dmem KEY.NAME t = false -> dmem KEY.i_EXP_NAME t = false ->
      (exists e, e <> OutOfFuel /\
                 expand_experiments (ts1 ++ t :: ts2) = Err e /\
                 unfold_exps (ts1 ++ t :: ts2) = Err e) /\
      (dmem KEY.PATH t = true ->
       expand_experiments (t :: ts2) = Err (KeyError KEY.NAME) /\
       unfold_exps (t :: ts2) = Err (KeyError KEY.NAME)))
  /\ (forall (t : dict) (records : list dict) (log : list warning),
      dmem KEY.REPS t = false -> dmem KEY.i_REP_IDX t = false ->
      expand_experiments [t] = OK (records, log) ->
      (records <> [] -> unfold_exps [t] = Err (KeyError KEY.REPS)) /\
      (records = [] -> unfold_exps [t] = OK ([], log))).
Proof.
  split; [|split].
  - intros t ts1 ts2 Hp Hb.
    pose proof (set_defaults_no_path t Hp Hb) as Hd.
    split; [now apply (expand_experiments_reaches ts1 ts2 t _ Hd)|].
    now apply expand_experiments_head.
  - intros t ts1 ts2 Hn He.
    destruct (set_defaults_no_name t Hn He) as (e0 & Hd & Hexact).
    split; [now apply (expand_experiments_reaches ts1 ts2 t _ Hd)|].
    intros Hp. rewrite Hexact in Hd by now left.
    now apply expand_experiments_head.
  - intros t records log Hr Hi He. unfold unfold_exps. rewrite He. simpl.
    split.
    + intros Hne. destruct records as [|r records]; [congruence|].
      pose proof (expand_experiments_inherits KEY.REPS [t] _ _
                    ltac:(key_neq) ltac:(key_neq) ltac:(key_neq)
                    ltac:(key_neq) ltac:(key_neq) ltac:(key_neq)
                    ltac:(key_neq) ltac:(key_neq) He) as HR.
      pose proof (expand_experiments_inherits KEY.i_REP_IDX [t] _ _
                    ltac:(key_neq) ltac:(key_neq) ltac:(key_neq)
                    ltac:(key_neq) ltac:(key_neq) ltac:(key_neq)
                    ltac:(key_neq) ltac:(key_neq) He) as HI.
      inversion HR as [|? ? (t1 & [<-|[]] & HR1) _]; subst.
      inversion HI as [|? ? (t2 & [<-|[]] & HI1) _]; subst.
      unfold unroll_exp_reps. simpl.
      rewrite unroll_config_no_reps; [reflexivity| |];
        unfold dmem in *; [now rewrite HR1 | now rewrite HI1].
    + intros ->. reflexivity.
Qed.

(** X1.  The loop of [expand_experiments] over its growing work list
    ends: whatever the templates, the expansion, and with it the whole
    unfolding, needs no more steps than its budget, and returns records
    or raises a Python exception. *)
Lemma expand_experiments_genuine (ts : list dict) :
  genuine (expand_experiments ts) /\ genuine (unfold_exps ts).
Proof.
  assert (He : genuine (expand_experiments ts)).
  { unfold expand_experiments.
    apply genuine_bind; [now apply expand_loop_fuel|].
    intros [recs log] _. apply genuine_ok. }
  split; [exact He|]. unfold unfold_exps.
  apply genuine_bind; [exact He|]. intros [recs log] _.
  apply genuine_bind; [|intros; apply genuine_ok].
  unfold unroll_exp_reps. apply genuine_bind; [|intros; apply genuine_ok].
  apply genuine_map_result. intros c. unfold unroll_config.
  destruct (dmem KEY.i_REP_IDX c); [apply genuine_ok|].
  apply genuine_bind; [apply genuine_dgetE|].
  intros [|n| | |] _; try discriminate.
  apply genuine_map_result. intros r. unfold unroll_rep.
  apply genuine_bind; [apply genuine_dgetE|].
  intros [| |p| |] _; discriminate.
Qed.

(* ----------------------------------------------------------------- *)
(** *** Repetitions: what [unroll_exp_reps] emits *)

Lemma unroll_rep_inv (config c : dict) (r : nat) :
  unroll_rep config r = OK c ->
  exists p,
    dget KEY.LOG_PATH config = Some (VStr p) /\
    c = dset KEY.i_REP_LOG_PATH
          (VStr (path_join p ("rep_" +:+ format_02d r)))
          (dset KEY.i_REP_IDX (VInt (Z.of_nat r)) config).
Proof.
  unfold unroll_rep, dgetE. rewrite dget_dset_ne by key_neq.
  destruct (dget KEY.LOG_PATH config) as [[| |p| |]|]; simpl; try discriminate.
  intros [= <-]. now exists p.
Qed.

Lemma unroll_rep_indexed (config c : dict) (r : nat) :
  unroll_rep config r = OK c -> indexed c.
Proof.
  intros (p & _ & ->)%unroll_rep_inv. unfold indexed, dmem.
  rewrite dget_dset_ne by key_neq. now rewrite dget_dset_eq.
Qed.

Lemma unroll_config_indexed (config : dict) (out : list dict) :
  unroll_config config = OK out -> Forall indexed out.
Proof.
  unfold unroll_config. destruct (dmem KEY.i_REP_IDX config) eqn:Hi.
  - intros [= <-]. now repeat constructor.
  - destruct (dgetE KEY.REPS config) as [[|n| | |]|]; simpl; try discriminate.
    intros Hm. apply List.Forall_forall. intros c Hc.
    destruct (map_result_In _ _ _ _ Hm Hc) as (r & _ & Hr).
    eapply unroll_rep_indexed, Hr.
Qed.

Lemma unroll_exp_reps_cons (c : dict) (l : list dict) :
  unroll_exp_reps (c :: l) =
  do a <- unroll_config c; do b <- unroll_exp_reps l; OK (a ++ b).
Proof.
  unfold unroll_exp_reps. simpl.
  destruct (unroll_config c) as [a|e]; simpl; [|reflexivity].
  destruct (map_result unroll_config l) as [b|e]; reflexivity.
Qed.

Lemma unroll_exp_reps_indexed (l out : list dict) :
  unroll_exp_reps l = OK out -> Forall indexed out.
Proof.
  revert out. induction l as [|c l IH]; intros out.
  - intros [= <-]. constructor.
  - rewrite unroll_exp_reps_cons.
    destruct (unroll_config c) as [a|e] eqn:Ha; simpl; [|discriminate].
    destruct (unroll_exp_reps l) as [b|e] eqn:Hb; simpl; [|discriminate].
    intros [= <-]. apply Forall_app. split.
    + eapply unroll_config_indexed, Ha.
    + now apply IH.
Qed.

Lemma unroll_exp_reps_pass (l : list dict) :
  Forall indexed l -> unroll_exp_reps l = OK l.
Proof.
  induction 1 as [|c l Hc _ IH]; [reflexivity|].
  rewrite unroll_exp_reps_cons, IH. unfold unroll_config.
  unfold indexed in Hc. now rewrite Hc.
Qed.

(** X3.  Unrolling is idempotent: every record [unroll_exp_reps] returns
    carries a repetition index, so that unrolling its result again
    returns that result, record for record. *)
Theorem unroll_exp_reps_idempotent (l out : list dict) :
  unroll_exp_reps l = OK out ->
  Forall indexed out /\ unroll_exp_reps out = OK out.
Proof.
  intros Hu. apply unroll_exp_reps_indexed in Hu.
  split; [exact Hu|]. now apply unroll_exp_reps_pass.
Qed.

Lemma unroll_config_count (config : dict) (out : list dict) :
  unroll_config config = OK out -> length out = job_count config.
Proof.
  unfold unroll_config, job_count.
  destruct (dmem KEY.i_REP_IDX config); [now intros [= <-]|].
  unfold dgetE.
  destruct (dget KEY.REPS config) as [[|n| | |]|]; simpl; try discriminate.
  intros Hm. apply map_result_Forall2, Forall2_length in Hm.
  now rewrite length_seq in Hm.
Qed.

(** X4.  The number of jobs: when [unroll_exp_reps] returns, it has
    emitted, for every input record in turn, one record when the record
    carries a repetition index and [repetitions] records otherwise (none
    for a number that is not positive); the output has as many records as
    that, and splits into the outputs of the parts of the input. *)
Theorem unroll_exp_reps_job_count (l1 l2 out : list dict) :
  unroll_exp_reps (l1 ++ l2) = OK out ->
  exists out1 out2,
    unroll_exp_reps l1 = OK out1 /\ unroll_exp_reps l2 = OK out2 /\
    out = out1 ++ out2 /\
    length out1 = list_sum (map job_count l1) /\
    length out = list_sum (map job_count (l1 ++ l2)).
Proof.
  assert (Hcount : forall l o, unroll_exp_reps l = OK o ->
                               length o = list_sum (map job_count l)).
  { induction l as [|c l IH]; intros o.
    - now intros [= <-].
    - rewrite unroll_exp_reps_cons.
      destruct (unroll_config c) as [a|e] eqn:Ha; simpl; [|discriminate].
      destruct (unroll_exp_reps l) as [b|e] eqn:Hb; simpl; [|discriminate].
      intros [= <-]. rewrite length_app, (IH b eq_refl).
      now rewrite (unroll_config_count _ _ Ha). }
  intros Hu. pose proof (Hcount _ _ Hu) as Hlen.
  unfold unroll_exp_reps in Hu. rewrite map_result_app in Hu.
  destruct (map_result unroll_config l1) as [p1|e] eqn:H1; simpl in Hu;
    [|discriminate].
  destruct (map_result unroll_config l2) as [p2|e] eqn:H2; simpl in Hu;
    [|discriminate].
  injection Hu as <-.
  exists (concat p1), (concat p2).
  assert (E1 : unroll_exp_reps l1 = OK (concat p1)).
  { unfold unroll_exp_reps. now rewrite H1. }
  assert (E2 : unroll_exp_reps l2 = OK (concat p2)).
  { unfold unroll_exp_reps. now rewrite H2. }
  repeat split; try assumption.
  - apply concat_app.
  - now apply Hcount.
Qed.

(** X5.  Edge cases of the repetition count, for a record without
    repetition index.  A [repetitions] that is zero or negative makes the
    record disappear: nothing is emitted and nothing is raised, also when
    the record has no log path.  A positive [repetitions] needs the log
    path: without it the [KeyError] of [log_path] is raised. *)
Theorem unroll_exp_reps_edge (config : dict) (n : Z) :
  dmem KEY.i_REP_IDX config = false ->
  dget KEY.REPS config = Some (VInt n) ->
  ((n <= 0)%Z -> unroll_exp_reps [config] = OK []) /\
  ((0 < n)%Z -> dmem KEY.LOG_PATH config = false ->
   unroll_exp_reps [config] = Err (KeyError KEY.LOG_PATH)).
Proof.
  intros Hi Hr. unfold unroll_exp_reps, unroll_config, dgetE. simpl.
  rewrite Hi, Hr. simpl. split.
  - intros Hn. replace (Z.to_nat n) with 0 by lia. reflexivity.
  - intros Hn Hl. destruct (Z.to_nat n) as [|k] eqn:Hk; [lia|].
    simpl. unfold unroll_rep at 1, dgetE.
    rewrite dget_dset_ne by key_neq. apply dmem_false in Hl.
    now rewrite Hl.
Qed.

(* ----------------------------------------------------------------- *)
(** *** The separator is [__] once *)

Lemma str_app_assoc (a b c : string) : (a +:+ b) +:+ c = a +:+ b +:+ c.
Proof.
  induction a as [|x a IH]; [reflexivity|].
  change (String x ((a +:+ b) +:+ c) = String x (a +:+ b +:+ c)).
  now rewrite IH.
Qed.

Lemma separator_extended (s x : string) :
  separator (s +:+ separator s +:+ x) = "_".
Proof.
  unfold separator at 1.
  assert (Hc : str_contains "__" (s +:+ separator s +:+ x) = true).
  { unfold separator. destruct (str_contains "__" s) eqn:Hs.
    - apply str_contains_spec in Hs as (a & b & ->).
      apply str_contains_spec. exists a, (b +:+ "_" +:+ x).
      now rewrite !str_app_assoc.
    - apply str_contains_spec. now exists s, x. }
  now rewrite Hc.
Qed.

(** X6.  The separator [__] is used once: when a name is extended
    twice, as for a template with a [grid] and a [list], the second
    suffix is appended with [_], whatever the name and the first suffix
    are. *)
Theorem extend_config_name_twice (config : dict)
    (names1 names2 : list string) (values1 values2 : list value)
    (exp_name : string) (name : value) :
  dget KEY.i_EXP_NAME config = Some (VStr exp_name) ->
  dget KEY.NAME config = Some name ->
  exists c1 c2,
    extend_config_name config names1 values1 = OK c1 /\
    extend_config_name c1 names2 values2 = OK c2 /\
    dget KEY.i_EXP_NAME c2 =
      Some (VStr ((exp_name +:+ separator exp_name
                   +:+ convert_param_names names1 values1)
                  +:+ "_" +:+ convert_param_names names2 values2)) /\
    dget KEY.i_NEST_DIR c2 = Some name.
Proof.
  intros He Hn. do 2 eexists.
  split; [apply (extend_config_name_ok _ _ _ _ _ He Hn)|].
  split.
  - apply extend_config_name_ok with (name := name); now dget_simpl.
  - rewrite separator_extended. split; now dget_simpl.
Qed.

(* ----------------------------------------------------------------- *)
(** *** The order of the records returned *)

(** More fuel does not change an answer of the loop. *)
Lemma expand_loop_more_fuel (fuel : nat) :
  forall (fuel' : nat) (queue acc : list dict) (log : list warning),
    fuel <= fuel' ->
    genuine (expand_loop fuel queue acc log) ->
    expand_loop fuel' queue acc log = expand_loop fuel queue acc log.
Proof.
  induction fuel as [|fuel IH]; intros fuel' queue acc log Hle Hg.
  - destruct queue as [|c queue]; [now rewrite !expand_loop_nil|].
    now contradiction Hg.
  - destruct queue as [|c queue]; [now rewrite !expand_loop_nil|].
    destruct fuel' as [|fuel']; [lia|].
    destruct (set_defaults c) as [c'|e] eqn:Hd;
      [|simpl; now rewrite Hd].
    destruct (dmem KEY.GRID c' && dmem KEY.LIST c') eqn:Hboth.
    + rewrite !(expand_loop_both _ _ _ _ _ _ Hd Hboth) in *.
      destruct (params_combine c' (Some KEY.LIST) (Some zip))
        as [[recs warns]|e]; simpl in *; [|reflexivity].
      apply IH; [lia | exact Hg].
    + rewrite !(expand_loop_plain _ _ _ _ _ _ Hd Hboth) in *.
      destruct (params_combine c' (fst (directive c')) (snd (directive c')))
        as [[recs warns]|e]; simpl in *; [|reflexivity].
      destruct (if dmem KEY.ABLATIVE c'
                then do ab <- ablative_expand recs; OK (recs ++ ab)
                else OK recs) as [expansion|e]; simpl in *; [|reflexivity].
      apply IH; [lia | exact Hg].
Qed.

(** The records and warnings collected before are kept in front. *)
Lemma expand_loop_acc (fuel : nat) :
  forall (queue acc : list dict) (log : list warning),
    expand_loop fuel queue acc log =
    do (records, warns) <- expand_loop fuel queue [] [];
    OK (acc ++ records, log ++ warns).
Proof.
  induction fuel as [|fuel IH]; intros queue acc log.
  - destruct queue; simpl; [now rewrite !app_nil_r | reflexivity].
  - destruct queue as [|c queue]; [simpl; now rewrite !app_nil_r|].
    destruct (set_defaults c) as [c'|e] eqn:Hd;
      [|simpl; now rewrite Hd].
    destruct (dmem KEY.GRID c' && dmem KEY.LIST c') eqn:Hboth.
    + rewrite !(expand_loop_both _ _ _ _ _ _ Hd Hboth).
      destruct (params_combine c' (Some KEY.LIST) (Some zip))
        as [[recs warns]|e]; simpl; [|reflexivity].
      rewrite (IH _ acc (log ++ warns)), (IH _ [] warns).
      destruct (expand_loop fuel (queue ++ recs) [] []) as [[r w]|e]; simpl;
        [|reflexivity].
      now rewrite app_assoc.
    + rewrite !(expand_loop_plain _ _ _ _ _ _ Hd Hboth).
      destruct (params_combine c' (fst (directive c')) (snd (directive c')))
        as [[recs warns]|e]; simpl; [|reflexivity].
      destruct (if dmem KEY.ABLATIVE c'
                then do ab <- ablative_expand recs; OK (recs ++ ab)
                else OK recs) as [expansion|e]; simpl; [|reflexivity].
      rewrite (IH _ (acc ++ expansion) (log ++ warns)), (IH _ expansion warns).
      destruct (expand_loop fuel queue [] []) as [[r w]|e]; simpl;
        [|reflexivity].
      now rewrite !app_assoc.
Qed.

(** The loop works through a front of single-stage templates before it
    reaches the rest of the work list. *)
Lemma expand_loop_front (front : list dict) :
  Forall single_stage front ->
  forall (fuel : nat) (rest acc : list dict) (log : list warning),
    length front <= fuel ->
    expand_loop fuel (front ++ rest) acc log =
    do (records, warns) <- expand_loop fuel front acc log;
    expand_loop (fuel - length front) rest records warns.
Proof.
  induction 1 as [|c front Hc _ IH]; intros fuel rest acc log Hle.
  - rewrite expand_loop_nil. simpl. now rewrite Nat.sub_0_r.
  - destruct fuel as [|fuel]; [simpl in Hle; lia|].
    simpl in Hle. cbn [app length Nat.sub].
    destruct (set_defaults c) as [c'|e] eqn:Hd;
      [|simpl; now rewrite Hd].
    assert (Hboth : dmem KEY.GRID c' && dmem KEY.LIST c' = false).
    { rewrite !(set_defaults_dmem c c' _ Hd) by key_neq. exact Hc. }
    rewrite !(expand_loop_plain _ _ _ _ _ _ Hd Hboth).
    destruct (params_combine c' (fst (directive c')) (snd (directive c')))
      as [[recs warns]|e]; simpl; [|reflexivity].
    destruct (if dmem KEY.ABLATIVE c'
              then do ab <- ablative_expand recs; OK (recs ++ ab)
              else OK recs) as [expansion|e]; simpl; [|reflexivity].
    apply IH. lia.
Qed.

Lemma loop_budget_length (queue : list dict) :
  length queue <= loop_budget queue.
Proof. unfold loop_budget. lia. Qed.

(** The loop on a work list that starts with single-stage templates, with
    any budget that is large enough. *)
Lemma expand_loop_split (front rest : list dict) (fuel : nat) :
  Forall single_stage front ->
  loop_budget front <= fuel ->
  fuel - length front >= loop_budget rest ->
  expand_loop fuel (front ++ rest) [] [] =
  do (r1, w1) <- expand_loop (loop_budget front) front [] [];
  do (r2, w2) <- expand_loop (loop_budget rest) rest [] [];
  OK (r1 ++ r2, w1 ++ w2).
Proof.
  intros Hfront Hf Hr.
  pose proof (loop_budget_length front) as Hlen.
  rewrite (expand_loop_front front Hfront) by lia.
  rewrite (expand_loop_more_fuel (loop_budget front) fuel) by
    (auto using expand_loop_fuel).
  destruct (expand_loop (loop_budget front) front [] []) as [[r1 w1]|e];
    simpl; [|reflexivity].
  rewrite expand_loop_acc.
  rewrite (expand_loop_more_fuel (loop_budget rest)) by
    (auto using expand_loop_fuel).
  reflexivity.
Qed.

Lemma normalize_expanded_paths_app (l1 l2 : list dict) :
  normalize_expanded_paths (l1 ++ l2) =
  normalize_expanded_paths l1 ++ normalize_expanded_paths l2.
Proof. apply map_app. Qed.

(** X7.  Templates are expanded one after the other: when no template of
    [ts1] has both a [grid] and a [list], the expansion of [ts1 ++ ts2]
    is the expansion of [ts1] followed by the expansion of [ts2], records
    and warnings alike, and it raises what the first of the two that
    fails raises. *)
Theorem expand_experiments_app (ts1 ts2 : list dict) :
  Forall single_stage ts1 ->
  expand_experiments (ts1 ++ ts2) =
  do (r1, w1) <- expand_experiments ts1;
  do (r2, w2) <- expand_experiments ts2;
  OK (r1 ++ r2, w1 ++ w2).
Proof.
  intros Hfront. unfold expand_experiments.
  pose proof (loop_budget_length ts1) as Hlen.
  rewrite (expand_loop_split ts1 ts2) by
    (rewrite ?loop_budget_app; auto; lia).
  destruct (expand_loop (loop_budget ts1) ts1 [] []) as [[r1 w1]|e];
    simpl; [|reflexivity].
  destruct (expand_loop (loop_budget ts2) ts2 [] []) as [[r2 w2]|e];
    simpl; [|reflexivity].
  now rewrite normalize_expanded_paths_app.
Qed.

(** X8.  A template with both a [grid] and a [list] is deferred: its
    [list] directive is paired when the loop meets the template, but the
    records this gives are expanded after all the templates that follow
    it in the input, so that its records are the last of the output.
    The warning of the pairing is logged first. *)
Theorem expand_experiments_defers (t t' : dict) (ts paired : list dict)
    (warns : list warning) :
  dmem KEY.GRID t = true -> dmem KEY.LIST t = true ->
  set_defaults t = OK t' ->
  params_combine t' (Some KEY.LIST) (Some zip) = OK (paired, warns) ->
  Forall single_stage ts ->
  expand_experiments (t :: ts) =
  do (r1, w1) <- expand_experiments ts;
  do (r2, w2) <- expand_experiments paired;
  OK (r1 ++ r2, warns ++ w1 ++ w2).
Proof.
  intros Hg Hl Hd Hpc Hts.
  assert (Hboth : dmem KEY.GRID t' && dmem KEY.LIST t' = true).
  { rewrite !(set_defaults_dmem t t' _ Hd) by key_neq. now rewrite Hg, Hl. }
  unfold expand_experiments. rewrite loop_budget_cons.
  rewrite (expand_loop_both _ _ _ _ _ _ Hd Hboth), Hpc. simpl.
  destruct (requeue_within_bound _ _ _ _ Hd Hpc) as [Hlen Hzero].
  pose proof (loop_budget_length ts) as Hlts.
  assert (Hbp : loop_budget paired = length paired)
    by (unfold loop_budget; lia).
  rewrite expand_loop_acc.
  rewrite (expand_loop_split ts paired) by (auto; lia).
  destruct (expand_loop (loop_budget ts) ts [] []) as [[r1 w1]|e];
    simpl; [|reflexivity].
  destruct (expand_loop (loop_budget paired) paired [] []) as [[r2 w2]|e];
    simpl; [|reflexivity].
  now rewrite normalize_expanded_paths_app.
Qed.

(* ----------------------------------------------------------------- *)
(** *** The keys the expansion leaves alone, and the warnings *)

(** The keys the loop itself works on, the path normalizer apart. *)
Lemma expand_loop_derived (ts : list dict) (fuel : nat) :
  let from r :=
    exists t, In t ts /\
      forall k, k <> KEY.GRID -> k <> KEY.LIST -> k <> KEY.PARAMS ->
                k <> KEY.i_EXP_NAME -> k <> KEY.i_NEST_DIR ->
                k <> KEY.i_BASIC_PATH -> dget k r = dget k t in
  forall (queue acc : list dict) (log : list warning) (records : list dict)
         (log' : list warning),
    Forall from queue -> Forall from acc ->
    expand_loop fuel queue acc log = OK (records, log') ->
    Forall from records.
Proof.
  intros from. induction fuel as [|fuel IH];
    intros queue acc log records log' Hq Hacc He.
  - destruct queue; [|discriminate]. now injection He as <- _.
  - destruct queue as [|c queue]; [now injection He as <- _|].
    inversion Hq as [|? ? (t & Ht & Hc) Hq']; subst.
    destruct (set_defaults c) as [c'|e] eqn:Hd;
      [|simpl in He; rewrite Hd in He; discriminate].
    assert (Hc' : forall k, k <> KEY.GRID -> k <> KEY.LIST ->
                   k <> KEY.PARAMS -> k <> KEY.i_EXP_NAME ->
                   k <> KEY.i_NEST_DIR -> k <> KEY.i_BASIC_PATH ->
                   dget k c' = dget k t).
    { intros k H1 H2 H3 H4 H5 H6.
      rewrite (set_defaults_other c c' k Hd) by assumption. now apply Hc. }
    destruct (dmem KEY.GRID c' && dmem KEY.LIST c') eqn:Hboth.
    + rewrite (expand_loop_both _ _ _ _ _ _ Hd Hboth) in He.
      apply bind_ok in He as ([recs warns] & Hpc & He).
      apply (IH (queue ++ recs) acc (log ++ warns) records log'); [|assumption|exact He].
      apply Forall_app. split; [assumption|].
      eapply Forall_impl;
        [eapply (params_combine_inv c' KEY.LIST zip); [now right | exact Hpc]|].
      intros r (_ & _ & _ & Ho). exists t. split; [assumption|].
      intros k H1 H2 H3 H4 H5 H6. rewrite Ho by assumption. now apply Hc'.
    + rewrite (expand_loop_plain _ _ _ _ _ _ Hd Hboth) in He.
      apply bind_ok in He as ([base warns] & Hpc & He).
      apply bind_ok in He as (expansion & Hab & He).
      apply (IH queue (acc ++ expansion) (log ++ warns) records log'); [assumption| |exact He].
      apply Forall_app. split; [assumption|].
      eapply (ablative_stage_keys from); [| |exact Hab].
      * intros r r' (t0 & Ht0 & Hr) Ho. exists t0. split; [assumption|].
        intros k H1 H2 H3 H4 H5 H6. rewrite Ho by assumption. now apply Hr.
      * apply List.Forall_forall. intros r Hr. exists t.
        split; [assumption|]. intros k H1 H2 H3 H4 H5 H6.
        pose proof (params_combine_directive_keys c' base warns k Hpc
                      H1 H2 H3 H4 H5) as Hk.
        rewrite List.Forall_forall in Hk. rewrite (Hk r Hr). now apply Hc'.
Qed.

(** X9.  The expansion leaves the user's settings alone: every record
    returned comes from one template of the input, and has under every
    key but [grid], [list], [params], the two path fields and the three
    bookkeeping fields what that template has there ([name],
    [repetitions], [ablative] and any key of the user's own). *)
Theorem expand_experiments_derived (ts records : list dict)
    (log : list warning) :
  expand_experiments ts = OK (records, log) ->
  Forall (fun r => exists t, In t ts /\ derived t r) records.
Proof.
  intros He. unfold expand_experiments in He.
  apply bind_ok in He as ([recs log0] & Hloop & He). injection He as <- _.
  apply List.Forall_map.
  eapply Forall_impl.
  - apply (expand_loop_derived ts (loop_budget ts) ts [] [] recs log0);
      [|constructor|exact Hloop].
    apply List.Forall_forall. intros t Ht. exists t. auto.
  - intros r (t & Ht & Hr). exists t. split; [assumption|].
    intros k Hk. unfold managed in Hk. simpl in Hk.
    rewrite normalize_record_frame by (intros ->; apply Hk; tauto).
    apply Hr; intros ->; apply Hk; tauto.
Qed.

Lemma params_combine_quiet (c : dict) (key : option string)
    (f : option iter_func) (records : list dict) (log : list warning) :
  key <> Some KEY.LIST ->
  params_combine c key f = OK (records, log) -> log = [].
Proof.
  intros Hk. unfold params_combine.
  destruct f as [iter|]; [|now intros [= _ <-]].
  destruct key as [key|]; [|discriminate].
  intros Hpc. apply bind_ok in Hpc as (sweep & _ & Hpc).
  apply bind_ok in Hpc as (td & _ & Hpc).
  destruct (String.eqb_spec key KEY.LIST) as [->|_]; [now contradiction Hk|].
  simpl in Hpc. apply bind_ok in Hpc as (cs & _ & Hpc). now injection Hpc as _ <-.
Qed.

Lemma expand_loop_quiet (fuel : nat) :
  forall (queue acc : list dict) (log : list warning) (records : list dict)
         (log' : list warning),
    Forall (fun t => dmem KEY.LIST t = false) queue ->
    expand_loop fuel queue acc log = OK (records, log') ->
    log' = log.
Proof.
  induction fuel as [|fuel IH]; intros queue acc log records log' Hq He.
  - destruct queue; [|discriminate]. now injection He as _ <-.
  - destruct queue as [|c queue]; [now injection He as _ <-|].
    inversion Hq as [|? ? Hc Hq']; subst.
    destruct (set_defaults c) as [c'|e] eqn:Hd;
      [|simpl in He; rewrite Hd in He; discriminate].
    assert (Hl : dmem KEY.LIST c' = false)
      by (rewrite (set_defaults_dmem c c' _ Hd) by key_neq; exact Hc).
    assert (Hboth : dmem KEY.GRID c' && dmem KEY.LIST c' = false)
      by (rewrite Hl; apply andb_false_r).
    rewrite (expand_loop_plain _ _ _ _ _ _ Hd Hboth) in He.
    apply bind_ok in He as ([base warns] & Hpc & He).
    apply bind_ok in He as (expansion & _ & He).
    apply params_combine_quiet in Hpc as ->.
    + rewrite app_nil_r in He. eapply IH; eauto.
    + unfold directive. rewrite Hl.
      destruct (dmem KEY.GRID c'); simpl; [|discriminate].
      now intros [= E].
Qed.

(** X10.  Nothing is logged without a [list] directive: an expansion of
    templates none of which has a [list] key that returns, returns no
    warning. *)
Theorem expand_experiments_quiet (ts records : list dict)
    (log : list warning) :
  Forall (fun t => dmem KEY.LIST t = false) ts ->
  expand_experiments ts = OK (records, log) -> log = [].
Proof.
  intros Hts He. unfold expand_experiments in He.
  apply bind_ok in He as ([recs log0] & Hloop & He). injection He as _ <-.
  eapply expand_loop_quiet; eauto.
Qed.

(* ----------------------------------------------------------------- *)
(** *** From templates to jobs *)

Lemma unroll_config_flat (r : dict) (n : Z) (p : string) :
  dmem KEY.i_REP_IDX r = false ->
  dget KEY.REPS r = Some (VInt n) ->
  dget KEY.LOG_PATH r = Some (VStr p) ->
  unroll_config r = OK (map (repetition r) (seq 0 (job_count r))).
Proof.
  intros Hi Hn Hp. unfold unroll_config, job_count, dgetE.
  rewrite Hi, Hn. simpl. apply map_result_ok. intros j _.
  rewrite (unroll_rep_ok r p j Hp). unfold repetition, text_of.
  now rewrite Hp.
Qed.

Lemma unroll_exp_reps_flat (records : list dict) :
  Forall (fun r => dmem KEY.i_REP_IDX r = false /\
                   (exists n, dget KEY.REPS r = Some (VInt n)) /\
                   exists p, dget KEY.LOG_PATH r = Some (VStr p)) records ->
  unroll_exp_reps records =
  OK (flat_map (fun r => map (repetition r) (seq 0 (job_count r))) records).
Proof.
  induction 1 as [|r records (Hi & [n Hn] & [p Hp]) _ IH]; [reflexivity|].
  rewrite unroll_exp_reps_cons, (unroll_config_flat r n p Hi Hn Hp), IH.
  reflexivity.
Qed.

(** X11.  From templates to jobs.  When the expansion returns [records]
    and every one of them has a log path, for templates that give
    [repetitions] as a number and carry no repetition index, the whole
    unfolding returns, for each record in the order of the expansion, its
    repetitions in ascending order of their index, as many as its
    template says; with [R] repetitions in every template these are [R]
    times as many jobs as records. *)
Theorem unfold_exps_jobs (ts records : list dict) (log : list warning) :
  expand_experiments ts = OK (records, log) ->
  Forall (fun t => dmem KEY.i_REP_IDX t = false /\
                   exists n, dget KEY.REPS t = Some (VInt n)) ts ->
  Forall (fun r => exists p, dget KEY.LOG_PATH r = Some (VStr p)) records ->
  unfold_exps ts =
    OK (flat_map (fun r => map (repetition r) (seq 0 (job_count r))) records,
        log) /\
  Forall (fun r => exists t, In t ts /\ job_count r = job_count t) records /\
  forall R,
    Forall (fun t => job_count t = R) ts ->
    length (flat_map (fun r => map (repetition r) (seq 0 (job_count r)))
                     records)
    = length records * R.
Proof.
  intros He Hts Hlog.
  assert (Hreps : Forall (inherits KEY.REPS ts) records)
    by (apply (expand_experiments_inherits KEY.REPS ts records log);
        solve [key_neq | exact He]).
  assert (Hidx : Forall (inherits KEY.i_REP_IDX ts) records)
    by (apply (expand_experiments_inherits KEY.i_REP_IDX ts records log);
        solve [key_neq | exact He]).
  rewrite List.Forall_forall in Hts, Hreps, Hidx.
  assert (Hnoidx : forall r, In r records -> dmem KEY.i_REP_IDX r = false).
  { intros r Hr. destruct (Hidx r Hr) as (t & Ht & Hk).
    destruct (Hts t Ht) as (Hi & _). unfold dmem in *. now rewrite Hk. }
  assert (Hcount : Forall (fun r => exists t, In t ts /\
                                     job_count r = job_count t) records).
  { apply List.Forall_forall. intros r Hr.
    destruct (Hreps r Hr) as (t & Ht & Hk). exists t. split; [assumption|].
    destruct (Hts t Ht) as (Hi & _).
    unfold job_count. now rewrite (Hnoidx r Hr), Hi, Hk. }
  split; [|split; [exact Hcount|]].
  - unfold unfold_exps. rewrite He. simpl.
    rewrite unroll_exp_reps_flat; [reflexivity|].
    rewrite List.Forall_forall in *. intros r Hr.
    split; [now apply Hnoidx|]. split; [|now apply Hlog].
    destruct (Hreps r Hr) as (t & Ht & Hk).
    destruct (Hts t Ht) as (_ & n & Hn). exists n. now rewrite Hk.
  - intros R HR.
    rewrite List.Forall_forall in Hcount, HR.
    clear He Hlog Hreps Hidx Hnoidx.
    induction records as [|r records IH]; [reflexivity|].
    simpl. rewrite length_app, length_map, length_seq.
    rewrite IH by (intros x Hx; apply Hcount; now right).
    destruct (Hcount r (or_introl eq_refl)) as (t & Ht & ->).
    rewrite (HR t Ht). lia.
Qed.

(* ----------------------------------------------------------------- *)
(** *** Grid, list and ablative together *)



End UnfolderFacts.

(* ================================================================= *)
(** ** The unfolder on concrete templates *)

Lemma normalize_record_model_frame (r : dict) (k : string) :
  k <> KEY.PATH -> k <> KEY.LOG_PATH ->
  k <> KEY.i_BASIC_PATH -> k <> KEY.i_NEST_DIR ->
  dget k (normalize_record_model r) = dget k r.
Proof. intros. unfold normalize_record_model. now dget_simpl. Qed.

(** Decide that concrete values are pairwise different. *)
Ltac nodup_values :=
  repeat constructor; rewrite ?elem_of_cons, ?elem_of_nil; intuition discriminate.

(** Decide that a concrete dict is a template. *)
Ltac template := repeat split; try reflexivity; now exists "exp".

(* ----------------------------------------------------------------- *)
(** *** Grid *)

(** The grid of the example: two by three candidates, six records that
    bind six different tuples. *)
Lemma grid_expansion_cross_product_witness :
  exists records,
    expand_experiments (H := model) [grid_template] = OK (records, []) /\
    length records = 6 /\
    NoDup (map (bound_tuple grid_template_td) records).
Proof.
  destruct (grid_expansion_cross_product (H := model)
              normalize_record_model_frame grid_template
              (VDict [("lr", VList [VInt 1; VInt 2]);
                      ("opt", VDict [("m", VList [VStr "a"; VStr "b"; VStr "c"])])])
              grid_template_td ltac:(template)
              eq_refl eq_refl eq_refl eq_refl eq_refl)
    as (records & He & Hlen & _ & Hnd).
  - repeat constructor.
  - exists records. split; [exact He|]. split; [exact Hlen|].
    apply Hnd. nodup_values.
Defined.

(** C1, as stated, fails on a candidate list that holds the value [1]
    twice: the grid has one key-path of length two, the expansion returns
    two records, and both bind [lr] to [1]; they are the same record. *)
Lemma grid_repeated_candidate_same_tuple :
  is_template repeated_grid_template /\
  flatten_dict_to_tuple_keys (VDict [("lr", VList [VInt 1; VInt 1])])
    = OK [(["lr"], [VInt 1; VInt 1])] /\
  expand_experiments (H := model) [repeated_grid_template]
    = OK ([repeated_grid_record; repeated_grid_record], []) /\
  ~ NoDup (map (bound_tuple [(["lr"], [VInt 1; VInt 1])])
               [repeated_grid_record; repeated_grid_record]).
Proof.
  split; [template|]. split; [reflexivity|]. split; [reflexivity|].
  intros Hnd. apply NoDup_cons in Hnd as [Hin _]. apply Hin. left.
Qed.

(* ----------------------------------------------------------------- *)
(** *** List *)

(** Lists of lengths three and two: two records and the warning. *)
Lemma list_expansion_zip_witness :
  exists records,
    expand_experiments (H := model) [list_template]
      = OK (records, [ListParamsNotOfEqualLength (VStr "exp")]) /\
    length records = 2.
Proof.
  destruct (list_expansion_zip (H := model)
              normalize_record_model_frame list_template
              (VDict [("a", VList [VInt 1; VInt 2; VInt 3]);
                      ("b", VList [VInt 5; VInt 6])])
              list_template_td "exp" ltac:(template)
              eq_refl eq_refl eq_refl eq_refl eq_refl eq_refl)
    as (records & log & He & Hlen & _ & Hwarn & _).
  - repeat constructor.
  - exists records. split; [|exact Hlen].
    rewrite He. rewrite Hwarn; [reflexivity|].
    right. exists (["a"], [VInt 1; VInt 2; VInt 3]), (["b"], [VInt 5; VInt 6]).
    split; [now left|]. split; [right; now left|]. discriminate.
Defined.

(** C5.  A template whose [list] directive has no key-path: there is no
    value list, so no two differ in length, and the expansion, which
    returns no record, logs the warning that the list parameters are not
    of equal length. *)
Lemma empty_list_directive_warns :
  is_template empty_list_template /\
  dget KEY.LIST empty_list_template = Some (VDict []) /\
  flatten_dict_to_tuple_keys (VDict []) = OK [] /\
  expand_experiments (H := model) [empty_list_template]
    = OK ([], [ListParamsNotOfEqualLength (VStr "exp")]).
Proof. split; [template|]. repeat split. Qed.

(* ----------------------------------------------------------------- *)
(** *** Grid and list *)

(** Two paired tuples and a grid of two candidates: four records; the
    last, at position [1 * 2 + 1], binds [lr] to the second candidate of
    the grid and [a] to the second candidate of its list. *)
Lemma grid_and_list_expansion_witness :
  exists records log,
    expand_experiments (H := model) [both_template] = OK (records, log) /\
    length records = 4 /\
    forall r, records !! 3 = Some r ->
              record_param r ["lr"] = Some (VInt 2) /\
              record_param r ["a"] = Some (VInt 2).
Proof.
  destruct (grid_and_list_expansion (H := model)
              normalize_record_model_frame both_template
              (VDict [("lr", VList [VInt 1; VInt 2])])
              (VDict [("a", VList [VInt 1; VInt 2; VInt 3]);
                      ("b", VList [VInt 5; VInt 6])])
              [(["lr"], [VInt 1; VInt 2])] list_template_td "exp"
              ltac:(template)
              eq_refl eq_refl eq_refl eq_refl eq_refl eq_refl eq_refl eq_refl)
    as (records & log & He & Hlen & Hbind & _).
  - repeat constructor.
  - repeat constructor.
  - intros kl kg Hl Hg. simpl in Hl, Hg.
    destruct Hg as [<-|[]]. destruct Hl as [<-|[<-|[]]]; reflexivity.
  - exists records, log. split; [exact He|]. split; [exact Hlen|].
    intros r Hr.
    destruct (Hbind 1 1 r ltac:(simpl; lia) Hr) as [Hgrid Hlist]. split.
    + exact (Hgrid 0 ["lr"] [VInt 1; VInt 2] eq_refl).
    + apply (Hlist 0 ["a"] [VInt 1; VInt 2; VInt 3] eq_refl).
      repeat constructor. discriminate.
Defined.

(** C2, as stated, fails on a template that has an [ablative] directive
    next to [grid] and [list]: the list pairs two tuples and the grid has
    two candidates, [n * g = 4], but each of the two records that go back
    on the work list has kept [ablative], so that its two grid records
    are followed by their ablative variants, one each: the expansion
    returns eight records. *)
Lemma grid_list_ablative_eight_records :
  is_template both_ablative_template /\
  dget KEY.GRID both_ablative_template
    = Some (VDict [("lr", VList [VInt 1; VInt 2])]) /\
  dget KEY.LIST both_ablative_template
    = Some (VDict [("a", VList [VInt 1; VInt 2; VInt 3]);
                   ("b", VList [VInt 5; VInt 6])]) /\
  flatten_dict_to_tuple_keys (VDict [("lr", VList [VInt 1; VInt 2])])
    = OK [(["lr"], [VInt 1; VInt 2])] /\
  flatten_dict_to_tuple_keys (VDict [("a", VList [VInt 1; VInt 2; VInt 3]);
                                     ("b", VList [VInt 5; VInt 6])])
    = OK list_template_td /\
  min_list (lengths list_template_td)
    * prod_list (lengths [(["lr"], [VInt 1; VInt 2])]) = 4 /\
  expand_experiments (H := model) [both_ablative_template]
    = OK (both_ablative_records, [ListParamsNotOfEqualLength (VStr "exp")]) /\
  length both_ablative_records = 8 /\
  map (dget KEY.i_EXP_NAME) both_ablative_records
    = map (fun s => Some (VStr s))
          ["exp__a_1_b_5_lr_1"; "exp__a_1_b_5_lr_2";
           "exp__a_1_b_5_lr_1_c_9"; "exp__a_1_b_5_lr_2_c_9";
           "exp__a_2_b_6_lr_1"; "exp__a_2_b_6_lr_2";
           "exp__a_2_b_6_lr_1_c_9"; "exp__a_2_b_6_lr_2_c_9"].
Proof. split; [template|]. repeat split. Qed.

(* ----------------------------------------------------------------- *)
(** *** Ablative *)

(** One base record and factors of one and two values: the base record
    and three variants. *)
Lemma ablative_expansion_additive_witness :
  exists variants,
    expand_experiments (H := model) [ablative_template]
      = OK (normalize_expanded_paths (H := model)
              ([ablative_template_defaults] ++ variants), []) /\
    length ([ablative_template_defaults] ++ variants) = 4.
Proof.
  destruct (ablative_expansion_additive (H := model) ablative_template
              ablative_template_defaults "exp" ablative_directive
              ablative_template_td [ablative_template_defaults] []
              ltac:(template)
              eq_refl eq_refl eq_refl eq_refl eq_refl eq_refl)
    as (variants & He & Hlen & _).
  - repeat constructor.
  - exists variants. split; [exact He|exact Hlen].
Defined.

(* ----------------------------------------------------------------- *)
(** *** Directive keys *)

(** The records of the ablative example have no [grid] and no [list]
    key, and the [ablative] entry of the template. *)
Lemma expanded_records_directive_keys_witness :
  Forall (fun r => dmem KEY.GRID r = false /\ dmem KEY.LIST r = false)
         ablative_records
  /\ Forall (fun r => exists t, In t [ablative_template] /\
                                dget KEY.ABLATIVE r = dget KEY.ABLATIVE t)
            ablative_records.
Proof.
  apply (expanded_records_directive_keys (H := model)
           normalize_record_model_frame [ablative_template]
           ablative_records []).
  reflexivity.
Defined.

(** C6, as stated, fails on the ablative example: its four records all
    carry the [ablative] directive of their template. *)
Lemma ablative_key_retained :
  expand_experiments (H := model) [ablative_template]
    = OK (ablative_records, []) /\
  length ablative_records = 4 /\
  Forall (fun r => dget KEY.ABLATIVE r = Some ablative_directive)
         ablative_records.
Proof. split; [reflexivity|]. split; [reflexivity|]. repeat constructor. Qed.

(* ----------------------------------------------------------------- *)
(** *** Names, repetitions, identity *)

(** A name that holds [__] already is extended with [_]. *)
Lemma extend_config_name_separator_witness :
  exists config',
    extend_config_name (H := model)
      [("name", VStr "exp"); ("_experiment_name", VStr "exp__lr_1")]
      ["a"] [VInt 5] = OK config' /\
    dget KEY.i_EXP_NAME config' = Some (VStr "exp__lr_1_a_5") /\
    dget KEY.i_NEST_DIR config' = Some (VStr "exp").
Proof.
  destruct (extend_config_name_separator (H := model)
              [("name", VStr "exp"); ("_experiment_name", VStr "exp__lr_1")]
              ["a"] [VInt 5] "exp__lr_1" (VStr "exp") eq_refl eq_refl)
    as (config' & He & [_ Hsep] & Hnest & _).
  exists config'. split; [exact He|]. split; [|exact Hnest].
  apply Hsep. now exists "exp", "lr_1".
Defined.

(** Three repetitions: three records, the last with index [2] and the
    log path [.../log/rep_02]. *)
Lemma unroll_exp_reps_repetitions_witness :
  exists records,
    unroll_exp_reps [expanded_record] = OK records /\
    length records = 3 /\
    exists c,
      records !! 2 = Some c /\
      dget KEY.i_REP_IDX c = Some (VInt 2) /\
      dget KEY.i_REP_LOG_PATH c = Some (VStr "/out/exp/exp__lr_1/log/rep_02").
Proof.
  destruct (proj1 (unroll_exp_reps_repetitions expanded_record) 3
              "/out/exp/exp__lr_1/log" eq_refl eq_refl eq_refl)
    as (records & He & Hlen & Hrec).
  exists records. split; [exact He|]. split; [exact Hlen|].
  destruct (Hrec 2 ltac:(lia)) as (c & Hc & Hidx & Hlog & _).
  exists c. split; [exact Hc|]. split; [exact Hidx|exact Hlog].
Defined.

(** A template without directive expands to itself with its default
    values and its paths. *)
Lemma params_combine_identity_witness :
  expand_experiments (H := model) [no_reps_template]
    = OK ([no_reps_record], []).
Proof.
  destruct (proj2 (params_combine_identity (H := model)) no_reps_template
              eq_refl eq_refl) as [_ He].
  rewrite He. reflexivity.
Defined.

(* ----------------------------------------------------------------- *)
(** *** Missing fields *)

(** The exception of each missing field, on templates that lack one. *)
Lemma missing_required_field_witness :
  expand_experiments (H := model) [no_path_template] = Err (KeyError KEY.PATH) /\
  unfold_exps (H := model) [no_name_template] = Err (KeyError KEY.NAME) /\
  unfold_exps (H := model) [no_reps_template] = Err (KeyError KEY.REPS).
Proof.
  destruct (missing_required_field (H := model) normalize_record_model_frame)
    as (Hpath & Hname & Hreps).
  split; [|split].
  - exact (proj1 (proj2 (Hpath no_path_template [] [] eq_refl eq_refl))).
  - exact (proj2 (proj2 (Hname no_name_template [] [] eq_refl eq_refl) eq_refl)).
  - apply (proj1 (Hreps no_reps_template [no_reps_record] [] eq_refl eq_refl
                    eq_refl)).
    discriminate.
Defined.

(** C8, as stated, fails on a template without [repetitions]: the
    expansion does not fail, it returns a record; and when the template
    expands to no record, the whole unfolding returns the empty list and
    no exception is raised. *)
Lemma missing_repetitions_not_fatal :
  dmem KEY.REPS no_reps_template = false /\
  expand_experiments (H := model) [no_reps_template]
    = OK ([no_reps_record], []) /\
  dmem KEY.REPS no_reps_empty_list_template = false /\
  unfold_exps (H := model) [no_reps_empty_list_template] = OK ([], []).
Proof. repeat split. Qed.

(* ----------------------------------------------------------------- *)
(** *** Repetitions, names, order, keys *)

(** The three repetitions of a record, unrolled again. *)
Lemma unroll_exp_reps_idempotent_witness :
  Forall indexed expanded_jobs /\
  unroll_exp_reps expanded_jobs = OK expanded_jobs.
Proof.
  exact (unroll_exp_reps_idempotent [expanded_record] expanded_jobs eq_refl).
Defined.

(** A record with three repetitions followed by one with none. *)
Lemma unroll_exp_reps_job_count_witness :
  exists out1 out2,
    unroll_exp_reps [expanded_record] = OK out1 /\
    unroll_exp_reps [zero_reps_record] = OK out2 /\
    expanded_jobs = out1 ++ out2 /\
    length out1 = 3 /\
    length expanded_jobs = 3.
Proof.
  exact (unroll_exp_reps_job_count [expanded_record] [zero_reps_record]
           expanded_jobs eq_refl).
Defined.

(** No repetition, and two repetitions without a log path. *)
Lemma unroll_exp_reps_edge_witness :
  unroll_exp_reps [zero_reps_record] = OK [] /\
  unroll_exp_reps [no_log_record] = Err (KeyError KEY.LOG_PATH).
Proof.
  split.
  - apply (proj1 (unroll_exp_reps_edge zero_reps_record 0 eq_refl eq_refl)).
    lia.
  - apply (proj2 (unroll_exp_reps_edge no_log_record 2 eq_refl eq_refl));
      [lia | reflexivity].
Defined.

(** The name [exp], extended for [lr = 1] and then for [a = 5]. *)
Lemma extend_config_name_twice_witness :
  exists c1 c2,
    extend_config_name (H := model) named_config ["lr"] [VInt 1] = OK c1 /\
    extend_config_name (H := model) c1 ["a"] [VInt 5] = OK c2 /\
    dget KEY.i_EXP_NAME c2 = Some (VStr "exp__lr_1_a_5") /\
    dget KEY.i_NEST_DIR c2 = Some (VStr "exp").
Proof.
  exact (extend_config_name_twice (H := model) named_config ["lr"] ["a"]
           [VInt 1] [VInt 5] "exp" (VStr "exp") eq_refl eq_refl).
Defined.

(** The grid template followed by the list template. *)
Lemma expand_experiments_app_witness :
  expand_experiments (H := model) [grid_template; list_template]
  = OK (grid_records ++ list_records,
        [ListParamsNotOfEqualLength (VStr "exp")]).
Proof.
  refine (eq_trans (expand_experiments_app (H := model) [grid_template]
                      [list_template] _) _).
  - repeat constructor.
  - vm_compute. reflexivity.
Defined.

(** The template with both directives, followed by the grid template:
    the six records of the grid template come first. *)
Lemma expand_experiments_defers_witness :
  expand_experiments (H := model) [both_template; grid_template]
  = OK (grid_records ++ both_records,
        [ListParamsNotOfEqualLength (VStr "exp")]).
Proof.
  refine (eq_trans (expand_experiments_defers (H := model) both_template
                      both_template_defaults [grid_template]
                      both_template_paired
                      [ListParamsNotOfEqualLength (VStr "exp")]
                      eq_refl eq_refl eq_refl eq_refl _) _).
  - repeat constructor.
  - vm_compute. reflexivity.
Defined.

(** The records of the ablative example and their template. *)
Lemma expand_experiments_derived_witness :
  Forall (fun r => exists t, In t [ablative_template] /\ derived t r)
         ablative_records.
Proof.
  exact (expand_experiments_derived (H := model) normalize_record_model_frame
           [ablative_template] ablative_records [] eq_refl).
Defined.

(** The grid example logs nothing. *)
Lemma expand_experiments_quiet_witness : grid_log = [].
Proof.
  apply (expand_experiments_quiet (H := model) [grid_template] grid_records
           grid_log); [repeat constructor | reflexivity].
Defined.

(** The grid example, with two repetitions: twelve jobs. *)
Lemma unfold_exps_jobs_witness :
  exists jobs,
    unfold_exps (H := model) [grid_template] = OK (jobs, []) /\
    length jobs = 12.
Proof.
  destruct (unfold_exps_jobs (H := model) normalize_record_model_frame
              [grid_template] grid_records [] eq_refl)
    as (Hu & _ & Hlen).
  - repeat constructor. now exists 2%Z.
  - repeat constructor; eexists; reflexivity.
  - eexists. split; [exact Hu|]. apply (Hlen 2). repeat constructor.
Defined.


(* ================================================================= *)
(** ** The caller's objects are left alone *)

Module StoreFacts.

Import Store StoreSpec.

Lemma frame_refl (n : nat) (h : list obj) : frame n h h.
Proof. split; auto. Qed.

Lemma frame_trans (n : nat) (h1 h2 h3 : list obj) :
  frame n h1 h2 -> frame n h2 h3 -> frame n h1 h3.
Proof.
  intros [Hl1 Hf1] [Hl2 Hf2]. split; [lia|].
  intros l Hl. now rewrite Hf2, Hf1.
Qed.

Lemma safe_ret {A : Type} (n : nat) (P : A -> Prop) (a : A) :
  P a -> safe n P (ret a).
Proof. intros Ha s Hn Hc. simpl. auto using frame_refl. Qed.

Lemma safe_raise {A : Type} (n : nat) (P : A -> Prop) (e : error) :
  safe n P (raise e).
Proof. intros s Hn Hc. simpl. auto using frame_refl. Qed.

Lemma safe_bind {A B : Type} (n : nat) (P : A -> Prop) (Q : B -> Prop)
    (m : M A) (f : A -> M B) :
  safe n P m -> (forall a, P a -> safe n Q (f a)) -> safe n Q (bindM m f).
Proof.
  intros Hm Hf s Hn Hc. unfold bindM.
  destruct (Hm s Hn Hc) as (Hfr & Hcl & HP).
  destruct (m s) as [[a|e] s1]; simpl in *; [|auto].
  destruct (Hf a HP s1) as (Hfr' & Hcl' & HQ); [destruct Hfr; lia | assumption |].
  split; [eapply frame_trans; eauto | auto].
Qed.

Lemma safe_weaken {A : Type} (n : nat) (P Q : A -> Prop) (m : M A) :
  safe n P m -> (forall a, P a -> Q a) -> safe n Q m.
Proof.
  intros Hm HPQ s Hn Hc. destruct (Hm s Hn Hc) as (Hfr & Hcl & HP).
  split; [assumption|]. split; [assumption|].
  destruct (fst (m s)); auto.
Qed.

Lemma safe_forM {A B : Type} (n : nat) (P : B -> Prop) (f : A -> M B)
    (l : list A) :
  (forall x, In x l -> safe n P (f x)) -> safe n (Forall P) (forM f l).
Proof.
  induction l as [|x l IH]; intros Hf; simpl.
  - apply safe_ret. constructor.
  - eapply safe_bind; [apply Hf; now left|]. intros y Hy.
    eapply safe_bind; [apply IH; intros z Hz; apply Hf; now right|].
    intros ys Hys. apply safe_ret. now constructor.
Qed.

Lemma safe_read {A : Type} (n : nat) (g : list obj -> A) :
  safe n (fun _ => True) (fun s => (OK (g (objects s)), s)).
Proof. intros s Hn Hc. simpl. auto using frame_refl. Qed.

(* ----------------------------------------------------------------- *)
(** *** Objects *)

Lemma closed_app (n : nat) (h : list obj) (o : obj) :
  closed n h -> fresh_obj n o -> closed n (h ++ [o]).
Proof.
  intros Hc Ho l o' Hl Hlook.
  destruct (Nat.lt_ge_cases l (length h)) as [Hlt|Hge].
  - rewrite lookup_app_l in Hlook by assumption. eauto.
  - rewrite lookup_app_r in Hlook by assumption.
    destruct (l - length h) as [|k]; simpl in Hlook; [|discriminate].
    now injection Hlook as <-.
Qed.

Lemma closed_insert (n l : nat) (h : list obj) (o : obj) :
  closed n h -> fresh_obj n o -> closed n (<[l := o]> h).
Proof.
  intros Hc Ho l' o' Hl' Hlook.
  destruct (Nat.eq_dec l l') as [->|Hne].
  - destruct (Nat.lt_ge_cases l' (length h)) as [Hlt|Hge].
    + rewrite list_lookup_insert_eq in Hlook by assumption.
      now injection Hlook as <-.
    + rewrite list_insert_ge in Hlook by assumption. eauto.
  - rewrite list_lookup_insert_ne in Hlook by assumption. eauto.
Qed.

Lemma safe_alloc (n : nat) (o : obj) :
  fresh_obj n o -> safe n (fresh n) (alloc o).
Proof.
  intros Ho s Hn Hc. unfold alloc. simpl. split; [|split].
  - split; [rewrite length_app; lia|].
    intros l Hl. apply lookup_app_l. lia.
  - now apply closed_app.
  - exact Hn.
Qed.

Lemma safe_load (n : nat) (v : val) :
  safe n (fun o => fresh n v -> fresh_obj n o) (load v).
Proof.
  intros s Hn Hc. unfold load.
  destruct v as [| | |l]; simpl; auto using frame_refl.
  destruct (objects s !! l) as [o|] eqn:Hl; simpl; auto using frame_refl.
  split; [apply frame_refl|]. split; [assumption|]. intros Hf. eauto.
Qed.

Lemma safe_store (n : nat) (v : val) (o : obj) :
  fresh n v -> fresh_obj n o -> safe n (fun _ => True) (store v o).
Proof.
  intros Hv Ho s Hn Hc. unfold store.
  destruct v as [| | |l]; simpl; auto using frame_refl.
  destruct (objects s !! l) as [o0|] eqn:Hl; simpl; auto using frame_refl.
  split; [|split; [|exact I]].
  - split; [now rewrite length_insert|].
    intros l' Hl'. apply list_lookup_insert_ne. simpl in Hv. lia.
  - now apply closed_insert.
Qed.

Lemma safe_warn (n : nat) (w : warning) : safe n (fun _ => True) (warn w).
Proof. intros s Hn Hc. simpl. auto using frame_refl. Qed.

Lemma safe_load_dict (n : nat) (v : val) :
  safe n (fun items => fresh n v -> fresh_items n items) (load_dict v).
Proof.
  unfold load_dict. eapply safe_bind; [apply safe_load|].
  intros [items|items] Ho; [apply safe_ret; exact Ho | apply safe_raise].
Qed.

Lemma safe_load_list (n : nat) (v : val) :
  safe n (fun items => fresh n v -> Forall (fresh n) items) (load_list v).
Proof.
  unfold load_list. eapply safe_bind; [apply safe_load|].
  intros [items|items] Ho; [apply safe_raise | apply safe_ret; exact Ho].
Qed.

Lemma safe_contains (n : nat) (d : val) (k : string) :
  safe n (fun _ => True) (contains d k).
Proof.
  unfold contains. eapply safe_bind; [apply safe_load_dict|].
  intros items _. now apply safe_ret.
Qed.

Lemma fresh_items_dget (n : nat) (items : list (string * val)) (k : string)
    (v : val) :
  fresh_items n items -> dget k items = Some v -> fresh n v.
Proof.
  induction 1 as [|[k' v'] items Hv _ IH]; simpl; [discriminate|].
  destruct (String.eqb k k'); [now intros [= <-] | exact IH].
Qed.

Lemma fresh_items_dset (n : nat) (items : list (string * val)) (k : string)
    (v : val) :
  fresh_items n items -> fresh n v -> fresh_items n (dset k v items).
Proof.
  intros Hi Hv. induction Hi as [|[k' v'] items Hv' Hi IH]; simpl.
  - repeat constructor. exact Hv.
  - destruct (String.eqb k k'); constructor; auto.
Qed.

Lemma fresh_items_ddel (n : nat) (items : list (string * val)) (k : string) :
  fresh_items n items -> fresh_items n (ddel k items).
Proof.
  induction 1 as [|[k' v'] items Hv' _ IH]; simpl; [constructor|].
  destruct (String.eqb k k'); [assumption | now constructor].
Qed.

Lemma safe_getitem (n : nat) (d : val) (k : string) :
  safe n (fun v => fresh n d -> fresh n v) (getitem d k).
Proof.
  unfold getitem. eapply safe_bind; [apply safe_load_dict|].
  intros items Hi. destruct (dget k items) as [v|] eqn:Hk;
    [|apply safe_raise].
  apply safe_ret. intros Hd. eapply fresh_items_dget; eauto.
Qed.

Lemma safe_setitem (n : nat) (d : val) (k : string) (v : val) :
  fresh n d -> fresh n v -> safe n (fun _ => True) (setitem d k v).
Proof.
  intros Hd Hv. unfold setitem. eapply safe_bind; [apply safe_load_dict|].
  intros items Hi. apply safe_store; [assumption|].
  simpl. apply fresh_items_dset; auto.
Qed.

Lemma safe_delitem (n : nat) (d : val) (k : string) :
  fresh n d -> safe n (fun _ => True) (delitem d k).
Proof.
  intros Hd. unfold delitem. eapply safe_bind; [apply safe_load_dict|].
  intros items Hi. destruct (dmem k items); [|apply safe_raise].
  apply safe_store; [assumption|]. simpl. apply fresh_items_ddel; auto.
Qed.

Lemma safe_extend (n : nat) (l : val) (xs : list val) :
  fresh n l -> Forall (fresh n) xs -> safe n (fun _ => True) (extend l xs).
Proof.
  intros Hl Hxs. unfold extend. eapply safe_bind; [apply safe_load_list|].
  intros items Hi. apply safe_store; [assumption|].
  simpl. apply Forall_app. auto.
Qed.

(* ----------------------------------------------------------------- *)
(** *** [deepcopy] returns new objects *)

Lemma copy_values_cons (depth : nat) (x : val) (vs : list val)
    (memo : list (nat * nat)) :
  copy_values depth (x :: vs) memo =
  let! xm := deepcopy_memo depth x memo in
  let! vsm := copy_values depth vs (snd xm) in
  ret (fst xm :: fst vsm, snd vsm).
Proof. reflexivity. Qed.

Lemma deepcopy_memo_unfold (depth l : nat) (memo : list (nat * nat)) :
  deepcopy_memo (S depth) (VRef l) memo =
  match copied l memo with
  | Some l' => ret (VRef l', memo)
  | None =>
      let! o := load (VRef l) in
      match o with
      | OList items =>
          let! y := alloc (OList []) in
          match y with
          | VRef l' =>
              let! r := copy_values depth items ((l, l') :: memo) in
              store y (OList (fst r)) ;;;
              ret (y, snd r)
          | _ => raise TypeError
          end
      | ODict items =>
          let! y := alloc (ODict []) in
          match y with
          | VRef l' =>
              let! r := copy_values depth (map snd items) ((l, l') :: memo) in
              store y (ODict (combine (map fst items) (fst r))) ;;;
              ret (y, snd r)
          | _ => raise TypeError
          end
      end
  end.
Proof. reflexivity. Qed.

Lemma copied_fresh (n l l' : nat) (memo : list (nat * nat)) :
  memo_fresh n memo -> copied l memo = Some l' -> n <= l'.
Proof.
  induction 1 as [|[l0 l1] memo Hp _ IH]; simpl; [discriminate|].
  destruct (Nat.eqb l l0); [now intros [= <-] | exact IH].
Qed.

Lemma fresh_items_combine (n : nat) (ks : list string) (vs : list val) :
  Forall (fresh n) vs -> fresh_items n (combine ks vs).
Proof.
  intros Hvs. revert ks. unfold fresh_items.
  induction Hvs as [|v vs Hv _ IH]; intros [|k ks]; simpl; constructor;
    [exact Hv | apply IH].
Qed.

Lemma safe_deepcopy_memo (n depth : nat) :
  forall (v : val) (memo : list (nat * nat)),
    memo_fresh n memo ->
    safe n (fun r => fresh n (fst r) /\ memo_fresh n (snd r))
         (deepcopy_memo depth v memo).
Proof.
  induction depth as [|depth IH]; intros v memo Hm.
  - destruct v as [| | |l]; simpl; try (apply safe_ret; simpl; auto).
    destruct (copied l memo) as [l'|] eqn:Hl; [|apply safe_raise].
    apply safe_ret. split; [|assumption]. simpl. eapply copied_fresh; eauto.
  - assert (Hcopy : forall vs memo,
               memo_fresh n memo ->
               safe n (fun r => Forall (fresh n) (fst r) /\ memo_fresh n (snd r))
                    (copy_values depth vs memo)).
    { induction vs as [|x vs IHvs]; intros memo0 Hm0.
      - apply safe_ret. split; [constructor | assumption].
      - rewrite copy_values_cons.
        eapply safe_bind; [apply IH; assumption|]. intros [x' m1] [Hx Hm1].
        eapply safe_bind; [apply IHvs; assumption|]. intros [vs' m2] [Hvs Hm2].
        apply safe_ret. split; [now constructor | assumption]. }
    destruct v as [| | |l]; try (apply safe_ret; simpl; auto).
    rewrite deepcopy_memo_unfold.
    destruct (copied l memo) as [l'|] eqn:Hl.
    { apply safe_ret. split; [|assumption]. simpl. eapply copied_fresh; eauto. }
    eapply safe_bind; [apply safe_load|]. intros [items|items] _.
    + eapply safe_bind; [apply safe_alloc; constructor|].
      intros [| | |l'] Hy; try apply safe_raise.
      eapply safe_bind; [apply Hcopy; constructor; assumption|].
      intros [vs' m'] [Hvs Hm']. simpl.
      eapply safe_bind;
        [apply safe_store; [exact Hy | now apply fresh_items_combine]|].
      intros _ _. apply safe_ret. auto.
    + eapply safe_bind; [apply safe_alloc; constructor|].
      intros [| | |l'] Hy; try apply safe_raise.
      eapply safe_bind; [apply Hcopy; constructor; assumption|].
      intros [vs' m'] [Hvs Hm']. simpl.
      eapply safe_bind; [apply safe_store; [exact Hy | exact Hvs]|].
      intros _ _. apply safe_ret. auto.
Qed.

(** Whatever is copied, the copy is an atom or a new object, and no
    object of the caller is written. *)
Lemma safe_deepcopy (n : nat) (v : val) : safe n (fresh n) (deepcopy v).
Proof.
  intros s Hn Hc. unfold deepcopy.
  refine (safe_bind n _ _ _ _ _ _ s Hn Hc).
  - apply safe_deepcopy_memo. constructor.
  - intros [v' m] [Hv _]. now apply safe_ret.
Qed.

(* ----------------------------------------------------------------- *)
(** *** The unfolder writes to new objects only *)

Section Safety.

Variable n : nat.
Variable fuel : nat.
Variable convert_param_names : list string -> list val -> list obj -> string.
Variable path_fields : list (string * val) -> list (string * string).

Lemma flatten_unfold (depth : nat) (d : val) :
  flatten (S depth) d =
  let! items := load_dict d in flatten_entries depth items.
Proof. reflexivity. Qed.

Lemma flatten_entries_cons (depth : nat) (k : string) (v : val)
    (items : list (string * val)) :
  flatten_entries depth ((k, v) :: items) =
  let! o := load v in
  match o with
  | ODict _ =>
      let! sub := flatten depth v in
      let! rest := flatten_entries depth items in
      ret (map (fun kv => (k :: fst kv, snd kv)) sub ++ rest)
  | OList _ =>
      let! rest := flatten_entries depth items in
      ret (([k], v) :: rest)
  end.
Proof. reflexivity. Qed.

Lemma safe_flatten (depth : nat) :
  forall d, fresh n d -> safe n (fresh_leaves n) (flatten depth d).
Proof.
  induction depth as [|depth IH]; intros d Hd; [apply safe_raise|].
  rewrite flatten_unfold.
  eapply safe_bind; [apply safe_load_dict|]. intros items Hi.
  specialize (Hi Hd). clear Hd d.
  induction Hi as [|[k v] items Hv _ IHi]; [apply safe_ret; constructor|].
  rewrite flatten_entries_cons. simpl in Hv.
  eapply safe_bind; [apply safe_load|]. intros [sub|l] _.
  - eapply safe_bind; [apply IH; exact Hv|]. intros td Htd.
    eapply safe_bind; [exact IHi|]. intros rest Hrest.
    apply safe_ret. apply Forall_app. split; [|exact Hrest].
    apply List.Forall_map. eapply Forall_impl; [exact Htd|]. auto.
  - eapply safe_bind; [exact IHi|]. intros rest Hrest.
    apply safe_ret. constructor; assumption.
Qed.

Lemma safe_insert_deep (t : list string) :
  forall d value,
    fresh n d -> fresh n value ->
    safe n (fun _ => True) (insert_deep_dictionary d t value).
Proof.
  induction t as [|k t IH]; intros d value Hd Hv; [apply safe_raise|].
  destruct t as [|k' t]; [now apply safe_setitem|].
  change (insert_deep_dictionary d (k :: k' :: t) value) with
    (let! present := contains d k in
     (if present then ret tt
      else let! sub := alloc (ODict []) in setitem d k sub) ;;;
     let! sub := getitem d k in
     insert_deep_dictionary sub (k' :: t) value).
  eapply safe_bind; [apply safe_contains|]. intros present _.
  eapply safe_bind.
  { destruct present; [now apply (safe_ret n (fun _ => True))|].
    eapply safe_bind; [apply safe_alloc; constructor|].
    intros sub Hsub. now apply safe_setitem. }
  intros _ _. eapply safe_bind; [apply safe_getitem|].
  intros sub Hsub. apply IH; auto.
Qed.

Lemma safe_extend_config_name (config : val) (names : list string)
    (values : list val) :
  fresh n config ->
  safe n (fresh n) (extend_config_name convert_param_names config names values).
Proof.
  intros Hc. unfold extend_config_name.
  eapply safe_bind; [apply safe_read|]. intros conv _.
  eapply safe_bind; [apply safe_contains|]. intros named _.
  eapply safe_bind with (P := fun _ => True).
  { destruct named; [|now apply safe_ret].
    eapply safe_bind; [apply safe_getitem|].
    intros [| |s|l] _; try apply safe_raise. now apply safe_ret. }
  intros sep _. eapply safe_bind; [apply safe_getitem|].
  intros [| |s|l] _; try apply safe_raise.
  eapply safe_bind; [apply safe_setitem; simpl; auto|]. intros _ _.
  eapply safe_bind; [apply safe_getitem|]. intros name Hname.
  eapply safe_bind; [apply safe_setitem; auto|]. intros _ _.
  now apply safe_ret.
Qed.

Lemma safe_ensure_params (config : val) :
  fresh n config -> safe n (fun _ => True) (ensure_params config).
Proof.
  intros Hc. unfold ensure_params.
  eapply safe_bind; [apply safe_contains|]. intros present _.
  destruct present; [now apply safe_ret|].
  eapply safe_bind; [apply safe_alloc; constructor|].
  intros e He. now apply safe_setitem.
Qed.

Lemma safe_insert_param (config : val) (t : list string) (v : val) :
  fresh n config -> fresh n v ->
  safe n (fun _ => True) (insert_param config t v).
Proof.
  intros Hc Hv. unfold insert_param.
  eapply safe_bind; [apply safe_getitem|]. intros params Hp.
  apply safe_insert_deep; auto.
Qed.

Lemma safe_insert_values (config : val) (keys : list (list string))
    (values : list val) :
  fresh n config -> Forall (fresh n) values ->
  forall i, safe n (fun _ => True) (insert_values config i keys values).
Proof.
  intros Hc Hvs. induction keys as [|t keys IH]; intros i; simpl;
    [now apply safe_ret|].
  destruct (values !! i) as [v|] eqn:Hv; [|apply safe_raise].
  eapply safe_bind; [|intros _ _; apply IH].
  apply safe_insert_param; [assumption|].
  rewrite List.Forall_forall in Hvs. apply Hvs.
  apply list_elem_of_In. eapply list_elem_of_lookup_2; eauto.
Qed.

Lemma safe_combine_values (config : val) (key : string)
    (keys : list (list string)) (names : list string) (values : list val) :
  Forall (fresh n) values ->
  safe n (fresh n)
       (combine_values convert_param_names config key keys names values).
Proof.
  intros Hvs. unfold combine_values.
  eapply safe_bind; [apply safe_deepcopy|]. intros c Hc.
  eapply safe_bind; [now apply safe_delitem|]. intros _ _.
  eapply safe_bind; [now apply safe_ensure_params|]. intros _ _.
  eapply safe_bind; [now apply safe_insert_values|]. intros _ _.
  now apply safe_extend_config_name.
Qed.

Lemma zip_cons_elem (l : list val) (rows : list (list val)) (t : list val)
    (P : val -> Prop) :
  Forall P l -> Forall (Forall P) rows -> In t (zip_cons l rows) -> Forall P t.
Proof.
  intros Hl. revert rows. induction Hl as [|x l Hx _ IH]; intros rows Hrows Ht;
    [contradiction|].
  destruct Hrows as [|r rows Hr Hrows]; [contradiction|].
  destruct Ht as [<-|Ht]; [now constructor | eauto].
Qed.

Lemma iterate_elem (f : iter_func) (ls : list (list val)) (t : list val)
    (P : val -> Prop) :
  Forall (Forall P) ls -> In t (iterate f ls) -> Forall P t.
Proof.
  intros Hls. destruct f; simpl.
  - revert t. induction Hls as [|l [|l' ls] Hl Hls IH]; intros t Ht;
      [contradiction| |].
    + simpl in Ht. apply in_map_iff in Ht as (x & <- & Hx).
      rewrite List.Forall_forall in Hl. repeat constructor. auto.
    + rewrite py_zip_cons in Ht. eapply zip_cons_elem; [exact Hl| |exact Ht].
      apply List.Forall_forall. intros r Hr. now apply IH.
  - revert t. induction Hls as [|l ls Hl Hls IH]; intros t Ht; simpl in Ht.
    + destruct Ht as [<-|[]]. constructor.
    + apply in_flat_map in Ht as (x & Hx & Ht).
      apply in_map_iff in Ht as (t' & <- & Ht').
      rewrite List.Forall_forall in Hl. constructor; auto.
Qed.

Lemma safe_params_combine (config : val) (key : option string)
    (f : option iter_func) :
  fresh n config ->
  safe n (Forall (fresh n))
       (params_combine fuel convert_param_names config key f).
Proof.
  intros Hc. unfold params_combine.
  destruct f as [iter|]; [|apply safe_ret; repeat constructor; assumption].
  destruct key as [key|]; [|apply safe_raise].
  eapply safe_bind; [apply safe_getitem|]. intros sweep Hsweep.
  eapply safe_bind; [apply safe_flatten; auto|]. intros td Htd.
  eapply safe_bind with (P := Forall (Forall (fresh n))).
  { eapply safe_weaken with (P := Forall (fun items => Forall (fresh n) items)).
    - apply safe_forM. intros v Hv.
      eapply safe_weaken; [apply safe_load_list|]. intros items Hi.
      apply Hi. apply in_map_iff in Hv as (kv & <- & Hkv).
      unfold fresh_leaves in Htd. rewrite List.Forall_forall in Htd. auto.
    - auto. }
  intros lists Hlists.
  eapply safe_bind with (P := fun _ => True).
  { match goal with |- context [if ?b then _ else _] => destruct b end;
      [|now apply safe_ret].
    eapply safe_bind; [apply safe_getitem|].
    intros [| |s|l] _; apply safe_warn. }
  intros _ _. apply safe_forM. intros values Hv.
  apply safe_combine_values. eapply iterate_elem; eauto.
Qed.

Lemma safe_ablative_variant (config : val) (key : list string) (v : val) :
  fresh n v ->
  safe n (fresh n) (ablative_variant convert_param_names config key v).
Proof.
  intros Hv. unfold ablative_variant.
  eapply safe_bind; [apply safe_deepcopy|]. intros c Hc.
  eapply safe_bind; [now apply safe_ensure_params|]. intros _ _.
  eapply safe_bind; [now apply safe_insert_param|]. intros _ _.
  now apply safe_extend_config_name.
Qed.

Lemma Forall_concat {A : Type} (P : A -> Prop) (ls : list (list A)) :
  Forall (Forall P) ls -> Forall P (concat ls).
Proof.
  induction 1 as [|l ls Hl _ IH]; simpl; [constructor|].
  apply Forall_app. auto.
Qed.

Lemma safe_ablative_expand (conf_list : list val) :
  Forall (fresh n) conf_list ->
  safe n (Forall (fresh n))
       (ablative_expand fuel convert_param_names conf_list).
Proof.
  intros Hcl. unfold ablative_expand.
  eapply safe_bind with (P := Forall (Forall (fresh n)));
    [|intros per Hper; apply safe_ret; now apply Forall_concat].
  apply safe_forM. intros config Hconfig.
  assert (Hc : fresh n config)
    by (rewrite List.Forall_forall in Hcl; auto).
  eapply safe_bind; [apply safe_getitem|]. intros sweep Hsweep.
  eapply safe_bind; [apply safe_flatten; auto|]. intros td Htd.
  eapply safe_bind with (P := Forall (Forall (fresh n)));
    [|intros per Hper; apply safe_ret; now apply Forall_concat].
  apply safe_forM. intros kv Hkv.
  eapply safe_bind; [apply safe_load_list|]. intros vals Hvals.
  apply safe_forM. intros v Hv. apply safe_ablative_variant.
  unfold fresh_leaves in Htd. rewrite List.Forall_forall in Htd.
  specialize (Hvals (Htd kv Hkv)). rewrite List.Forall_forall in Hvals. auto.
Qed.

Lemma safe_set_defaults (config : val) :
  fresh n config -> safe n (fun _ => True) (set_defaults config).
Proof.
  intros Hc. unfold set_defaults.
  eapply safe_bind; [apply safe_contains|]. intros based _.
  eapply safe_bind with (P := fun _ => True).
  { destruct based; [now apply safe_ret|].
    eapply safe_bind; [apply safe_getitem|]. intros p Hp.
    apply safe_setitem; auto. }
  intros _ _. eapply safe_bind; [apply safe_contains|]. intros named _.
  eapply safe_bind with (P := fun _ => True).
  { destruct named; [now apply safe_ret|].
    eapply safe_bind; [apply safe_getitem|]. intros p Hp.
    apply safe_setitem; auto. }
  intros _ _. eapply safe_bind; [apply safe_contains|]. intros nested _.
  destruct nested; [now apply safe_ret|]. now apply safe_setitem.
Qed.

Lemma safe_normalize_expanded_paths (expanded : list val) :
  Forall (fresh n) expanded ->
  safe n (Forall (fresh n)) (normalize_expanded_paths path_fields expanded).
Proof.
  intros He. unfold normalize_expanded_paths. apply safe_forM.
  intros c Hc. assert (Hf : fresh n c)
    by (rewrite List.Forall_forall in He; auto).
  eapply safe_bind; [apply safe_load_dict|]. intros items _.
  eapply safe_bind with (P := fun _ => True); [|intros; now apply safe_ret].
  eapply safe_weaken; [apply safe_forM|auto].
  intros ks _. apply safe_setitem; simpl; auto.
Qed.

Lemma safe_expand_loop (budget : nat) (experiment_configs : val) :
  fresh n experiment_configs ->
  forall i acc,
    Forall (fresh n) acc ->
    safe n (Forall (fresh n))
         (expand_loop fuel convert_param_names budget experiment_configs i acc).
Proof.
  intros Hec. induction budget as [|budget IH]; intros i acc Hacc.
  - cbn [expand_loop].
    eapply safe_bind; [apply safe_load_list|]. intros items _.
    destruct (items !! i); [apply safe_raise | now apply safe_ret].
  - cbn [expand_loop].
    eapply safe_bind; [apply safe_load_list|]. intros items Hitems.
    destruct (items !! i) as [config|] eqn:Hi; [|now apply safe_ret].
    assert (Hc : fresh n config).
    { specialize (Hitems Hec). rewrite List.Forall_forall in Hitems.
      apply Hitems. apply list_elem_of_In. eapply list_elem_of_lookup_2; eauto. }
    eapply safe_bind; [now apply safe_set_defaults|]. intros _ _.
    eapply safe_bind; [apply safe_contains|]. intros has_grid _.
    eapply safe_bind; [apply safe_contains|]. intros has_list _.
    destruct (has_grid && has_list); cbv beta iota zeta.
    + eapply safe_bind; [now apply safe_params_combine|]. intros combined Hco.
      eapply safe_bind; [now apply safe_extend|]. intros _ _. now apply IH.
    + eapply safe_bind; [now apply safe_params_combine|]. intros expansion Hex.
      eapply safe_bind; [apply safe_contains|]. intros ablative _.
      eapply safe_bind with (P := Forall (fresh n)).
      { destruct ablative; [|now apply safe_ret].
        eapply safe_bind; [now apply safe_ablative_expand|]. intros ab Hab.
        apply safe_ret. apply Forall_app. auto. }
      intros expansion' Hex'. apply IH. apply Forall_app. auto.
Qed.

Lemma safe_expand_experiments (input : val) :
  safe n (Forall (fresh n))
       (expand_experiments fuel convert_param_names path_fields input).
Proof.
  unfold expand_experiments.
  eapply safe_bind; [apply safe_deepcopy|]. intros ec Hec.
  eapply safe_bind; [apply safe_expand_loop; [assumption | constructor]|].
  intros expanded He. now apply safe_normalize_expanded_paths.
Qed.

Lemma safe_unroll_rep (config : val) (r : nat) :
  safe n (fun _ => True) (unroll_rep config r).
Proof.
  unfold unroll_rep.
  eapply safe_bind; [apply safe_deepcopy|]. intros c Hc.
  eapply safe_bind; [apply safe_setitem; simpl; auto|]. intros _ _.
  eapply safe_bind; [apply safe_getitem|].
  intros [| |p|l] _; try apply safe_raise.
  eapply safe_bind; [apply safe_setitem; simpl; auto|]. intros _ _.
  now apply safe_ret.
Qed.

Lemma safe_unroll_exp_reps (exp_configs : list val) :
  safe n (fun _ => True) (unroll_exp_reps exp_configs).
Proof.
  unfold unroll_exp_reps.
  eapply safe_bind with (P := fun _ => True); [|intros; now apply safe_ret].
  eapply safe_weaken; [apply safe_forM with (P := fun _ => True)|auto].
  intros config _.
  eapply safe_bind; [apply safe_contains|]. intros unrolled _.
  destruct unrolled; [now apply safe_ret|].
  eapply safe_bind; [apply safe_getitem|].
  intros [|z|s|l] _; try apply safe_raise.
  eapply safe_weaken; [apply safe_forM with (P := fun _ => True)|auto].
  intros r _. apply safe_unroll_rep.
Qed.

Lemma safe_unfold_exps (input : val) :
  safe n (fun _ => True)
       (unfold_exps fuel convert_param_names path_fields input).
Proof.
  unfold unfold_exps.
  eapply safe_bind; [apply safe_expand_experiments|]. intros pe _.
  apply safe_unroll_exp_reps.
Qed.

End Safety.

Lemma safe_frame {A : Type} (P : A -> Prop) (m : M A) (s : state) :
  safe (length (objects s)) P m ->
  forall l o, objects s !! l = Some o -> objects (snd (m s)) !! l = Some o.
Proof.
  intros Hm l o Hl. destruct (Hm s) as ((_ & Hfr) & _).
  - lia.
  - intros l' o' Hl' Hlook. apply lookup_lt_Some in Hlook. lia.
  - rewrite Hfr; [assumption|]. now apply lookup_lt_Some in Hl.
Qed.

(** C10.  Whatever the store and the value passed, and whether the call
    returns or raises, [unfold_exps], [expand_experiments] and
    [unroll_exp_reps] leave every object of the caller as it was: in
    particular the input list and every template in it, with everything
    they refer to.  The objects written are the ones [deepcopy] and the
    unfolder allocate. *)
Theorem unfold_exps_leaves_input (fuel : nat)
    (convert_param_names : list string -> list val -> list obj -> string)
    (path_fields : list (string * val) -> list (string * string))
    (exp_configs : val) (records : list val) (s : state) (l : nat) (o : obj) :
  (objects s !! l = Some o ->
   objects (snd (unfold_exps fuel convert_param_names path_fields
                   exp_configs s)) !! l = Some o)
  /\ (objects s !! l = Some o ->
      objects (snd (expand_experiments fuel convert_param_names path_fields
                      exp_configs s)) !! l = Some o)
  /\ (objects s !! l = Some o ->
      objects (snd (unroll_exp_reps records s)) !! l = Some o).
Proof.
  split; [|split]; apply (safe_frame (fun _ => True)).
  - apply safe_unfold_exps.
  - eapply safe_weaken; [apply safe_expand_experiments | auto].
  - apply safe_unroll_exp_reps.
Qed.

End StoreFacts.

(* ================================================================= *)
(** ** The unfolder on a concrete store *)

(** On the grid template the run in the store returns twelve records,
    which read back from the store are the records of the value model. *)
Lemma caller_run_records :
  exists records rs,
    fst caller_run = OK records /\
    length records = 12 /\
    unfold_exps (H := model) [grid_template] = OK (rs, []) /\
    map (extract 8 (Store.objects (snd caller_run))) records = map VDict rs.
Proof. vm_compute. do 2 eexists. repeat split. Qed.

(** The template of the caller, at location 4, and the list that holds
    it, at location 5, after the run. *)
Lemma unfold_exps_leaves_input_witness :
  Store.objects (snd caller_run) !! 4 =
    Some (Store.ODict [("name", Store.VStr "exp"); ("path", Store.VStr "/out");
                       ("repetitions", Store.VInt 2); ("grid", Store.VRef 3)])
  /\ Store.objects (snd caller_run) !! 5 = Some (Store.OList [Store.VRef 4]).
Proof.
  split.
  - apply (proj1 (StoreFacts.unfold_exps_leaves_input 100
                    convert_param_names_store Store.path_fields_model
                    caller_list [] caller_store 4 _)).
    reflexivity.
  - apply (proj1 (StoreFacts.unfold_exps_leaves_input 100
                    convert_param_names_store Store.path_fields_model
                    caller_list [] caller_store 5 _)).
    reflexivity.
Defined.

(* ================================================================= *)
(** ** The records returned, as objects *)

Module StoreResults.

Import Store StoreSpec StoreFacts.

Lemma safe_unroll_rep_fresh (n : nat) (config : val) (r : nat) :
  safe n (fresh n) (unroll_rep config r).
Proof.
  unfold unroll_rep.
  eapply safe_bind; [apply safe_deepcopy|]. intros c Hc.
  eapply safe_bind; [apply safe_setitem; simpl; auto|]. intros _ _.
  eapply safe_bind; [apply safe_getitem|].
  intros [| |p|l] _; try apply safe_raise.
  eapply safe_bind; [apply safe_setitem; simpl; auto|]. intros _ _.
  now apply safe_ret.
Qed.

Lemma safe_unroll_exp_reps_fresh (n : nat) (exp_configs : list val) :
  Forall (fresh n) exp_configs ->
  safe n (Forall (fresh n)) (unroll_exp_reps exp_configs).
Proof.
  intros Hin. unfold unroll_exp_reps.
  eapply safe_bind with (P := Forall (Forall (fresh n))).
  - apply safe_forM. intros config Hc.
    rewrite List.Forall_forall in Hin. specialize (Hin config Hc).
    eapply safe_bind; [apply safe_contains|]. intros unrolled _.
    destruct unrolled; [apply safe_ret; now repeat constructor|].
    eapply safe_bind; [apply safe_getitem|].
    intros [|z|s|l] _; try apply safe_raise.
    apply safe_forM. intros r _. apply safe_unroll_rep_fresh.
  - intros per_config Hp. apply safe_ret. now apply Forall_concat.
Qed.

Lemma closed_initially (h : list obj) : closed (length h) h.
Proof.
  intros l o Hl Hlook. apply lookup_lt_Some in Hlook. lia.
Qed.

(** X19.  The records returned are new objects.  Whatever the store and
    the templates, every record [expand_experiments] returns, and every
    record [unfold_exps] returns, is an object allocated by the call, and
    the objects allocated by the call refer to such objects only: no
    record returned is, or holds, an object of the caller. *)
Theorem unfold_exps_returns_new_objects (fuel : nat)
    (convert_param_names : list string -> list val -> list obj -> string)
    (path_fields : list (string * val) -> list (string * string))
    (exp_configs : val) (s : state) (records : list val) :
  (fst (expand_experiments fuel convert_param_names path_fields
          exp_configs s) = OK records ->
   Forall (fresh (length (objects s))) records /\
   closed (length (objects s))
     (objects (snd (expand_experiments fuel convert_param_names path_fields
                      exp_configs s))))
  /\ (fst (unfold_exps fuel convert_param_names path_fields
             exp_configs s) = OK records ->
      Forall (fresh (length (objects s))) records /\
      closed (length (objects s))
        (objects (snd (unfold_exps fuel convert_param_names path_fields
                         exp_configs s)))).
Proof.
  split; intros Hr.
  - destruct (safe_expand_experiments (length (objects s)) fuel
                convert_param_names path_fields exp_configs s)
      as (_ & Hcl & HP); [lia | apply closed_initially |].
    rewrite Hr in HP. auto.
  - assert (Hs : safe (length (objects s)) (Forall (fresh (length (objects s))))
                   (unfold_exps fuel convert_param_names path_fields
                      exp_configs)).
    { unfold unfold_exps. eapply safe_bind;
        [apply safe_expand_experiments|].
      intros pe Hpe. now apply safe_unroll_exp_reps_fresh. }
    destruct (Hs s) as (_ & Hcl & HP); [lia | apply closed_initially |].
    rewrite Hr in HP. auto.
Qed.

Lemma forM_reads {A B : Type} (f : A -> M B) (g : A -> B) (l : list A)
    (s : state) :
  (forall x, In x l -> f x s = (OK (g x), s)) ->
  forM f l s = (OK (map g l), s).
Proof.
  induction l as [|x l IH]; intros Hf; [reflexivity|].
  cbn [forM map]. unfold bindM.
  rewrite (Hf x (or_introl eq_refl)), IH by (intros; apply Hf; now right).
  reflexivity.
Qed.

(** X20.  Records that carry a repetition index are not copied: for a
    list of such records [unroll_exp_reps] returns the very objects it
    was given, allocates nothing and writes nothing, so that the caller
    and the result share them. *)
Theorem unroll_exp_reps_shares_indexed (exp_configs : list val) (s : state) :
  Forall (fun c => exists l items,
              c = VRef l /\ objects s !! l = Some (ODict items) /\
              dmem KEY.i_REP_IDX items = true) exp_configs ->
  unroll_exp_reps exp_configs s = (OK exp_configs, s).
Proof.
  intros Hall. unfold unroll_exp_reps. unfold bindM at 1.
  rewrite (forM_reads _ (fun c => [c])).
  - unfold ret. f_equal. f_equal.
    clear Hall. induction exp_configs as [|c cs IH]; [reflexivity|].
    cbn. now rewrite IH.
  - intros c Hc. rewrite List.Forall_forall in Hall.
    destruct (Hall c Hc) as (l & items & -> & Hl & Hi).
    unfold bindM, contains, load_dict, load, bindM. rewrite Hl.
    cbn. now rewrite Hi.
Qed.

End StoreResults.

(** The twelve records of the run on the caller's list are objects the
    run has allocated: the caller's store had six objects. *)
Lemma unfold_exps_returns_new_objects_witness :
  Forall (StoreSpec.fresh 6) caller_records.
Proof.
  apply (proj2 (StoreResults.unfold_exps_returns_new_objects 100
                  convert_param_names_store Store.path_fields_model
                  caller_list caller_store caller_records)).
  vm_compute. reflexivity.
Defined.

(** A record with its index is handed back as it is. *)
Lemma unroll_exp_reps_shares_indexed_witness :
  Store.unroll_exp_reps [Store.VRef 0] indexed_store
  = (OK [Store.VRef 0], indexed_store).
Proof.
  apply StoreResults.unroll_exp_reps_shares_indexed.
  repeat constructor. do 2 eexists. repeat split; reflexivity.
Defined.

(* ================================================================= *)
(** ** The Slurm script writer *)

Module SlurmFacts.

Import Slurm.

(* ----------------------------------------------------------------- *)
(** *** Lines and replacements *)

Lemma concat_empty_cons (l : string) (ls : list string) :
  String.concat "" (l :: ls) = l +:+ String.concat "" ls.
Proof.
  destruct ls as [|l' ls]; simpl; [|reflexivity].
  induction l as [|c l IH]; [reflexivity|].
  change (String c l = String c (l +:+ "")). now rewrite <- IH.
Qed.

(** The lines of a text, put together again, are the text. *)
Lemma readlines_concat (s : string) : String.concat "" (readlines s) = s.
Proof.
  induction s as [|c s IH]; [reflexivity|].
  cbn [readlines]. destruct (Ascii.eqb c "010").
  - rewrite concat_empty_cons, IH. reflexivity.
  - destruct (readlines s) as [|l ls].
    + simpl in IH. subst s. reflexivity.
    + rewrite concat_empty_cons in *. rewrite <- IH. reflexivity.
Qed.






(* ----------------------------------------------------------------- *)
(** *** Running the monad *)

Lemma bind_ret_inv {A B : Type} (m : M A) (f : A -> M B) (w w' : world)
    (b : B) :
  bindM m f w = (Ret b, w') ->
  exists a w1, m w = (Ret a, w1) /\ f a w1 = (Ret b, w').
Proof.
  unfold bindM. destruct (m w) as [[a|e] w1]; [|discriminate]. eauto.
Qed.

Lemma bind_ret {A B : Type} (m : M A) (f : A -> M B) (w w1 : world) (a : A) :
  m w = (Ret a, w1) -> bindM m f w = f a w1.
Proof. unfold bindM. now intros ->. Qed.

Lemma bind_raise {A B : Type} (m : M A) (f : A -> M B) (w w1 : world)
    (e : exn) :
  m w = (Raise e, w1) -> bindM m f w = (Raise e, w1).
Proof. unfold bindM. now intros ->. Qed.

(** The two defaults that are derived from the first experiment. *)
Lemma path_stage_inv (has : bool) (k file : string) (w w' : world) (u : unit) :
  (if has then ret tt
   else let! p := experiment_path in
        let! v := os_path_join p file in
        sc_set k v) w = (Ret u, w') ->
  (has = true /\ w' = w) \/
  (has = false /\
   exists ep, first_experiment_path w = Some ep /\
     w' = with_slurm_config
            (dset k (VStr (path_join ep file)) (slurm_config (conf w))) w).
Proof.
  destruct has; [intros [= <-]; now left|]. intros Hr. right.
  split; [reflexivity|].
  apply bind_ret_inv in Hr as (p & w1 & Hp & Hr).
  apply bind_ret_inv in Hr as (v & w2 & Hv & Hr).
  unfold experiment_path in Hp. unfold first_experiment_path.
  destruct (exp_configs (conf w)) as [|c cs]; [discriminate|].
  destruct (dget "_experiment_path" c) as [x|]; [|discriminate].
  injection Hp as <- <-.
  destruct x as [| |ep| |]; try discriminate.
  injection Hv as <- <-. injection Hr as <-. now exists ep.
Qed.

Lemma makedirs_inv (v : value) (w w' : world) (u : unit) :
  makedirs v w = (Ret u, w') ->
  exists p, v = VStr p /\
    String.length p <> 0 /\ dmem p (files w) = false /\
    permitted w p = true /\ w' = made p w.
Proof.
  destruct v as [| |p| |]; try discriminate. unfold makedirs.
  destruct (Nat.eqb_spec (String.length p) 0) as [|Hlen]; [discriminate|].
  destruct (dmem p (files w)) eqn:Hfile; [discriminate|].
  destruct (permitted w p) eqn:Hperm; [|discriminate]. simpl.
  intros [= <-]. exists p. auto.
Qed.

Lemma dset_dset {V : Type} (k : string) (v v' : V) (d : list (string * V)) :
  dset k v (dset k v' d) = dset k v d.
Proof.
  induction d as [|[k0 v0] d IH]; simpl.
  - now rewrite String.eqb_refl.
  - destruct (String.eqb k k0) eqn:Hk; simpl; rewrite Hk; [reflexivity|].
    now rewrite IH.
Qed.

(** What a run of [_finalize_slurm_config] that returns has done, stage
    by stage. *)
Lemma finalize_inv (n : Z) (w w' : world) (sc' : dict) :
  _finalize_slurm_config n w = (Ret sc', w') ->
  let sc0 := slurm_config (conf w) in
  let sc1 := dset "num_jobs" (VInt (n - 1)) sc0 in
  let sc2 := if dmem "experiment_cwd" sc1 then sc1
             else dset "experiment_cwd" (VStr (cwd w)) sc1 in
  exists sc3 sc4 p,
    ((dmem "experiment_log" sc2 = true /\ sc3 = sc2) \/
     (dmem "experiment_log" sc2 = false /\
      exists ep, first_experiment_path w = Some ep /\
        sc3 = dset "experiment_log" (VStr (path_join ep "log")) sc2)) /\
    ((dmem "slurm_ouput" sc3 = true /\ sc4 = sc3) \/
     (dmem "slurm_ouput" sc3 = false /\
      exists ep, first_experiment_path w = Some ep /\
        sc4 = dset "slurm_out" (VStr (path_join ep "sbatch.sh")) sc3)) /\
    dget "experiment_log" sc4 = Some (VStr p) /\
    String.length p <> 0 /\ dmem p (files w) = false /\
    permitted w p = true /\
    sc' = dset "experiment_selectors" (VStr (selectors (experiments w))) sc4 /\
    w' = with_stdout (stdout w ++ [sys_path w])
           (with_slurm_config sc' (made p w)).
Proof.
  intros Hr sc0 sc1 sc2. unfold _finalize_slurm_config in Hr.
  apply bind_ret_inv in Hr as (u1 & w1 & H1 & Hr). injection H1 as _ <-.
  apply bind_ret_inv in Hr as (b2 & w2 & H2 & Hr). injection H2 as <- <-.
  apply bind_ret_inv in Hr as (u3 & w3 & H3 & Hr).
  assert (Hw3 : w3 = with_slurm_config sc2 w).
  { cbn [conf slurm_config with_slurm_config] in H3. fold sc0 sc1 in H3.
    subst sc2. destruct (dmem "experiment_cwd" sc1);
      injection H3 as _ <-; reflexivity. }
  clear H3. subst w3.
  apply bind_ret_inv in Hr as (b4 & w4 & H4 & Hr). injection H4 as <- <-.
  apply bind_ret_inv in Hr as (u5 & w5 & H5 & Hr).
  apply path_stage_inv in H5.
  cbn [conf slurm_config with_slurm_config] in H5.
  assert (H5' : exists sc3, w5 = with_slurm_config sc3 w /\
            ((dmem "experiment_log" sc2 = true /\ sc3 = sc2) \/
             (dmem "experiment_log" sc2 = false /\
              exists ep, first_experiment_path w = Some ep /\
                sc3 = dset "experiment_log" (VStr (path_join ep "log")) sc2))).
  { destruct H5 as [[Hb ->]|(Hb & ep & Hep & ->)].
    - exists sc2. split; [reflexivity|]. now left.
    - exists (dset "experiment_log" (VStr (path_join ep "log")) sc2).
      split; [reflexivity|]. right.
      split; [assumption|]. exists ep. split; [|reflexivity].
      rewrite <- Hep. reflexivity. }
  clear H5. destruct H5' as (sc3 & -> & H5).
  apply bind_ret_inv in Hr as (b6 & w6 & H6 & Hr). injection H6 as <- <-.
  apply bind_ret_inv in Hr as (u7 & w7 & H7 & Hr).
  apply path_stage_inv in H7.
  cbn [conf slurm_config with_slurm_config] in H7.
  assert (H7' : exists sc4, w7 = with_slurm_config sc4 w /\
            ((dmem "slurm_ouput" sc3 = true /\ sc4 = sc3) \/
             (dmem "slurm_ouput" sc3 = false /\
              exists ep, first_experiment_path w = Some ep /\
                sc4 = dset "slurm_out" (VStr (path_join ep "sbatch.sh")) sc3))).
  { destruct H7 as [[Hb ->]|(Hb & ep & Hep & ->)].
    - exists sc3. split; [reflexivity|]. now left.
    - exists (dset "slurm_out" (VStr (path_join ep "sbatch.sh")) sc3).
      split; [reflexivity|]. right.
      split; [assumption|]. exists ep. split; [|reflexivity].
      rewrite <- Hep. reflexivity. }
  clear H7. destruct H7' as (sc4 & -> & H7).
  apply bind_ret_inv in Hr as (log & w8 & H8 & Hr).
  unfold sc_get in H8. cbn [conf slurm_config with_slurm_config] in H8.
  destruct (dget "experiment_log" sc4) as [x|] eqn:Hlog; [|discriminate].
  injection H8 as -> <-.
  apply bind_ret_inv in Hr as (u9 & w9 & H9 & Hr).
  apply makedirs_inv in H9 as (p & -> & Hlen & Hfile & Hperm & ->).
  apply bind_ret_inv in Hr as (u10 & w10 & H10 & Hr). injection H10 as _ <-.
  apply bind_ret_inv in Hr as (u11 & w11 & H11 & Hr).
  apply bind_ret_inv in Hr as (u12 & w12 & H12 & Hr).
  injection H12 as _ <-. injection Hr as <- <-.
  exists sc3, sc4, p.
  split; [exact H5|]. split; [exact H7|]. split; [exact Hlog|].
  split; [exact Hlen|]. split; [exact Hfile|]. split; [exact Hperm|].
  clear H5 H7 Hlog.
  destruct w as [[sc ec cp] cw ex mf sp pm rm en bs fs ds so].
  unfold made in *.
  cbn in *. destruct (existsb (String.eqb p) ds); cbn in *;
    destruct ex as [l|]; injection H11 as _ <-; cbn;
    rewrite ?dset_dset; split; reflexivity.
Qed.

Ltac slurm_key_neq := solve [ congruence | discriminate | auto ].

Ltac sc_simpl :=
  repeat first
    [ rewrite dget_dset_eq
    | rewrite dget_dset_ne by slurm_key_neq ].

Lemma dmem_dset_ne {V : Type} (k k' : string) (v : V) (d : list (string * V)) :
  k <> k' -> dmem k (dset k' v d) = dmem k d.
Proof. intros Hk. unfold dmem. now rewrite dget_dset_ne. Qed.

Lemma dmem_dset_eq {V : Type} (k : string) (v : V) (d : list (string * V)) :
  dmem k (dset k v d) = true.
Proof. unfold dmem. now rewrite dget_dset_eq. Qed.

(* ----------------------------------------------------------------- *)
(** *** [_finalize_slurm_config] *)

(** X12.  What [_finalize_slurm_config] sets and what it leaves, when it
    returns: the mapping returned is [conf.slurm_config] itself;
    [num_jobs] is the number given less one, whatever was there;
    [experiment_selectors] is built from the command line;
    [experiment_cwd] and [experiment_log] keep what the user gave and get
    their default otherwise; the log directory has been made; every other
    key but [slurm_out] is as it was, no file is touched and the module
    search path has been printed. *)
Theorem finalize_slurm_config_sets (n : Z) (w w' : world) (sc' : dict) :
  _finalize_slurm_config n w = (Ret sc', w') ->
  slurm_config (conf w') = sc' /\
  dget "num_jobs" sc' = Some (VInt (n - 1)) /\
  dget "experiment_selectors" sc'
    = Some (VStr (selectors (experiments w))) /\
  dget "experiment_cwd" sc'
    = (if dmem "experiment_cwd" (slurm_config (conf w))
       then dget "experiment_cwd" (slurm_config (conf w))
       else Some (VStr (cwd w))) /\
  (dmem "experiment_log" (slurm_config (conf w)) = true ->
   dget "experiment_log" sc'
     = dget "experiment_log" (slurm_config (conf w))) /\
  (dmem "experiment_log" (slurm_config (conf w)) = false ->
   exists ep, first_experiment_path w = Some ep /\
              dget "experiment_log" sc' = Some (VStr (path_join ep "log"))) /\
  (exists p, dget "experiment_log" sc' = Some (VStr p) /\ In p (dirs w')) /\
  (forall k, k <> "num_jobs" -> k <> "experiment_cwd" ->
             k <> "experiment_log" -> k <> "slurm_out" ->
             k <> "experiment_selectors" ->
             dget k sc' = dget k (slurm_config (conf w))) /\
  files w' = files w /\
  stdout w' = stdout w ++ [sys_path w].
Proof.
  intros Hr. apply finalize_inv in Hr.
  cbv zeta in Hr.
  destruct Hr as (sc3 & sc4 & p & H3 & H4 & Hlog & _ & _ & _ & -> & ->).
  set (sc0 := slurm_config (conf w)) in *.
  set (sc1 := dset "num_jobs" (VInt (n - 1)) sc0) in *.
  set (sc2 := if dmem "experiment_cwd" sc1 then sc1
              else dset "experiment_cwd" (VStr (cwd w)) sc1) in *.
  assert (E2 : forall k, k <> "num_jobs" -> k <> "experiment_cwd" ->
                         dget k sc2 = dget k sc0).
  { intros k Hk1 Hk2. subst sc2 sc1.
    destruct (dmem "experiment_cwd" _); now sc_simpl. }
  assert (E3 : forall k, k <> "num_jobs" -> k <> "experiment_cwd" ->
                         k <> "experiment_log" -> dget k sc3 = dget k sc0).
  { intros k Hk1 Hk2 Hk3.
    destruct H3 as [[_ ->]|(_ & ep & _ & ->)]; sc_simpl; now apply E2. }
  assert (E4 : forall k, k <> "num_jobs" -> k <> "experiment_cwd" ->
                         k <> "experiment_log" -> k <> "slurm_out" ->
                         dget k sc4 = dget k sc0).
  { intros k Hk1 Hk2 Hk3 Hk4.
    destruct H4 as [[_ ->]|(_ & ep & _ & ->)]; sc_simpl; now apply E3. }
  assert (N4 : dget "num_jobs" sc4 = Some (VInt (n - 1))).
  { assert (N2 : dget "num_jobs" sc2 = Some (VInt (n - 1))).
    { subst sc2 sc1. destruct (dmem "experiment_cwd" _); now sc_simpl. }
    destruct H3 as [[_ ->]|(_ & ep & _ & ->)];
      destruct H4 as [[_ ->]|(_ & ep' & _ & ->)]; now sc_simpl. }
  assert (C2 : dget "experiment_cwd" sc2
               = if dmem "experiment_cwd" sc0
                 then dget "experiment_cwd" sc0 else Some (VStr (cwd w))).
  { subst sc2 sc1. rewrite dmem_dset_ne by discriminate.
    destruct (dmem "experiment_cwd" sc0); now sc_simpl. }
  assert (C4 : dget "experiment_cwd" sc4 = dget "experiment_cwd" sc2).
  { destruct H3 as [[_ ->]|(_ & ep & _ & ->)];
      destruct H4 as [[_ ->]|(_ & ep' & _ & ->)]; now sc_simpl. }
  assert (L2 : dget "experiment_log" sc2 = dget "experiment_log" sc0)
    by (apply E2; discriminate).
  assert (L4 : dget "experiment_log" sc4 = dget "experiment_log" sc3).
  { destruct H4 as [[_ ->]|(_ & ep' & _ & ->)]; now sc_simpl. }
  split; [reflexivity|]. split; [now sc_simpl|]. split; [now sc_simpl|].
  split; [sc_simpl; now rewrite C4|].
  split; [|split; [|split; [|split; [|split]]]].
  - intros Hl. sc_simpl. rewrite L4.
    destruct H3 as [[_ ->]|(Hb & _)]; [exact L2|].
    unfold dmem in Hb, Hl. rewrite L2 in Hb. now rewrite Hb in Hl.
  - intros Hl. sc_simpl. rewrite L4.
    destruct H3 as [[Hb _]|(_ & ep & Hep & ->)].
    + unfold dmem in Hb, Hl. rewrite L2 in Hb. now rewrite Hb in Hl.
    + exists ep. split; [assumption|]. now sc_simpl.
  - exists p. split; [now sc_simpl|]. unfold made.
    destruct (existsb (String.eqb p) (dirs w)) eqn:Hex; cbn.
    + apply existsb_exists in Hex as (q & Hq & ->%String.eqb_eq). exact Hq.
    + apply in_or_app. right. now left.
  - intros k Hk1 Hk2 Hk3 Hk4 Hk5. sc_simpl. now apply E4.
  - unfold made. now destruct (existsb _ _).
  - unfold made. now destruct (existsb _ _).
Qed.

(** X13.  The script path.  [slurm_out] is set from the path of the first
    experiment unless the configuration has the key [slurm_ouput] (as the
    guard spells it): a [slurm_out] the user gave is replaced, and it is
    kept only under that other key. *)
Theorem finalize_slurm_out (n : Z) (w w' : world) (sc' : dict) :
  _finalize_slurm_config n w = (Ret sc', w') ->
  (dmem "slurm_ouput" (slurm_config (conf w)) = false ->
   exists ep, first_experiment_path w = Some ep /\
              dget "slurm_out" sc' = Some (VStr (path_join ep "sbatch.sh")))
  /\ (dmem "slurm_ouput" (slurm_config (conf w)) = true ->
      dget "slurm_out" sc' = dget "slurm_out" (slurm_config (conf w))).
Proof.
  intros Hr. apply finalize_inv in Hr.
  cbv zeta in Hr.
  destruct Hr as (sc3 & sc4 & p & H3 & H4 & Hlog & _ & _ & _ & -> & ->).
  set (sc0 := slurm_config (conf w)) in *.
  set (sc1 := dset "num_jobs" (VInt (n - 1)) sc0) in *.
  set (sc2 := if dmem "experiment_cwd" sc1 then sc1
              else dset "experiment_cwd" (VStr (cwd w)) sc1) in *.
  assert (E3 : forall k, k <> "num_jobs" -> k <> "experiment_cwd" ->
                         k <> "experiment_log" -> dget k sc3 = dget k sc0).
  { intros k Hk1 Hk2 Hk3.
    assert (E2 : dget k sc2 = dget k sc0).
    { subst sc2 sc1. destruct (dmem "experiment_cwd" _); now sc_simpl. }
    destruct H3 as [[_ ->]|(_ & ep & _ & ->)]; sc_simpl; exact E2. }
  assert (O3 : dmem "slurm_ouput" sc3 = dmem "slurm_ouput" sc0)
    by (unfold dmem; rewrite E3 by discriminate; reflexivity).
  rewrite O3 in H4. split; intros Ho; sc_simpl.
  - destruct H4 as [[Hb _]|(_ & ep & Hep & ->)]; [congruence|].
    exists ep. split; [assumption|]. now sc_simpl.
  - destruct H4 as [[_ ->]|(Hb & _)]; [|congruence].
    apply E3; discriminate.
Qed.

(** X14.  The first experiment is needed for the two defaults only.
    Without any experiment, a configuration that lacks [experiment_log]
    or the key [slurm_ouput] makes [_finalize_slurm_config] raise
    [IndexError]: no directory is made and nothing is printed, but
    [num_jobs] has been written to the configuration by then.  With both
    keys, and a log directory that can be made, the function returns
    without any experiment. *)
Theorem finalize_without_experiment (n : Z) (w : world) :
  exp_configs (conf w) = [] ->
  (dmem "experiment_log" (slurm_config (conf w)) = false \/
   dmem "slurm_ouput" (slurm_config (conf w)) = false ->
   exists w',
     _finalize_slurm_config n w = (Raise IndexError, w') /\
     dget "num_jobs" (slurm_config (conf w')) = Some (VInt (n - 1)) /\
     files w' = files w /\ dirs w' = dirs w /\ stdout w' = stdout w)
  /\ (forall p,
        dget "experiment_log" (slurm_config (conf w)) = Some (VStr p) ->
        dmem "slurm_ouput" (slurm_config (conf w)) = true ->
        String.length p <> 0 -> dmem p (files w) = false ->
        permitted w p = true ->
        exists sc' w', _finalize_slurm_config n w = (Ret sc', w')).
Proof.
  intros Hexp. split.
  - intros Hmiss.
    unfold _finalize_slurm_config, bindM, sc_set, sc_contains, sc_get, ret,
      raise, experiment_path.
    cbn [conf slurm_config exp_configs with_slurm_config fst snd].
    destruct (dmem "experiment_cwd" _);
      cbn [conf slurm_config exp_configs with_slurm_config fst snd];
      rewrite ?Hexp, !dmem_dset_ne by discriminate;
      (destruct (dmem "experiment_log" (slurm_config (conf w))) eqn:Hl;
       [destruct Hmiss as [Hm|Hm]; [discriminate|];
        cbn [conf slurm_config exp_configs with_slurm_config fst snd];
        rewrite ?Hexp, !dmem_dset_ne by discriminate; rewrite Hm
       |]);
      cbn [conf slurm_config exp_configs with_slurm_config fst snd];
      rewrite ?Hexp; eexists; (split; [reflexivity|]); cbn;
      sc_simpl; auto.
  - intros p Hlog Hout Hlen Hfile Hperm.
    assert (Hl : dmem "experiment_log" (slurm_config (conf w)) = true)
      by (unfold dmem; now rewrite Hlog).
    unfold _finalize_slurm_config, bindM, sc_set, sc_contains, sc_get, ret,
      raise, experiment_path, print_sys_path.
    cbn [conf slurm_config exp_configs with_slurm_config fst snd].
    destruct (dmem "experiment_cwd" _);
      cbn [conf slurm_config exp_configs with_slurm_config fst snd];
      rewrite !dmem_dset_ne by discriminate; rewrite Hl;
      cbn [conf slurm_config exp_configs with_slurm_config fst snd];
      rewrite !dmem_dset_ne by discriminate; rewrite Hout;
      cbn [conf slurm_config exp_configs with_slurm_config fst snd];
      rewrite !dget_dset_ne by discriminate; rewrite Hlog;
      unfold makedirs; cbn [files permitted with_slurm_config];
      rewrite Hfile, Hperm;
      (destruct (Nat.eqb_spec (String.length p) 0) as [|_]; [contradiction|]);
      cbn [orb negb];
      destruct (experiments _); eauto.
Qed.

Lemma dset_same {V : Type} (k : string) (v : V) (d : list (string * V)) :
  dget k d = Some v -> dset k v d = d.
Proof.
  induction d as [|[k0 v0] d IH]; simpl; [discriminate|].
  destruct (String.eqb k k0); [now intros [= ->]|].
  intros Hd. now rewrite IH.
Qed.

Lemma path_stage_run (has : bool) (k file : string) (w : world) :
  (has = true \/ exists ep, first_experiment_path w = Some ep) ->
  (if has then ret tt
   else let! p := experiment_path in
        let! v := os_path_join p file in
        sc_set k v) w
  = (Ret tt,
     if has then w
     else match first_experiment_path w with
          | Some ep =>
              with_slurm_config
                (dset k (VStr (path_join ep file)) (slurm_config (conf w))) w
          | None => w
          end).
Proof.
  destruct has; [reflexivity|]. intros [Hh|(ep & Hep)]; [discriminate|].
  rewrite Hep. unfold first_experiment_path in Hep.
  unfold bindM, experiment_path.
  destruct (exp_configs (conf w)) as [|c cs]; [discriminate|].
  destruct (dget "_experiment_path" c) as [[| |x| |]|]; try discriminate.
  now injection Hep as ->.
Qed.

(** A run of [_finalize_slurm_config] on a configuration that has its
    number of jobs, its working directory, its log directory and its
    selectors already. *)
Lemma finalize_settled (n : Z) (w : world) (sc : dict) (p : string) :
  slurm_config (conf w) = sc ->
  dget "num_jobs" sc = Some (VInt (n - 1)) ->
  dmem "experiment_cwd" sc = true ->
  dget "experiment_log" sc = Some (VStr p) ->
  (dmem "slurm_ouput" sc = true \/
   exists ep, first_experiment_path w = Some ep /\
              dget "slurm_out" sc = Some (VStr (path_join ep "sbatch.sh"))) ->
  dget "experiment_selectors" sc = Some (VStr (selectors (experiments w))) ->
  String.length p <> 0 -> dmem p (files w) = false -> permitted w p = true ->
  _finalize_slurm_config n w
  = (Ret sc, with_stdout (stdout w ++ [sys_path w])
               (with_slurm_config sc (made p w))).
Proof.
  intros Hsc Hn Hcwd Hlog Hout Hsel Hlen Hfile Hperm.
  assert (Hl : dmem "experiment_log" sc = true)
    by (unfold dmem; now rewrite Hlog).
  unfold _finalize_slurm_config.
  rewrite (bind_ret _ _ w (with_slurm_config sc w) tt)
    by (unfold sc_set; now rewrite Hsc, (dset_same _ _ _ Hn)).
  rewrite (bind_ret _ _ _ (with_slurm_config sc w) true)
    by (unfold sc_contains; cbn; now rewrite Hcwd).
  rewrite (bind_ret _ _ _ (with_slurm_config sc w) tt) by reflexivity.
  rewrite (bind_ret _ _ _ (with_slurm_config sc w) true)
    by (unfold sc_contains; cbn; now rewrite Hl).
  rewrite (bind_ret _ _ _ (with_slurm_config sc w) tt) by reflexivity.
  rewrite (bind_ret _ _ _ (with_slurm_config sc w)
             (dmem "slurm_ouput" sc)) by reflexivity.
  rewrite (bind_ret _ _ _ (with_slurm_config sc w) tt).
  2:{ rewrite path_stage_run.
      - destruct (dmem "slurm_ouput" sc) eqn:Ho; [reflexivity|].
        destruct Hout as [Hout|(ep & Hep & Hv)]; [discriminate|].
        change (first_experiment_path (with_slurm_config sc w))
          with (first_experiment_path w).
        rewrite Hep. cbn [conf slurm_config with_slurm_config].
        now rewrite (dset_same _ _ _ Hv).
      - destruct Hout as [Hout|(ep & Hep & _)]; [now left|].
        right. now exists ep. }
  rewrite (bind_ret _ _ _ (with_slurm_config sc w) (VStr p))
    by (unfold sc_get; cbn; now rewrite Hlog).
  rewrite (bind_ret _ _ _ (made p (with_slurm_config sc w)) tt).
  2:{ unfold makedirs. cbn [files permitted with_slurm_config].
      rewrite Hfile, Hperm.
      now destruct (Nat.eqb_spec (String.length p) 0). }
  unfold bindM, sc_set, print_sys_path, made. cbn.
  destruct (existsb (String.eqb p) (dirs w)); cbn;
    destruct (experiments w) as [l|] eqn:He; cbn in *;
    rewrite ?dset_dset, ?(dset_same _ _ _ Hsel); reflexivity.
Qed.

(** X21.  [_finalize_slurm_config] can be run again: on the state a run
    that returned has left, a second run with the same number of jobs
    returns the same configuration, makes no directory and changes no
    file; it prints the module search path once more. *)
Theorem finalize_slurm_config_again (n : Z) (w w1 : world) (sc : dict) :
  _finalize_slurm_config n w = (Ret sc, w1) ->
  exists w2,
    _finalize_slurm_config n w1 = (Ret sc, w2) /\
    slurm_config (conf w2) = sc /\
    dirs w2 = dirs w1 /\ files w2 = files w1 /\
    stdout w2 = stdout w1 ++ [sys_path w1].
Proof.
  intros Hr. apply finalize_inv in Hr. cbv zeta in Hr.
  destruct Hr as (sc3 & sc4 & p & H3 & H4 & Hlog & Hlen & Hfile & Hperm
                  & Hsc & Hw1).
  set (sc0 := slurm_config (conf w)) in *.
  set (sc1 := dset "num_jobs" (VInt (n - 1)) sc0) in *.
  set (sc2 := if dmem "experiment_cwd" sc1 then sc1
              else dset "experiment_cwd" (VStr (cwd w)) sc1) in *.
  assert (N2 : dget "num_jobs" sc2 = Some (VInt (n - 1))).
  { subst sc2 sc1. destruct (dmem "experiment_cwd" _); now sc_simpl. }
  assert (C2 : dmem "experiment_cwd" sc2 = true).
  { subst sc2. destruct (dmem "experiment_cwd" sc1) eqn:Hc; [exact Hc|].
    apply dmem_dset_eq. }
  assert (F3 : dget "num_jobs" sc3 = Some (VInt (n - 1)) /\
               dmem "experiment_cwd" sc3 = true).
  { destruct H3 as [[_ ->]|(_ & ep & _ & ->)]; [now split|].
    rewrite dmem_dset_ne by discriminate. split; [now sc_simpl|exact C2]. }
  assert (F4 : dget "num_jobs" sc4 = Some (VInt (n - 1)) /\
               dmem "experiment_cwd" sc4 = true /\
               (dmem "slurm_ouput" sc4 = true \/
                exists ep, first_experiment_path w = Some ep /\
                  dget "slurm_out" sc4
                  = Some (VStr (path_join ep "sbatch.sh")))).
  { destruct F3 as [N3 C3].
    destruct H4 as [[Ho ->]|(_ & ep & Hep & ->)].
    - split; [exact N3|]. split; [exact C3|now left].
    - rewrite dmem_dset_ne by discriminate.
      split; [now sc_simpl|]. split; [exact C3|]. right.
      exists ep. split; [exact Hep|]. now sc_simpl. }
  destruct F4 as (N4 & C4 & O4).
  eexists. split.
  - apply (finalize_settled n w1 sc p).
    + now rewrite Hw1.
    + rewrite Hsc. now sc_simpl.
    + rewrite Hsc. now rewrite dmem_dset_ne by discriminate.
    + rewrite Hsc. now sc_simpl.
    + rewrite Hsc, dmem_dset_ne by discriminate.
      destruct O4 as [O4|(ep & Hep & Hv)]; [now left|]. right.
      exists ep. split; [|now sc_simpl].
      rewrite Hw1. unfold made. destruct (existsb _ _); exact Hep.
    + rewrite Hsc, Hw1. sc_simpl. unfold made.
      destruct (existsb _ _); reflexivity.
    + exact Hlen.
    + rewrite Hw1. unfold made. destruct (existsb _ _); exact Hfile.
    + rewrite Hw1. unfold made. destruct (existsb _ _); exact Hperm.
  - cbn [conf slurm_config with_stdout with_slurm_config dirs files stdout].
    split; [reflexivity|].
    assert (Hd : existsb (String.eqb p) (dirs w1) = true).
    { rewrite Hw1. unfold made.
      destruct (existsb (String.eqb p) (dirs w)) eqn:Hex; [exact Hex|].
      cbn. rewrite existsb_app. cbn. rewrite String.eqb_refl.
      now rewrite orb_true_r. }
    unfold made. rewrite Hd. repeat split; reflexivity.
Qed.

(* ----------------------------------------------------------------- *)
(** *** Filling a line *)


Ltac fill_cases sc :=
  repeat match goal with
         | |- context [dget ?k sc] =>
             destruct (dget k sc) as [[| | | |]|]; cbn [bindO]
         end.


(** Whether a line can be filled, and the exception raised when it
    cannot, depends on the configuration only. *)
Lemma fill_line_uniform (sc : dict) (cp code l1 l2 : string) :
  match fill_line sc cp code l1, fill_line sc cp code l2 with
  | Ret _, Ret _ => True
  | Raise e1, Raise e2 => e1 = e2
  | _, _ => False
  end.
Proof.
  unfold fill_line, fill_str, fill_int, fill_time_limit.
  fill_cases sc; reflexivity || exact I.
Qed.

(* ----------------------------------------------------------------- *)
(** *** Reading and writing *)


Lemma same_but_files_refl (w : world) : same_but_files w w.
Proof. now repeat split. Qed.

Lemma same_but_files_trans (w1 w2 w3 : world) :
  same_but_files w1 w2 -> same_but_files w2 w3 -> same_but_files w1 w3.
Proof.
  unfold same_but_files. intros H12 H23.
  destruct H12 as (? & ? & ? & ? & ? & ? & ? & ? & ? & ? & ?).
  destruct H23 as (? & ? & ? & ? & ? & ? & ? & ? & ? & ? & ?).
  repeat split; congruence.
Qed.

Lemma same_but_files_with_files (fs : list (string * content)) (w : world) :
  same_but_files w (with_files fs w).
Proof. now repeat split. Qed.

(** No line is empty. *)
Lemma readlines_nonempty (s : string) :
  Forall (fun l => l <> "") (readlines s).
Proof.
  induction s as [|c s IH]; cbn [readlines]; [constructor|].
  destruct (Ascii.eqb c "010"); [now constructor|].
  destruct (readlines s) as [|l ls]; [now repeat constructor|].
  inversion IH; subst. now constructor.
Qed.

Lemma readlines_nil (s : string) : readlines s = [] -> s = "".
Proof. intros H. rewrite <- (readlines_concat s), H. reflexivity. Qed.

Lemma content_at_other (p q : string) (c : content) (w : world) :
  p <> q -> content_at p (with_files (dset q c (files w)) w) = content_at p w.
Proof.
  intros Hpq. unfold content_at. cbn [files with_files].
  now rewrite dget_dset_ne.
Qed.

(** [readline] leaves the state as it is; it returns the next line, or
    the empty string at the end of a file that decodes. *)
Lemma readline_ret (fid : reader) (w w' : world) (r : string * reader) :
  readline fid w = (Ret r, w') ->
  w' = w /\ r_path (snd r) = r_path fid /\
  ((readlines (decoded (content_at (r_path fid) w)) !! r_pos fid
      = Some (fst r) /\
    fst r <> "" /\ r_pos (snd r) = S (r_pos fid)) \/
   (readlines (decoded (content_at (r_path fid) w)) !! r_pos fid = None /\
    fst r = "" /\ garbled (content_at (r_path fid) w) = false)).
Proof.
  unfold readline.
  destruct (readlines _ !! r_pos fid) as [tline|] eqn:Hl.
  - intros [= <- <-]. split; [reflexivity|]. split; [reflexivity|]. left.
    split; [reflexivity|]. split; [|reflexivity].
    pose proof (readlines_nonempty
                  (decoded (content_at (r_path fid) w))) as Hne.
    rewrite List.Forall_forall in Hne. apply Hne.
    apply list_elem_of_In. eapply list_elem_of_lookup_2. exact Hl.
  - destruct (garbled _) eqn:Hg; [discriminate|].
    intros [= <- <-]. split; [reflexivity|]. split; [reflexivity|]. right.
    auto.
Qed.

Lemma readline_raise (fid : reader) (w w' : world) (e : exn) :
  readline fid w = (Raise e, w') -> e = UnicodeError /\ w' = w.
Proof.
  unfold readline. destruct (readlines _ !! r_pos fid); [discriminate|].
  destruct (garbled _); [|discriminate]. now intros [= <- <-].
Qed.


Lemma flush_raise (fid : writer) (w w' : world) (e : exn) :
  flush fid w = (Raise e, w') -> e = OSError.
Proof.
  unfold flush. destruct (w_pending fid); [discriminate|].
  destruct (Nat.leb _ _); [discriminate|]. now intros [= <- _].
Qed.

Lemma flush_writes_only (fid : writer) : writes_only (w_path fid) (flush fid).
Proof.
  intros w. unfold flush. destruct (w_pending fid).
  - split; [apply same_but_files_refl|reflexivity].
  - destruct (Nat.leb _ _); cbn [snd]; (split;
      [apply same_but_files_with_files|]);
      intros q Hq; cbn [files with_files]; now rewrite dget_dset_ne.
Qed.


Lemma write_path (fid fid' : writer) (tline : string) (w w' : world) :
  write fid tline w = (Ret fid', w') -> w_path fid' = w_path fid.
Proof.
  unfold write. destruct (encodes w tline); [|discriminate].
  destruct (Nat.leb _ _); [now intros [= <- _]|].
  unfold flush. cbn [w_path w_pending].
  destruct (w_pending fid +:+ tline); [now intros [= <- _]|].
  destruct (Nat.leb _ _); [|discriminate]. now intros [= <- _].
Qed.

Lemma write_raise (fid : writer) (tline : string) (w w' : world) (e : exn) :
  write fid tline w = (Raise e, w') -> io_error e = true.
Proof.
  unfold write. destruct (encodes w tline); [|now intros [= <- _]].
  destruct (Nat.leb _ _); [discriminate|].
  now intros ->%flush_raise.
Qed.

Lemma write_writes_only (fid : writer) (tline : string) :
  writes_only (w_path fid) (write fid tline).
Proof.
  intros w. unfold write. destruct (encodes w tline).
  - destruct (Nat.leb _ _).
    + split; [apply same_but_files_refl|reflexivity].
    + apply (flush_writes_only
               {| w_path := w_path fid;
                  w_pending := w_pending fid +:+ tline |}).
  - split; [apply same_but_files_refl|reflexivity].
Qed.

(* ----------------------------------------------------------------- *)
(** *** The loop of [create_slurm_script] *)

(** The exceptions of filling a line are those of the lookups and of the
    formats. *)
Lemma fill_line_raise (sc : dict) (cp code l : string) (e : exn) :
  fill_line sc cp code l = Raise e -> io_error e = false /\ e <> OutOfFuel.
Proof.
  unfold fill_line, fill_str, fill_int, fill_time_limit.
  fill_cases sc; intros [= <-]; now split.
Qed.

(** With the empty string for a line the loop is over. *)
Lemma while_tline_end (sc : dict) (fuel : nat) (fid_in : reader)
    (fid_out : writer) :
  while_tline fuel sc fid_in fid_out "" = ret fid_out.
Proof. now destruct fuel. Qed.

(** The loop changes the file it writes to at most. *)
Lemma while_writes_only (sc : dict) (fuel : nat) :
  forall (fid_in : reader) (fid_out : writer) (tline : string),
    writes_only (w_path fid_out) (while_tline fuel sc fid_in fid_out tline).
Proof.
  induction fuel as [|fuel IH]; intros fid_in fid_out tline w;
    (destruct tline as [|c tline];
     [split; [apply same_but_files_refl|reflexivity]|]).
  - split; [apply same_but_files_refl|reflexivity].
  - cbn [while_tline]. unfold fill_and_write, bindM.
    destruct (fill_line sc (config_path (conf w)) (main_file w)
                        (String c tline)) as [y|e];
      [|split; [apply same_but_files_refl|reflexivity]].
    destruct (write_writes_only fid_out y w) as [Hs Hq].
    destruct (write fid_out y w) as [[fid1|e] w1] eqn:Hw;
      cbn [snd] in *; [|now split].
    apply write_path in Hw.
    destruct (readline fid_in w1) as [[r|e] w2] eqn:Hread.
    + apply readline_ret in Hread as (-> & _).
      destruct (IH (snd r) fid1 (fst r) w1) as [Hs' Hq'].
      rewrite Hw in Hq'. split.
      * eapply same_but_files_trans; eassumption.
      * intros q Hne. now rewrite Hq', Hq.
    + apply readline_raise in Hread as (_ & ->). now split.
Qed.


(** Once a line has been filled, the lines after it can be filled as
    well: the exceptions left are those of reading and writing, and that
    of the budget. *)
Lemma while_raise_io (sc : dict) (l0 y0 : string) (fuel : nat) :
  forall (fid_in : reader) (fid_out : writer) (tline : string)
         (w w' : world) (e : exn),
    fill_line sc (config_path (conf w)) (main_file w) l0 = Ret y0 ->
    while_tline fuel sc fid_in fid_out tline w = (Raise e, w') ->
    io_error e = true \/ e = OutOfFuel.
Proof.
  induction fuel as [|fuel IH]; intros fid_in fid_out tline w w' e Hfill Hr;
    (destruct tline as [|c tline]; [discriminate|]).
  - injection Hr as <- _. now right.
  - cbn [while_tline] in Hr. unfold bindM at 1 in Hr.
    unfold fill_and_write in Hr. unfold bindM at 1 in Hr.
    pose proof (fill_line_uniform sc (config_path (conf w)) (main_file w)
                  l0 (String c tline)) as Hu.
    rewrite Hfill in Hu.
    destruct (fill_line sc _ _ (String c tline)) as [y|]; [|contradiction].
    destruct (write_writes_only fid_out y w) as [Hs _].
    destruct (write fid_out y w) as [[fid1|e1] w1] eqn:Hw; cbn [snd] in Hs.
    + unfold bindM in Hr.
      destruct (readline fid_in w1) as [[r|e2] w2] eqn:Hread.
      * apply readline_ret in Hread as (-> & _).
        apply (IH _ _ _ _ _ _) in Hr; [exact Hr|].
        destruct Hs as (-> & _ & _ & -> & _). exact Hfill.
      * apply readline_raise in Hread as (-> & _).
        injection Hr as <- _. now left.
    + injection Hr as <- _. left. eapply write_raise. exact Hw.
Qed.

(** An exception of the loop that is none of reading and writing is
    raised while the first line is filled, before anything is
    written. *)
Lemma while_raise_early (sc : dict) (fuel : nat) (fid_in : reader)
    (fid_out : writer) (tline : string) (w w' : world) (e : exn) :
  while_tline fuel sc fid_in fid_out tline w = (Raise e, w') ->
  io_error e = false -> e <> OutOfFuel -> w' = w.
Proof.
  intros Hr Hio Hfuel.
  destruct (fill_line sc (config_path (conf w)) (main_file w) tline)
    as [y|e0] eqn:Hfill.
  - destruct (while_raise_io _ _ _ _ _ _ _ _ _ _ Hfill Hr) as [H| ->];
      congruence.
  - destruct fuel as [|fuel]; (destruct tline as [|c tline]; [discriminate|]);
      [injection Hr as He _; congruence|].
    cbn [while_tline] in Hr. unfold bindM at 1 in Hr.
    unfold fill_and_write in Hr. unfold bindM at 1 in Hr.
    rewrite Hfill in Hr. now injection Hr as _ <-.
Qed.

(** The budget: a loop that may take as many iterations as there are
    lines left does not use its budget up. *)
Lemma while_fuel (sc : dict) (fuel : nat) :
  forall (fid_in : reader) (fid_out : writer) (tline : string)
         (w w' : world),
    r_path fid_in <> w_path fid_out ->
    (tline <> "" ->
     r_pos fid_in
       <= length (readlines (decoded (content_at (r_path fid_in) w)))) ->
    length (readlines (decoded (content_at (r_path fid_in) w)))
      < fuel + r_pos fid_in ->
    while_tline fuel sc fid_in fid_out tline w <> (Raise OutOfFuel, w').
Proof.
  induction fuel as [|fuel IH];
    intros fid_in fid_out tline w w' Hne Hpos Hlen Hr;
    (destruct tline as [|c tline]; [discriminate|]).
  - specialize (Hpos ltac:(discriminate)). simpl in Hlen. lia.
  - cbn [while_tline] in Hr. unfold bindM at 1 in Hr.
    unfold fill_and_write in Hr. unfold bindM at 1 in Hr.
    destruct (fill_line sc _ _ _) as [y|e0] eqn:Hfill.
    2:{ injection Hr as He _. apply fill_line_raise in Hfill as [_ Hf].
        congruence. }
    destruct (write_writes_only fid_out y w) as [_ Hq].
    destruct (write fid_out y w) as [[fid1|e1] w1] eqn:Hw; cbn [snd] in Hq.
    2:{ injection Hr as -> _. apply write_raise in Hw. discriminate. }
    unfold bindM in Hr.
    destruct (readline fid_in w1) as [[r|e2] w2] eqn:Hread.
    2:{ apply readline_raise in Hread as (-> & _). discriminate. }
    apply readline_ret in Hread as (-> & Hrp & Hline).
    assert (Hc : content_at (r_path fid_in) w1 = content_at (r_path fid_in) w).
    { unfold content_at. now rewrite Hq. }
    rewrite Hc in Hline.
    destruct Hline as [(Hl & _ & Hp)|(_ & He & _)].
    + apply (IH _ _ _ _ _) in Hr; [exact Hr| | |].
      * rewrite Hrp. apply write_path in Hw. now rewrite Hw.
      * intros _. rewrite Hrp, Hc, Hp. apply lookup_lt_Some in Hl. lia.
      * rewrite Hrp, Hc, Hp. lia.
    + rewrite He in Hr. destruct fuel; discriminate.
Qed.

(* ----------------------------------------------------------------- *)
(** *** [create_slurm_script] *)

(** The state [_finalize_slurm_config] leaves when it returns. *)
Lemma finalize_world (n : Z) (w w1 : world) (sc : dict) :
  _finalize_slurm_config n w = (Ret sc, w1) ->
  slurm_config (conf w1) = sc /\
  config_path (conf w1) = config_path (conf w) /\
  main_file w1 = main_file w /\
  permitted w1 = permitted w /\
  files w1 = files w /\
  dget "path_to_template" sc
    = dget "path_to_template" (slurm_config (conf w)).
Proof.
  intros Hr. apply finalize_inv in Hr. cbv zeta in Hr.
  destruct Hr as (sc3 & sc4 & p & H3 & H4 & _ & _ & _ & _ & -> & ->).
  unfold made.
  repeat split; try (destruct (existsb _ _); reflexivity).
  sc_simpl.
  destruct H4 as [[_ ->]|(_ & ? & _ & ->)];
    destruct H3 as [[_ ->]|(_ & ? & _ & ->)]; sc_simpl;
    destruct (dmem "experiment_cwd" _); now sc_simpl.
Qed.

Lemma bind_keeps_files {A B : Type} (m : M A) (f : A -> M B) :
  (forall w, files (snd (m w)) = files w) ->
  (forall a w, files (snd (f a w)) = files w) ->
  forall w, files (snd (bindM m f w)) = files w.
Proof.
  intros Hm Hf w. unfold bindM. specialize (Hm w).
  destruct (m w) as [[a|e] w1]; simpl in *; [|exact Hm].
  now rewrite Hf.
Qed.

Lemma path_stage_keeps_files (has : bool) (k file : string) (w : world) :
  files (snd ((if has then ret tt
               else let! p := experiment_path in
                    let! v := os_path_join p file in
                    sc_set k v) w)) = files w.
Proof.
  destruct has; [reflexivity|]. revert w.
  apply bind_keeps_files.
  - intros w. unfold experiment_path.
    destruct (exp_configs (conf w)) as [|c cs]; [reflexivity|].
    now destruct (dget "_experiment_path" c).
  - intros p. apply bind_keeps_files; [now destruct p|reflexivity].
Qed.

(** The files are left alone by [_finalize_slurm_config], however it
    ends. *)
Lemma finalize_files (n : Z) (w : world) :
  files (snd (_finalize_slurm_config n w)) = files w.
Proof.
  revert w. unfold _finalize_slurm_config.
  apply bind_keeps_files; [reflexivity|intros _].
  apply bind_keeps_files; [reflexivity|intros has_cwd].
  apply bind_keeps_files; [now destruct has_cwd|intros _].
  apply bind_keeps_files; [reflexivity|intros has_log].
  apply bind_keeps_files; [apply path_stage_keeps_files|intros _].
  apply bind_keeps_files; [reflexivity|intros has_out].
  apply bind_keeps_files; [apply path_stage_keeps_files|intros _].
  apply bind_keeps_files.
  { intros w. unfold sc_get. now destruct (dget _ _). }
  intros log. apply bind_keeps_files.
  { intros w. destruct log as [| |p| |]; try reflexivity.
    unfold makedirs, made. destruct (_ || _); [reflexivity|].
    now destruct (existsb _ _). }
  intros _. apply bind_keeps_files; [reflexivity|intros _].
  apply bind_keeps_files.
  { intros w. now destruct (experiments w). }
  intros _. apply bind_keeps_files; reflexivity.
Qed.

(** The exceptions of [_finalize_slurm_config] are exceptions of Python. *)
Lemma raises_only_bind {A B : Type} (P : exn -> Prop) (m : M A)
    (f : A -> M B) :
  raises_only P m -> (forall a, raises_only P (f a)) ->
  raises_only P (bindM m f).
Proof.
  intros Hm Hf w e w' Hr. unfold bindM in Hr.
  destruct (m w) as [[a|e1] w1] eqn:Hmw.
  - eapply Hf. exact Hr.
  - injection Hr as <- _. eapply Hm. exact Hmw.
Qed.

Lemma path_stage_raises (has : bool) (k file : string) :
  raises_only (fun e => e <> OutOfFuel)
    (if has then ret tt
     else let! p := experiment_path in
          let! v := os_path_join p file in
          sc_set k v).
Proof.
  destruct has; [discriminate|].
  apply raises_only_bind.
  - intros w e w'. unfold experiment_path.
    destruct (exp_configs (conf w)) as [|c cs]; [now intros [= <- _]|].
    destruct (dget "_experiment_path" c); [discriminate|now intros [= <- _]].
  - intros p. apply raises_only_bind; [|discriminate].
    destruct p; try discriminate; now intros w e w' [= <- _].
Qed.

Lemma finalize_raises (n : Z) :
  raises_only (fun e => e <> OutOfFuel) (_finalize_slurm_config n).
Proof.
  unfold _finalize_slurm_config.
  apply raises_only_bind; [discriminate|intros _].
  apply raises_only_bind; [discriminate|intros has_cwd].
  apply raises_only_bind; [now destruct has_cwd|intros _].
  apply raises_only_bind; [discriminate|intros has_log].
  apply raises_only_bind; [apply path_stage_raises|intros _].
  apply raises_only_bind; [discriminate|intros has_out].
  apply raises_only_bind; [apply path_stage_raises|intros _].
  apply raises_only_bind.
  { intros w e w'. unfold sc_get.
    destruct (dget _ _); [discriminate|now intros [= <- _]]. }
  intros log. apply raises_only_bind.
  { intros w e w'. destruct log as [| |p| |];
      try (now intros [= <- _]).
    unfold makedirs. destruct (_ || _); [now intros [= <- _]|discriminate]. }
  intros _. apply raises_only_bind; [discriminate|intros _].
  apply raises_only_bind.
  { intros w e w'. now destruct (experiments w). }
  intros _. apply raises_only_bind; discriminate.
Qed.

Lemma text_at_inv (p : string) (w : world) (s : string) :
  text_at p w = Some s <-> dget p (files w) = Some (Text s).
Proof.
  unfold text_at. destruct (dget p (files w)) as [[t|t]|]; split;
    congruence.
Qed.

(** The file object the loop returns is the one it was given. *)
Lemma while_path (sc : dict) (fuel : nat) :
  forall (fid_in : reader) (fid_out fid' : writer) (tline : string)
         (w w' : world),
    while_tline fuel sc fid_in fid_out tline w = (Ret fid', w') ->
    w_path fid' = w_path fid_out.
Proof.
  induction fuel as [|fuel IH]; intros fid_in fid_out fid' tline w w' Hr;
    (destruct tline as [|c tline]; [now injection Hr as <- _|]);
    [discriminate|].
  cbn [while_tline] in Hr.
  apply bind_ret_inv in Hr as (fid1 & w1 & Hfw & Hr).
  unfold fill_and_write in Hfw.
  apply bind_ret_inv in Hfw as (y & w0 & _ & Hw).
  apply write_path in Hw.
  apply bind_ret_inv in Hr as (r & w2 & _ & Hr).
  apply IH in Hr. congruence.
Qed.

(** The first [readline] on a file that was not read yet. *)
Lemma first_readline (tp : string) (w w' : world) (r : string * reader) :
  readline {| r_path := tp; r_pos := 0 |} w = (Ret r, w') ->
  w' = w /\ r_path (snd r) = tp /\
  to_fill (snd r) (fst r) w = readlines (decoded (content_at tp w)) /\
  (fst r = "" -> content_at tp w = Text "") /\
  (fst r <> "" ->
   r_pos (snd r) = 1 /\
   1 <= length (readlines (decoded (content_at tp w)))).
Proof.
  intros Hr. apply readline_ret in Hr as (-> & Hp & Hline).
  cbn [r_path r_pos] in *. split; [reflexivity|]. split; [exact Hp|].
  destruct Hline as [(Hl & Hne & Hpos)|(Hl & He & Hg)].
  - split; [|split; [congruence|]].
    + unfold to_fill. rewrite Hp, Hpos.
      destruct (fst r) eqn:Hf; [congruence|].
      now rewrite <- (drop_S _ _ _ Hl).
    + intros _. split; [exact Hpos|]. apply lookup_lt_Some in Hl. lia.
  - split; [|split; [|congruence]].
    + rewrite He. cbn [to_fill].
      destruct (readlines _) as [|l ls]; [reflexivity|discriminate].
    + intros _.
      assert (Hd : decoded (content_at tp w) = "").
      { apply readlines_nil.
        destruct (readlines _) as [|l ls]; [reflexivity|discriminate]. }
      destruct (content_at tp w); cbn in *; congruence.
Qed.





(** What a run of [create_slurm_script] that raises has done. *)
Lemma create_raise_inv (n : Z) (w w' : world) (e : exn) :
  create_slurm_script n w = (Raise e, w') ->
  e <> OutOfFuel /\
  (files w' = files w \/
   exists op,
     dget "slurm_out" (slurm_config (conf w')) = Some (VStr op) /\
     (forall q, q <> op -> dget q (files w') = dget q (files w)) /\
     (io_error e = false -> text_at op w' = Some "")).
Proof.
  intros Hr. unfold create_slurm_script in Hr.
  pose proof (finalize_files n w) as Hff.
  destruct (_finalize_slurm_config n w) as [[sc|e1] w1] eqn:Hfin;
    simpl in Hff.
  2:{ rewrite (bind_raise _ _ _ _ _ Hfin) in Hr. injection Hr as <- <-.
      split; [exact (finalize_raises n _ _ _ Hfin)|now left]. }
  rewrite (bind_ret _ _ _ _ _ Hfin) in Hr.
  destruct (finalize_world _ _ _ _ Hfin) as (Hsc & _).
  unfold bindM at 1 in Hr. unfold sc_attr in Hr. rewrite Hsc in Hr.
  destruct (dget "path_to_template" sc) as [tv|];
    [|injection Hr as <- <-; split; [discriminate|now left]].
  unfold bindM at 1 in Hr. unfold lift in Hr.
  destruct (dget "slurm_out" sc) as [ov|] eqn:Hout;
    [|injection Hr as <- <-; split; [discriminate|now left]].
  unfold bindM at 1 in Hr.
  destruct (open_read tv w1) as [[fid_in|e2] w2] eqn:Hin.
  2:{ injection Hr as <- <-.
      destruct tv; try (injection Hin as <- <-; split; [discriminate|now left]).
      unfold open_read in Hin. destruct (dmem s (files w1)); [discriminate|].
      injection Hin as <- <-. split; [discriminate|now left]. }
  assert (Htv : exists tp, fid_in = {| r_path := tp; r_pos := 0 |} /\ w2 = w1).
  { destruct tv; try discriminate. unfold open_read in Hin.
    destruct (dmem s (files w1)); [|discriminate].
    injection Hin as <- <-. eauto. }
  destruct Htv as (tp & -> & ->). clear Hin.
  unfold bindM at 1 in Hr.
  destruct (open_write ov w1) as [[fid_out|e3] w3] eqn:Hw.
  2:{ injection Hr as <- <-.
      destruct ov; try (injection Hw as <- <-; split; [discriminate|now left]).
      unfold open_write in Hw. destruct (_ && _); [discriminate|].
      injection Hw as <- <-. split; [discriminate|now left]. }
  assert (Hov : exists op, ov = VStr op /\
                  fid_out = {| w_path := op; w_pending := "" |} /\
                  w3 = with_files (dset op (Text "") (files w1)) w1).
  { destruct ov; try discriminate. unfold open_write in Hw.
    destruct (_ && _); [|discriminate]. injection Hw as <- <-. eauto. }
  destruct Hov as (op & -> & -> & ->). clear Hw.
  set (w2 := with_files (dset op (Text "") (files w1)) w1) in *.
  assert (Hop2 : text_at op w2 = Some "").
  { apply text_at_inv. subst w2. cbn [files with_files]. apply dget_dset_eq. }
  assert (Hq2 : forall q, q <> op -> dget q (files w2) = dget q (files w)).
  { intros q Hq. subst w2. cbn [files with_files].
    rewrite dget_dset_ne by congruence. now rewrite Hff. }
  assert (Hright : forall w0,
             same_but_files w2 w0 ->
             (forall q, q <> op -> dget q (files w0) = dget q (files w2)) ->
             forall e0, (io_error e0 = false -> w0 = w2) ->
             files w0 = files w \/
             exists op0,
               dget "slurm_out" (slurm_config (conf w0)) = Some (VStr op0) /\
               (forall q, q <> op0 -> dget q (files w0) = dget q (files w)) /\
               (io_error e0 = false -> text_at op0 w0 = Some "")).
  { intros w0 Hs Hq e0 Hio. right. exists op. split; [|split].
    - destruct Hs as (-> & _). subst w2. cbn [conf with_files].
      now rewrite Hsc.
    - intros q Hne. now rewrite Hq, Hq2.
    - intros He. now rewrite (Hio He). }
  unfold bindM at 1 in Hr.
  destruct (readline _ w2) as [[r|e4] w4] eqn:Hread.
  2:{ apply readline_raise in Hread as (-> & ->). injection Hr as <- <-.
      split; [discriminate|].
      apply Hright; [apply same_but_files_refl|reflexivity|discriminate]. }
  apply first_readline in Hread as (-> & Hrp & _ & Hend & Hline).
  cbn [r_path] in Hr. unfold bindM at 1 in Hr.
  destruct (while_tline _ _ _ _ _ w2) as [[fid'|e5] w5] eqn:Hloop.
  - (* the loop returns: the script is closed *)
    pose proof (while_writes_only sc (lines_at tp w2) (snd r)
                  {| w_path := op; w_pending := "" |} (fst r) w2) as [Hs Hq].
    rewrite Hloop in Hs, Hq. cbn [snd w_path] in Hs, Hq.
    apply while_path in Hloop. cbn [w_path] in Hloop.
    unfold bindM at 1 in Hr. unfold close_read, ret in Hr.
    unfold bindM at 1 in Hr. unfold close_write in Hr.
    unfold bindM at 1 in Hr.
    pose proof (flush_writes_only fid' w5) as [Hs' Hq'].
    destruct (flush fid' w5) as [[fid''|e6] w6] eqn:Hflush;
      [discriminate|].
    apply flush_raise in Hflush as ->. injection Hr as <- <-.
    cbn [snd] in Hs', Hq'. rewrite Hloop in Hq'.
    split; [discriminate|]. apply Hright.
    + eapply same_but_files_trans; eassumption.
    + intros q Hne. now rewrite Hq', Hq.
    + discriminate.
  - injection Hr as <- <-.
    pose proof (while_writes_only sc (lines_at tp w2) (snd r)
                  {| w_path := op; w_pending := "" |} (fst r) w2) as [Hs Hq].
    rewrite Hloop in Hs, Hq. cbn [snd w_path] in Hs, Hq.
    assert (Hfuel : e5 <> OutOfFuel).
    { intros ->. destruct (fst r) eqn:Hf.
      - now rewrite while_tline_end in Hloop.
      - destruct Hline as [Hpos Hlen]; [discriminate|].
        destruct (String.eqb_spec tp op) as [->|Hne].
        + unfold content_at in Hlen. apply text_at_inv in Hop2.
          rewrite Hop2 in Hlen. cbn in Hlen. lia.
        + revert Hloop. apply while_fuel.
          * now rewrite Hrp.
          * intros _. rewrite Hrp, Hpos. exact Hlen.
          * rewrite Hrp, Hpos. unfold lines_at. lia. }
    split; [exact Hfuel|]. apply Hright; [exact Hs|exact Hq|].
    intros Hio. eapply while_raise_early; eassumption.
Qed.

(** The loop of [create_slurm_script] ends within its budget. *)
Lemma create_ends (n : Z) (w w' : world) :
  create_slurm_script n w <> (Raise OutOfFuel, w').
Proof. intros Hr. now apply create_raise_inv in Hr as [He _]. Qed.

(** X17.  When [create_slurm_script] raises, the exception is one of
    Python, and every file but the one at the [slurm_out] path of the
    configuration is as it was.  An exception that is none of reading
    and writing (a key that is missing, a value of the wrong type) is
    raised before anything is written: every file is then as it was,
    except that the script may have been created, or emptied.  After an
    [OSError] or a [UnicodeError] the script may hold a part of the
    lines. *)
Theorem create_slurm_script_raises (n : Z) (w w' : world) (e : exn) :
  create_slurm_script n w = (Raise e, w') ->
  e <> OutOfFuel /\
  forall q,
    dget q (files w') = dget q (files w) \/
    (dget "slurm_out" (slurm_config (conf w')) = Some (VStr q) /\
     (io_error e = false -> text_at q w' = Some "")).
Proof.
  intros Hr. apply create_raise_inv in Hr as [He Hr].
  split; [exact He|]. intros q.
  destruct Hr as [->|(op & Hout & Hother & Hio)]; [now left|].
  destruct (String.eqb_spec q op) as [->|Hq].
  - right. now split.
  - left. now apply Hother.
Qed.


End SlurmFacts.

(* ----------------------------------------------------------------- *)
(** *** The script writer on a concrete process *)

Lemma slurm_world_finalized :
  Slurm._finalize_slurm_config 12 slurm_world
  = (Slurm.Ret (Slurm.slurm_config (Slurm.conf slurm_after)), slurm_after).
Proof. vm_compute. reflexivity. Qed.

(** Twelve jobs, selected experiments [a] and [b]. *)
Lemma finalize_slurm_config_sets_witness :
  dget "num_jobs" (Slurm.slurm_config (Slurm.conf slurm_after))
    = Some (VInt 11) /\
  dget "experiment_selectors" (Slurm.slurm_config (Slurm.conf slurm_after))
    = Some (VStr "-e a b") /\
  dget "experiment_cwd" (Slurm.slurm_config (Slurm.conf slurm_after))
    = Some (VStr "/home/u").
Proof.
  destruct (SlurmFacts.finalize_slurm_config_sets 12 slurm_world slurm_after
              _ slurm_world_finalized) as (_ & Hn & Hs & Hc & _).
  split; [exact Hn|]. split; [exact Hs|exact Hc].
Defined.

(** The script path the user gave, [/mine.sh], is replaced. *)
Lemma finalize_slurm_out_witness :
  exists ep,
    Slurm.first_experiment_path slurm_world = Some ep /\
    dget "slurm_out" (Slurm.slurm_config (Slurm.conf slurm_after))
      = Some (VStr (path_join ep "sbatch.sh")).
Proof.
  exact (proj1 (SlurmFacts.finalize_slurm_out 12 slurm_world slurm_after
                  _ slurm_world_finalized) eq_refl).
Defined.

(** Without an experiment the default of the log directory cannot be
    built. *)
Lemma finalize_without_experiment_witness :
  exists w',
    Slurm._finalize_slurm_config 12 slurm_world_empty
      = (Slurm.Raise Slurm.IndexError, w') /\
    dget "num_jobs" (Slurm.slurm_config (Slurm.conf w')) = Some (VInt 11) /\
    Slurm.files w' = Slurm.files slurm_world_empty /\
    Slurm.dirs w' = Slurm.dirs slurm_world_empty /\
    Slurm.stdout w' = Slurm.stdout slurm_world_empty.
Proof.
  exact (proj1 (SlurmFacts.finalize_without_experiment 12 slurm_world_empty
                  eq_refl) (or_introl eq_refl)).
Defined.



(** A template that is the script itself is emptied before it is read,
    whatever it held: the run returns although the file did not
    decode. *)
Lemma create_slurm_script_same_file :
  Slurm.text_at "/out/exp/sbatch.sh" slurm_world_same = None /\
  Slurm.create_slurm_script 12 slurm_world_same
    = (Slurm.Ret "/out/exp/sbatch.sh", slurm_same_created) /\
  Slurm.text_at "/out/exp/sbatch.sh" slurm_same_created = Some "".
Proof. repeat split; vm_compute; reflexivity. Qed.



Lemma slurm_world_bad_raises :
  Slurm.create_slurm_script 12 slurm_world_bad
  = (Slurm.Raise (Slurm.KeyError "project_name"), slurm_bad_created).
Proof. vm_compute. reflexivity. Qed.

(** Without [project_name] the run raises a [KeyError]: every file is as
    it was, or is the script, empty. *)
Lemma create_slurm_script_raises_witness :
  Slurm.KeyError "project_name" <> Slurm.OutOfFuel /\
  forall q,
    dget q (Slurm.files slurm_bad_created)
      = dget q (Slurm.files slurm_world_bad) \/
    (dget "slurm_out" (Slurm.slurm_config (Slurm.conf slurm_bad_created))
       = Some (VStr q) /\
     (Slurm.io_error (Slurm.KeyError "project_name") = false ->
      Slurm.text_at q slurm_bad_created = Some "")).
Proof.
  exact (SlurmFacts.create_slurm_script_raises 12 slurm_world_bad
           slurm_bad_created _ slurm_world_bad_raises).
Defined.

(** A device without room for the second line: the run raises [OSError],
    and the script holds the twenty characters the device had room
    for. *)
Lemma create_slurm_script_device_full :
  Slurm.create_slurm_script 12 slurm_world_full
    = (Slurm.Raise Slurm.OSError, slurm_full_created) /\
  Slurm.text_at "/out/exp/sbatch.sh" slurm_full_created
    = Some ("#SBATCH -J proj" +:+ newline +:+ "#SBA").
Proof. split; vm_compute; reflexivity. Qed.

(** A template that decodes no further than its second line: the run
    raises [UnicodeError] at the third [readline], and the script holds
    the two lines written by then. *)
Lemma create_slurm_script_garbled :
  Slurm.create_slurm_script 12 slurm_world_garbled
    = (Slurm.Raise Slurm.UnicodeError, slurm_garbled_created) /\
  Slurm.text_at "/out/exp/sbatch.sh" slurm_garbled_created
    = Some ("#SBATCH -J proj" +:+ newline +:+
            "#SBATCH -t 1:5:00" +:+ newline).
Proof. split; vm_compute; reflexivity. Qed.



(** The completed configuration of the example, completed again. *)
Lemma finalize_slurm_config_again_witness :
  exists w2,
    Slurm._finalize_slurm_config 12 slurm_after
      = (Slurm.Ret (Slurm.slurm_config (Slurm.conf slurm_after)), w2) /\
    Slurm.slurm_config (Slurm.conf w2)
      = Slurm.slurm_config (Slurm.conf slurm_after) /\
    Slurm.dirs w2 = Slurm.dirs slurm_after /\
    Slurm.files w2 = Slurm.files slurm_after /\
    Slurm.stdout w2
      = Slurm.stdout slurm_after ++ [Slurm.sys_path slurm_after].
Proof.
  exact (SlurmFacts.finalize_slurm_config_again 12 slurm_world slurm_after
           _ slurm_world_finalized).
Defined.
